(** * Verification of scripts/build_admin_boundary_geojson.py

    A shallow embedding of the boundary-derivation script of AreaKit:
    Python values, the binary64 arithmetic the script performs (through
    the Standard Library's [SpecFloat]), point quantization, edge
    canonicalization and indexing, the edge classifier, the line merger
    and the two feature builders, followed by the properties of the
    specification. *)

From Stdlib Require Import ZArith String Ascii List Sorting.Sorted Lia.
From Stdlib Require Import Floats.SpecFloat QArith Qabs Qpower Lqa.
From stdpp Require Import base gmap sets list strings pretty.

Open Scope Z_scope.
Set Warnings "-register-all".

(* ------------------------------------------------------------------ *)
(** ** Python values and exceptions *)

(** JSON-shaped Python values.  Strings are UTF-8 byte strings; dicts
    are their entry lists in insertion order, with distinct keys. *)
Inductive pyval :=
| PNone
| PBool (b : bool)
| PInt (z : Z)
| PFloat (f : spec_float)
| PStr (s : string)
| PList (l : list pyval)
| PDict (kv : list (string * pyval)).

(** The exceptions the script can raise.  [WalkFuelExhausted] is not a
    Python exception: it marks a [while True] loop of the merger whose
    iteration bound ran out, which the termination theorem excludes. *)
Inductive exn :=
| TypeError | ValueError | OverflowError | AttributeError
| IndexError | KeyError | WalkFuelExhausted.

(** A computation that returns a value or raises. *)
Definition res (A : Type) : Type := (exn + A)%type.
Definition Ok {A} (a : A) : res A := inr a.
Definition Raise {A} (e : exn) : res A := inl e.

Definition rbind {A B} (m : res A) (k : A -> res B) : res B :=
  match m with
  | inl e => inl e
  | inr a => k a
  end.

Notation "'let?' x ':=' m 'in' k" := (rbind m (fun x => k))
  (at level 200, x name, m at level 100, k at level 200).

(** [if x] : Python truthiness. *)
Definition truthy (v : pyval) : bool :=
  match v with
  | PNone => false
  | PBool b => b
  | PInt z => negb (z =? 0)
  | PFloat (S754_zero _) => false
  | PFloat _ => true
  | PStr s => negb (String.eqb s "")
  | PList l => negb (Nat.eqb (List.length l) 0)
  | PDict kv => negb (Nat.eqb (List.length kv) 0)
  end.

(** [d.get(k)] on a dict. *)
Fixpoint assoc_get {A} (k : string) (kv : list (string * A)) : option A :=
  match kv with
  | [] => None
  | (k', v) :: kv' => if String.eqb k k' then Some v else assoc_get k kv'
  end.

(* ------------------------------------------------------------------ *)
(** ** UTF-8 strings: code points, [len], [str.strip] *)

Definition byte_of (c : ascii) : nat := nat_of_ascii c.

(** A byte that continues a multi-byte UTF-8 sequence (10xxxxxx). *)
Definition is_cont (c : ascii) : bool :=
  Nat.leb 128 (byte_of c) && Nat.ltb (byte_of c) 192.

(** The code points of a UTF-8 string, each as the string of its bytes. *)
Fixpoint utf8_chars_aux (cur : string) (s : string) : list string :=
  match s with
  | EmptyString => if String.eqb cur "" then [] else [cur]
  | String c s' =>
      if is_cont c then utf8_chars_aux (cur ++ String c EmptyString)%string s'
      else if String.eqb cur "" then utf8_chars_aux (String c EmptyString) s'
      else cur :: utf8_chars_aux (String c EmptyString) s'
  end.

Definition utf8_chars (s : string) : list string := utf8_chars_aux "" s.

Definition bytes (l : list nat) : string :=
  fold_right (fun n s => String (ascii_of_nat n) s) EmptyString l.

(** The characters Python's [str.isspace] accepts, UTF-8 encoded. *)
Definition py_whitespace : list string :=
  map (fun n => bytes [n]) [9; 10; 11; 12; 13; 28; 29; 30; 31; 32]%nat
  ++ [bytes [194; 133]; bytes [194; 160]; bytes [225; 154; 128]]%nat
  ++ map (fun n => bytes [226; 128; n]%nat) [128; 129; 130; 131; 132; 133; 134; 135; 136; 137; 138; 168; 169; 175]%nat
  ++ [bytes [226; 129; 159]; bytes [227; 128; 128]]%nat.

Definition is_ws_char (c : string) : bool :=
  existsb (String.eqb c) py_whitespace.

Definition concat_str (l : list string) : string :=
  fold_right String.append EmptyString l.

Fixpoint drop_while {A} (p : A -> bool) (l : list A) : list A :=
  match l with
  | [] => []
  | x :: l' => if p x then drop_while p l' else l
  end.

(** [s.strip()] *)
Definition py_strip (s : string) : string :=
  let cs := utf8_chars s in
  let cs1 := drop_while is_ws_char cs in
  concat_str (List.rev (drop_while is_ws_char (List.rev cs1))).

(** [len(v)] *)
Definition py_len (v : pyval) : res nat :=
  match v with
  | PStr s => Ok (List.length (utf8_chars s))
  | PList l => Ok (List.length l)
  | PDict kv => Ok (List.length kv)
  | _ => Raise TypeError
  end.

(** [v[i]] for a non-negative integer index. *)
Definition py_getitem (v : pyval) (i : nat) : res pyval :=
  match v with
  | PList l => match nth_error l i with Some x => Ok x | None => Raise IndexError end
  | PStr s => match nth_error (utf8_chars s) i with
              | Some c => Ok (PStr c) | None => Raise IndexError end
  | PDict _ => Raise KeyError
  | _ => Raise TypeError
  end.

Definition is_list (v : pyval) : bool :=
  match v with PList _ => true | _ => false end.

(* ------------------------------------------------------------------ *)
(** ** Binary64 arithmetic *)

(** Python floats are IEEE 754 binary64: 53 bits of precision, maximal
    exponent 1024. *)
Definition prec : Z := 53.
Definition emax : Z := 1024.
Abbreviation float := spec_float.

Definition cond_neg (neg : bool) (f : float) : float :=
  if neg then SFopp f else f.

(** The binary64 number nearest to [n / d] (ties to even); infinite when
    it overflows. *)
Definition round_ratio (n : Z) (d : positive) : float :=
  match n with
  | Z0 => S754_zero false
  | Zpos m =>
      let '(mz, ez, lz) := SFdiv_core_binary prec emax (Zpos m) 0 (Zpos d) 0 in
      binary_round_aux prec emax false mz ez lz
  | Zneg m =>
      let '(mz, ez, lz) := SFdiv_core_binary prec emax (Zpos m) 0 (Zpos d) 0 in
      binary_round_aux prec emax true mz ez lz
  end.

Definition is_infinite (f : float) : bool :=
  match f with S754_infinity _ => true | _ => false end.

(** [n / d] on Python ints with [d > 0]: correctly rounded true division,
    [OverflowError] when the quotient does not fit a float. *)
Definition int_truediv (n d : Z) : res float :=
  let r := round_ratio n (Z.to_pos d) in
  if is_infinite r then Raise OverflowError else Ok r.

(** [float(n)] on a Python int. *)
Definition float_of_int (n : Z) : res float := int_truediv n 1.

(** Exact conversion of a small integer constant. *)
Definition float_const (n : Z) : float := binary_normalize prec emax n 0 false.

(** [x * y] on floats. *)
Definition f_mul (x y : float) : float := SFmul prec emax x y.

(** [m * 2^e] rounded to the nearest integer, ties to even. *)
Definition round_half_even_pow2 (m : Z) (e : Z) : Z :=
  if 0 <=? e then m * 2 ^ e
  else
    let q := m / 2 ^ (- e) in
    let r := m mod 2 ^ (- e) in
    match Z.compare (2 * r) (2 ^ (- e)) with
    | Lt => q
    | Gt => q + 1
    | Eq => if Z.even q then q else q + 1
    end.

(** [round(x)] on a float, an int: ties to even; [OverflowError] on an
    infinity and [ValueError] on a NaN. *)
Definition py_round (f : float) : res Z :=
  match f with
  | S754_zero _ => Ok 0
  | S754_infinity _ => Raise OverflowError
  | S754_nan => Raise ValueError
  | S754_finite s m e => Ok (if s then - round_half_even_pow2 (Zpos m) e
                             else round_half_even_pow2 (Zpos m) e)
  end.

(** [float(s)] on a string: the decimal forms [[+-]digits[.digits]] and
    [[+-][digits].digits] surrounded by whitespace.  Exponents, [inf],
    [nan], underscores and non-ASCII digits are outside this model, which
    rejects them with [ValueError] as Python rejects every other string. *)
Definition digit_val (c : ascii) : option Z :=
  let n := nat_of_ascii c in
  if Nat.leb 48 n && Nat.leb n 57 then Some (Z.of_nat n - 48) else None.

Fixpoint parse_digits (l : list ascii) (acc : Z) (cnt : nat) : Z * nat * list ascii :=
  match l with
  | c :: l' => match digit_val c with
               | Some d => parse_digits l' (10 * acc + d) (S cnt)
               | None => (acc, cnt, l)
               end
  | [] => (acc, cnt, [])
  end.

Definition float_of_str (s : string) : res float :=
  let l := list_ascii_of_string (py_strip s) in
  let '(neg, l1) := match l with
                    | "-"%char :: l' => (true, l')
                    | "+"%char :: l' => (false, l')
                    | _ => (false, l)
                    end in
  let '(ip, n1, l2) := parse_digits l1 0 0 in
  let '(num, n2, l3) := match l2 with
                        | "."%char :: l' => parse_digits l' ip 0
                        | _ => (ip, 0%nat, l2)
                        end in
  match l3 with
  | [] => if Nat.eqb (n1 + n2) 0 then Raise ValueError
          else Ok (cond_neg neg (round_ratio num (Pos.of_nat (10 ^ n2))))
  | _ => Raise ValueError
  end.

(** [float(v)] *)
Definition py_float (v : pyval) : res float :=
  match v with
  | PFloat f => Ok f
  | PInt z => float_of_int z
  | PBool b => Ok (float_const (if b then 1 else 0))
  | PStr s => float_of_str s
  | _ => Raise TypeError
  end.

(* ------------------------------------------------------------------ *)
(** ** Points and edges *)

Definition SCALE : Z := 1000000.

Definition Point : Type := (Z * Z)%type.
Definition Edge : Type := (Point * Point)%type.

(** [quantize_point]:
    [(int(round(float(coord[0]) * SCALE)), int(round(float(coord[1]) * SCALE)))] *)
Definition quantize_point (coord : pyval) : res Point :=
  let? c0 := py_getitem coord 0 in
  let? x0 := py_float c0 in
  let? n0 := py_round (f_mul x0 (float_const SCALE)) in
  let? c1 := py_getitem coord 1 in
  let? x1 := py_float c1 in
  let? n1 := py_round (f_mul x1 (float_const SCALE)) in
  Ok (n0, n1).

(** [dequantize_point]: [[point[0] / SCALE, point[1] / SCALE]] *)
Definition dequantize_point (p : Point) : res pyval :=
  let? x := int_truediv p.1 SCALE in
  let? y := int_truediv p.2 SCALE in
  Ok (PList [PFloat x; PFloat y]).

(** Python's ordering of [(int, int)] tuples: lexicographic. *)
Definition point_leb (a b : Point) : bool :=
  (a.1 <? b.1) || ((a.1 =? b.1) && (a.2 <=? b.2)).

(** [canonical_edge] *)
Definition canonical_edge (a b : Point) : Edge :=
  if point_leb a b then (a, b) else (b, a).

(* ------------------------------------------------------------------ *)
(** ** Geometry Normalizer *)

Definition dict_get (kv : list (string * pyval)) (k : string) : pyval :=
  match assoc_get k kv with Some v => v | None => PNone end.

Definition is_dict (v : pyval) : bool :=
  match v with PDict _ => true | _ => false end.

Definition is_str (v : pyval) (s : string) : bool :=
  match v with PStr s' => String.eqb s' s | _ => false end.

(** [normalize_polygons]; [geometry.get] on a value that is not a dict
    raises [AttributeError]. *)
Definition normalize_polygons (geometry : pyval) : res (list pyval) :=
  if negb (truthy geometry) then Ok []
  else
    match geometry with
    | PDict kv =>
        let geom_type := dict_get kv "type" in
        let coords := dict_get kv "coordinates" in
        if is_str geom_type "Polygon" && is_list coords then Ok [coords]
        else if is_str geom_type "MultiPolygon" && is_list coords then
          match coords with PList l => Ok l | _ => Ok [] end
        else Ok []
    | _ => Raise AttributeError
    end.

(* ------------------------------------------------------------------ *)
(** ** Edge Indexer *)

(** [for x in l: out.extend(f(x))], stopping at the first exception. *)
Fixpoint res_flat_map {A B} (f : A -> res (list B)) (l : list A) : res (list B) :=
  match l with
  | [] => Ok []
  | x :: l' => let? ys := f x in let? zs := res_flat_map f l' in Ok (ys ++ zs)
  end.

(** One iteration of [for i in range(len(ring) - 1)]; the [or] of the
    length test short-circuits. *)
Definition edge_at (ring : list pyval) (i : nat) : res (list Edge) :=
  let? a_raw := py_getitem (PList ring) i in
  let? b_raw := py_getitem (PList ring) (S i) in
  let? la := py_len a_raw in
  if Nat.ltb la 2 then Ok [] else
  let? lb := py_len b_raw in
  if Nat.ltb lb 2 then Ok [] else
  let? a := quantize_point a_raw in
  let? b := quantize_point b_raw in
  if bool_decide (a = b) then Ok [] else Ok [canonical_edge a b].

(** [iter_edges], the generator's output as a list. *)
Definition iter_edges (polygons : list pyval) : res (list Edge) :=
  res_flat_map (fun poly =>
    match poly with
    | PList rings =>
        res_flat_map (fun ring =>
          match ring with
          | PList pts =>
              if Nat.ltb (List.length pts) 2 then Ok []
              else res_flat_map (edge_at pts) (seq 0 (List.length pts - 1))
          | _ => Ok []
          end) rings
    | _ => Ok []
    end) polygons.

(* ------------------------------------------------------------------ *)
(** ** Line Merger *)

(** [for x in l: s = f(s, x)] with exceptions. *)
Fixpoint res_fold {A S} (f : S -> A -> res S) (l : list A) (s : S) : res S :=
  match l with
  | [] => Ok s
  | x :: l' => let? s' := f s x in res_fold f l' s'
  end.

(** [adjacency[p]] on the [defaultdict(set)]. *)
Definition adj_get (adj : gmap Point (gset Point)) (p : Point) : gset Point :=
  default ∅ (adj !! p).

(** [adjacency[a].add(b); adjacency[b].add(a)] for every edge. *)
Definition build_adjacency (edges : list Edge) : gmap Point (gset Point) :=
  fold_left (fun adj (e : Edge) =>
    let '(a, b) := e in
    let adj1 := <[a := {[b]} ∪ adj_get adj a]> adj in
    <[b := {[a]} ∪ adj_get adj1 b]> adj1) edges ∅.

(** The local variables of [walk]'s loop. *)
Record walk_state := {
  ws_prev : Point;
  ws_current : Point;
  ws_path : list Point;
  ws_visited : gset Edge
}.

(** [candidates = [pt for pt in adjacency[current] if pt != prev and
    canonical_edge(current, pt) not in visited]] *)
Definition candidates (adj : gmap Point (gset Point)) (visited : gset Edge)
    (prev current : Point) : list Point :=
  filter (fun pt => pt ≠ prev ∧ canonical_edge current pt ∉ visited)
    (elements (adj_get adj current)).

(** [path.append(next_point); visited.add(canonical_edge(current, next_point));
    prev, current = current, next_point] *)
Definition advance (st : walk_state) (next_point : Point) : walk_state :=
  {| ws_prev := ws_current st;
     ws_current := next_point;
     ws_path := ws_path st ++ [next_point];
     ws_visited := {[canonical_edge (ws_current st) next_point]} ∪ ws_visited st |}.

Inductive step_result :=
| Break (st : walk_state)
| Continue (st : walk_state).

(** One iteration of [while True] in [walk]. *)
Definition walk_step (adj : gmap Point (gset Point)) (start : Point)
    (st : walk_state) : step_result :=
  match candidates adj (ws_visited st) (ws_prev st) (ws_current st) with
  | [] => Break st
  | next_point :: _ =>
      if negb (Nat.eqb (size (adj_get adj (ws_current st))) 2) then Break st
      else
        let st' := advance st next_point in
        if bool_decide (next_point = start) then Break st' else Continue st'
  end.

(** The [while True] loop, run for at most [fuel] iterations. *)
Fixpoint walk_loop (fuel : nat) (adj : gmap Point (gset Point)) (start : Point)
    (st : walk_state) : res walk_state :=
  match fuel with
  | O => Raise WalkFuelExhausted
  | S fuel' =>
      match walk_step adj start st with
      | Break st' => Ok st'
      | Continue st' => walk_loop fuel' adj start st'
      end
  end.

(** [walk(start, nxt)]: the path and the updated [visited] set. *)
Definition walk (fuel : nat) (adj : gmap Point (gset Point)) (visited : gset Edge)
    (start nxt : Point) : res (list Point * gset Edge) :=
  let? st := walk_loop fuel adj start
               {| ws_prev := start; ws_current := nxt; ws_path := [start; nxt];
                  ws_visited := {[canonical_edge start nxt]} ∪ visited |} in
  Ok (ws_path st, ws_visited st).

(** The state [merge_edges_to_lines] threads through its loops. *)
Abbreviation merge_state := (gset Edge * list (list Point))%type.

(** [for neighbor in neighbors: ...] of the open-chain loop. *)
Definition open_chain_from (fuel : nat) (adj : gmap Point (gset Point)) (node : Point)
    (s : merge_state) (neighbor : Point) : res merge_state :=
  let '(visited, lines) := s in
  if bool_decide (canonical_edge node neighbor ∈ visited) then Ok s
  else let? r := walk fuel adj visited node neighbor in
       Ok (r.2, lines ++ [r.1]).

(** Open chains: [for node, neighbors in adjacency.items()]. *)
Definition open_chains (fuel : nat) (adj : gmap Point (gset Point))
    (s : merge_state) : res merge_state :=
  res_fold (fun s (kv : Point * gset Point) =>
    let '(node, neighbors) := kv in
    if Nat.eqb (size neighbors) 2 then Ok s
    else res_fold (open_chain_from fuel adj node) (elements neighbors) s)
    (map_to_list adj) s.

(** Closed loops: [for edge in edges]. *)
Definition closed_loops (fuel : nat) (adj : gmap Point (gset Point))
    (edges : list Edge) (s : merge_state) : res merge_state :=
  res_fold (fun s (edge : Edge) =>
    let '(visited, lines) := s in
    if bool_decide (edge ∈ visited) then Ok s
    else let? r := walk fuel adj visited edge.1 edge.2 in
         Ok (r.2, lines ++ [r.1])) edges s.

(** The polylines of [merge_edges_to_lines] before dequantization; every
    walk may run [|edges| + 1] iterations. *)
Definition merge_points (edges : gset Edge) : res (list (list Point)) :=
  if bool_decide (edges = ∅) then Ok [] else
  let fuel := S (size edges) in
  let adj := build_adjacency (elements edges) in
  let? s1 := open_chains fuel adj (∅, []) in
  let? s2 := closed_loops fuel adj (elements edges) s1 in
  Ok s2.2.

Fixpoint res_map {A B} (f : A -> res B) (l : list A) : res (list B) :=
  match l with
  | [] => Ok []
  | x :: l' => let? y := f x in let? ys := res_map f l' in Ok (y :: ys)
  end.

(** [merge_edges_to_lines]: the polylines of at least two points,
    dequantized; each polyline is a list of [[x, y]] pairs. *)
Definition merge_edges_to_lines (edges : gset Edge) : res (list pyval) :=
  let? lines := merge_points edges in
  res_map (fun line => let? pts := res_map dequantize_point line in Ok (PList pts))
    (filter (fun line : list Point => (2 ≤ List.length line)%nat) lines).

(* ------------------------------------------------------------------ *)
(** ** Features *)

(** An input GeoJSON feature.  Property values are JSON strings; a
    property that is [null] is represented as absent, which every use
    ([props.get(k) or ""]) treats alike.  An absent geometry is [PNone]. *)
Record in_feature := {
  ft_properties : list (string * string);
  ft_geometry : pyval
}.

(** An output feature: its properties and its geometry. *)
Record out_feature := {
  of_properties : list (string * string);
  of_geometry_type : string;
  of_coordinates : pyval
}.

(** [props.get(k) or ""] *)
Definition props_get (props : list (string * string)) (k : string) : string :=
  match assoc_get k props with Some s => s | None => "" end.

(** [a or b] on strings. *)
Definition or_str (a b : string) : string :=
  if String.eqb a "" then b else a.

(** [canonical_municipality] on a properties dict. *)
Definition canonical_municipality (props : list (string * string)) : string :=
  let city := py_strip (props_get props "N03_004") in
  let ward := py_strip (props_get props "N03_005") in
  if negb (String.eqb city "") && negb (String.eqb ward "") then (city ++ ward)%string
  else city.

(** [canonical_municipality] on a string. *)
Definition canonical_municipality_str (s : string) : string := py_strip s.

(** [canonical_pref_name] *)
Definition canonical_pref_name (props : list (string * string)) : string :=
  py_strip (or_str (props_get props "pref_name") (props_get props "N03_001")).

(** [ft.get("geometry") or {}] *)
Definition geometry_or_empty (g : pyval) : pyval :=
  if truthy g then g else PDict [].

(** The sentinel name of unassigned territory. *)
Definition UNASSIGNED : string := "所属未定地".

(** Python's [sorted] on distinct strings: code-point order, which is the
    byte order of their UTF-8 encodings ([String.compare]). *)
Fixpoint insert_sorted (x : string) (l : list string) : list string :=
  match l with
  | [] => [x]
  | y :: l' => if String.leb x y then x :: l else y :: insert_sorted x l'
  end.

Definition sort_strings (l : list string) : list string :=
  fold_right insert_sorted [] l.

(* ------------------------------------------------------------------ *)
(** ** Municipality Grouper *)

Record group_entry := {
  g_props : list (string * string);
  g_municipality : string;
  g_polygons : list pyval
}.

(** One iteration of the first loop of [build_grouped_features]. *)
Definition group_feature (grouped : gmap string group_entry) (ft : in_feature)
    : res (gmap string group_entry) :=
  let props := ft_properties ft in
  let area_code := py_strip (props_get props "N03_007") in
  let municipality := canonical_municipality props in
  if String.eqb area_code "" || String.eqb municipality "" then Ok grouped
  else if String.eqb municipality UNASSIGNED then Ok grouped
  else
    let? polygons := normalize_polygons (geometry_or_empty (ft_geometry ft)) in
    match polygons with
    | [] => Ok grouped
    | _ =>
        let entry := match grouped !! area_code with
                     | Some g => g
                     | None => {| g_props := props; g_municipality := municipality;
                                  g_polygons := [] |}
                     end in
        Ok (<[area_code := {| g_props := g_props entry;
                              g_municipality := g_municipality entry;
                              g_polygons := g_polygons entry ++ polygons |}]> grouped)
    end.

(** The output feature of one administrative code. *)
Definition grouped_feature (area_code : string) (item : group_entry) : out_feature :=
  let props := g_props item in
  let municipality := g_municipality item in
  let polygons := g_polygons item in
  {| of_properties :=
       [("N03_001", py_strip (props_get props "N03_001"));
        ("N03_002", py_strip (props_get props "N03_002"));
        ("N03_003", py_strip (props_get props "N03_003"));
        ("N03_004", py_strip (props_get props "N03_004"));
        ("N03_005", py_strip (props_get props "N03_005"));
        ("N03_007", area_code);
        ("area_id", area_code);
        ("area_name", municipality);
        ("municipality", municipality);
        ("pref_name", py_strip (props_get props "N03_001"))];
     of_geometry_type := if Nat.eqb (List.length polygons) 1 then "Polygon" else "MultiPolygon";
     of_coordinates := match polygons with
                       | [p] => p
                       | _ => PList polygons
                       end |}.

(** [build_grouped_features] *)
Definition build_grouped_features (features : list in_feature) : res (list out_feature) :=
  let? grouped := res_fold group_feature features ∅ in
  Ok (map (fun area_code =>
             match grouped !! area_code with
             | Some item => grouped_feature area_code item
             | None => grouped_feature area_code {| g_props := []; g_municipality := "";
                                                    g_polygons := [] |}
             end)
          (sort_strings (map fst (map_to_list grouped)))).

(** [main]'s exclusion set: the municipalities of the grouped features. *)
Definition excluded_municipalities_of (grouped : list out_feature) : gset string :=
  list_to_set (map (fun ft => py_strip (props_get (of_properties ft) "municipality")) grouped).

(* ------------------------------------------------------------------ *)
(** ** Boundary derivation: indexing, classification, features *)

(** [edge_muni_counts]: a [Counter] of municipalities per edge. *)
Abbreviation edge_counts := (gmap Edge (gmap string nat)).

(** [edge_muni_counts[edge][municipality] += 1] *)
Definition add_count (municipality : string) (counts : edge_counts) (edge : Edge)
    : edge_counts :=
  let counter := default ∅ (counts !! edge) in
  <[edge := <[municipality := S (default 0%nat (counter !! municipality))]> counter]> counts.

(** One iteration of the first loop of [build_extra_pref_boundary_features]. *)
Definition index_feature (target_pref_names excluded_municipalities : gset string)
    (st : edge_counts * gmap string string) (ft : in_feature)
    : res (edge_counts * gmap string string) :=
  let '(counts, municipality_pref) := st in
  let props := ft_properties ft in
  let pref_name := canonical_pref_name props in
  if negb (bool_decide (target_pref_names = ∅))
     && negb (bool_decide (pref_name ∈ target_pref_names)) then Ok st
  else
    let municipality :=
      canonical_municipality_str
        (or_str (props_get props "municipality")
           (or_str (props_get props "area_name") (props_get props "N03_004"))) in
    if String.eqb municipality "" || bool_decide (municipality ∈ excluded_municipalities)
    then Ok st
    else
      let? polygons := normalize_polygons (geometry_or_empty (ft_geometry ft)) in
      match polygons with
      | [] => Ok st
      | _ =>
          let municipality_pref' := <[municipality := pref_name]> municipality_pref in
          let? edges := iter_edges polygons in
          Ok (fold_left (add_count municipality) edges counts, municipality_pref')
      end.

(** [municipality_edges[muni].add(edge)] *)
Definition add_edge (me : gmap string (gset Edge)) (muni : string) (edge : Edge)
    : gmap string (gset Edge) :=
  <[muni := {[edge]} ∪ default ∅ (me !! muni)]> me.

(** One iteration of the classification loop. *)
Definition classify_edge (me : gmap string (gset Edge)) (kv : Edge * gmap string nat)
    : gmap string (gset Edge) :=
  let '(edge, muni_counter) := kv in
  let municipalities := map fst (map_to_list muni_counter) in
  match municipalities with
  | [muni] =>
      if Nat.eqb (default 0%nat (muni_counter !! muni)) 1 then add_edge me muni edge
      else me
  | _ => fold_left (fun me muni => add_edge me muni edge) municipalities me
  end.

(** The Edge Classifier: [municipality_edges]. *)
Definition classify_edges (counts : edge_counts) : gmap string (gset Edge) :=
  fold_left classify_edge (map_to_list counts) ∅.

(** [f"{index:05d}"] *)
Definition pad5 (n : nat) : string :=
  let s := pretty (N.of_nat n) in
  (concat_str (repeat "0" (5 - String.length s)) ++ s)%string.

(** The feature of one municipality with its merged lines. *)
Definition boundary_feature (municipality_pref : gmap string string) (index : nat)
    (municipality : string) (lines : list pyval) : out_feature :=
  let pref_name := default "" (municipality_pref !! municipality) in
  let area_id := ("FINE-" ++ pad5 index)%string in
  {| of_properties :=
       [("N03_001", pref_name); ("N03_002", ""); ("N03_003", "");
        ("N03_004", municipality); ("N03_005", ""); ("N03_007", area_id);
        ("area_id", area_id); ("area_name", municipality);
        ("municipality", municipality); ("pref_name", pref_name);
        ("source", "fine-polygon-derived")];
     of_geometry_type := if Nat.eqb (List.length lines) 1 then "LineString"
                         else "MultiLineString";
     of_coordinates := match lines with
                       | [l] => l
                       | _ => PList lines
                       end |}.

(** One iteration of the output loop; [continue] yields no feature. *)
Definition boundary_output (municipality_pref : gmap string string)
    (municipality_edges : gmap string (gset Edge)) (im : nat * string)
    : res (list out_feature) :=
  let '(index, municipality) := im in
  let? lines := merge_edges_to_lines (default ∅ (municipality_edges !! municipality)) in
  match lines with
  | [] => Ok []
  | _ => Ok [boundary_feature municipality_pref index municipality lines]
  end.

(** [build_extra_pref_boundary_features] *)
Definition build_extra_pref_boundary_features (fine_features : list in_feature)
    (target_pref_names excluded_municipalities : gset string) : res (list out_feature) :=
  let? st := res_fold (index_feature target_pref_names excluded_municipalities)
               fine_features (∅, ∅) in
  let municipality_edges := classify_edges st.1 in
  let keys := sort_strings (map fst (map_to_list municipality_edges)) in
  res_flat_map (boundary_output st.2 municipality_edges)
    (combine (seq 1 (List.length keys)) keys).

(* ------------------------------------------------------------------ *)
(** ** The pure part of [main] *)

(** [s.split(",")]: a comma is one byte that no multi-byte UTF-8
    character contains, so splitting the bytes splits the characters. *)
Fixpoint split_comma_aux (cur : string) (s : string) : list string :=
  match s with
  | EmptyString => [cur]
  | String c s' =>
      if Ascii.eqb c ","%char then cur :: split_comma_aux "" s'
      else split_comma_aux (cur ++ String c EmptyString)%string s'
  end.

Definition split_comma (s : string) : list string := split_comma_aux "" s.

(** [{name.strip() for name in s.split(",") if name.strip()}] *)
Definition parse_pref_names (s : string) : gset string :=
  list_to_set (List.filter (fun name => negb (String.eqb name ""))
                 (map py_strip (split_comma s))).

(** The sort key of [main]:
    [(props.get("pref_name") or "", props.get("municipality") or "",
      props.get("area_id") or "")]. *)
Definition output_key (f : out_feature) : string * string * string :=
  (props_get (of_properties f) "pref_name", props_get (of_properties f) "municipality",
   props_get (of_properties f) "area_id").

(** [<] on tuples of strings: lexicographic, each string in code-point
    order. *)
Definition key_ltb (k1 k2 : string * string * string) : bool :=
  match String.compare k1.1.1 k2.1.1 with
  | Lt => true
  | Gt => false
  | Eq => match String.compare k1.1.2 k2.1.2 with
          | Lt => true
          | Gt => false
          | Eq => match String.compare k1.2 k2.2 with Lt => true | _ => false end
          end
  end.

(** [list.sort(key=output_key)]: Python's sort is stable, and its result is
    the stable sort of the list, computed here by insertion. *)
Fixpoint insert_by_key (x : out_feature) (l : list out_feature) : list out_feature :=
  match l with
  | [] => [x]
  | y :: l' => if key_ltb (output_key y) (output_key x) then y :: insert_by_key x l'
               else x :: l
  end.

Definition sort_output (l : list out_feature) : list out_feature :=
  fold_right insert_by_key [] l.

(** The features [main] writes, from the features of the N03 files, the
    [--extra-pref-names] argument and the fine features ([None] when the
    fine-polygon file does not exist). *)
Definition main_output (features : list in_feature) (extra_pref_names : string)
    (fine_features : option (list in_feature)) : res (list out_feature) :=
  let? grouped := build_grouped_features features in
  let excluded_municipalities := excluded_municipalities_of grouped in
  let names := parse_pref_names extra_pref_names in
  let? extra := match fine_features with
                | Some fine =>
                    if bool_decide (names = ∅) then Ok []
                    else build_extra_pref_boundary_features fine names excluded_municipalities
                | None => Ok []
                end in
  Ok (sort_output (grouped ++ extra)).

(* ------------------------------------------------------------------ *)
(** ** Edges of polylines *)

(** The canonical edges between consecutive points of a polyline. *)
Definition path_edges (path : list Point) : list Edge :=
  zip_with canonical_edge path (tail path).

(** The edges of all polylines, in order. *)
Definition lines_edges (lines : list (list Point)) : list Edge :=
  concat (map path_edges lines).

(** The canonical forms of a set of edges. *)
Definition canon_set (edges : gset Edge) : gset Edge :=
  set_map (fun e : Edge => canonical_edge e.1 e.2) edges.

(** A set of canonical edges, as [canonical_edge] produces them. *)
Definition all_canonical (edges : gset Edge) : Prop :=
  ∀ e, e ∈ edges → canonical_edge e.1 e.2 = e.

(** The edges a consumer reconstructs from the merger's output: every
    [[x, y]] re-quantized with [quantize_point], consecutive points
    canonicalized. *)
Definition reconstructed_edges (lines : list pyval) : res (list Edge) :=
  res_flat_map (fun line =>
    match line with
    | PList pts => let? ps := res_map quantize_point pts in Ok (path_edges ps)
    | _ => Ok []
    end) lines.

(* ------------------------------------------------------------------ *)
(** ** The values of floats

    A finite float [m 2^e] has the rational value [m 2^e], a zero has
    [0]; the error of the script's arithmetic is stated on these values. *)

Definition bpow (e : Z) : Q := ((2 # 1) ^ e)%Q.

Definition Fval (m e : Z) : Q := (inject_Z m * bpow e)%Q.

Definition fval (f : float) : Q :=
  match f with
  | S754_finite s m e => if s then (- Fval (Zpos m) e)%Q else Fval (Zpos m) e
  | _ => 0%Q
  end.

(** A zero or a finite float: neither an infinity nor a NaN. *)
Definition fin_float (f : float) : bool :=
  match f with S754_zero _ | S754_finite _ _ _ => true | _ => false end.

(** A point whose coordinates are at most [2^40] in magnitude: at most
    about [1.1e6] degrees once dequantized. *)
Definition point_bounded (p : Point) : Prop := Z.abs p.1 <= 2 ^ 40 ∧ Z.abs p.2 <= 2 ^ 40.


(* ------------------------------------------------------------------ *)
(** ** The Edge Indexer as specified

    For each consecutive pair of coordinates of each ring: nothing when a
    coordinate has fewer than two components or both quantize to the same
    point, their canonical edge otherwise. *)



Definition is_ok {A} (r : res A) : bool :=
  match r with inr _ => true | inl _ => false end.



(* ------------------------------------------------------------------ *)
(** ** The Municipality Grouper as specified *)

(** The code and the non-empty list of polygons a feature contributes to
    the grouper; [None] for a skipped feature. *)
Definition feature_contribution (ft : in_feature) : option (string * list pyval) :=
  let props := ft_properties ft in
  let area_code := py_strip (props_get props "N03_007") in
  let municipality := canonical_municipality props in
  if String.eqb area_code "" || String.eqb municipality ""
     || String.eqb municipality UNASSIGNED then None
  else match normalize_polygons (geometry_or_empty (ft_geometry ft)) with
       | inr ((_ :: _) as ps) => Some (area_code, ps)
       | _ => None
       end.

Definition feature_polygons_for (ft : in_feature) (code : string) : list pyval :=
  match feature_contribution ft with
  | Some (c, ps) => if String.eqb c code then ps else []
  | None => []
  end.

(** The polygons contributed under [code], in the order of the features. *)
Definition contributed_polygons (features : list in_feature) (code : string) : list pyval :=
  flat_map (fun ft => feature_polygons_for ft code) features.

(** A geometry that is absent (falsy) or a dict. *)
Definition geometry_ok (ft : in_feature) : bool :=
  negb (truthy (ft_geometry ft)) || is_dict (ft_geometry ft).

(** The administrative code of an output feature. *)
Definition out_code (f : out_feature) : string := props_get (of_properties f) "N03_007".

(** The polygons accumulated under a code. *)
Definition group_polygons (grouped : gmap string group_entry) (code : string) : list pyval :=
  match grouped !! code with Some e => g_polygons e | None => [] end.

(* ------------------------------------------------------------------ *)
(** ** Sample inputs *)

(** The unit square, as four canonical edges. *)
Definition unit_square : gset Edge :=
  {[ ((0,0),(0,1)); ((0,0),(1,0)); ((0,1),(1,1)); ((1,0),(1,1)) ]}.

(** A coordinate [[x, y]] of JSON integers. *)
Definition coord (x y : Z) : pyval := PList [PInt x; PInt y].

Definition square_ring (x y : Z) : pyval :=
  PList [coord x y; coord (x + 1) y; coord (x + 1) (y + 1); coord x (y + 1); coord x y].

Definition sample_feature (code city ward : string) (geometry : pyval) : in_feature :=
  {| ft_properties := [("N03_001", "埼玉県"); ("N03_004", city); ("N03_005", ward);
                       ("N03_007", code)];
     ft_geometry := geometry |}.

(** Four fine features: one polygon under [11101], a multipolygon of two
    under [11102] given in two features, and a feature of unassigned
    territory. *)
Definition sample_features : list in_feature :=
  [sample_feature "11102" "さいたま市" "北区"
     (PDict [("type", PStr "Polygon"); ("coordinates", PList [square_ring 1 0])]);
   sample_feature "11101" "さいたま市" "西区"
     (PDict [("type", PStr "Polygon"); ("coordinates", PList [square_ring 0 0])]);
   sample_feature "11102" "さいたま市" "北区"
     (PDict [("type", PStr "MultiPolygon"); ("coordinates", PList [PList [square_ring 2 0]])]);
   sample_feature "11999" UNASSIGNED ""
     (PDict [("type", PStr "Polygon"); ("coordinates", PList [square_ring 5 5])])].

(* ------------------------------------------------------------------ *)
(** ** The sentinel of unassigned territory *)

(** A feature the grouper names with the sentinel. *)
Definition is_unassigned (ft : in_feature) : bool :=
  String.eqb (canonical_municipality (ft_properties ft)) UNASSIGNED.

(** The municipality name the boundary derivation reads from a feature. *)
Definition boundary_municipality (ft : in_feature) : string :=
  let props := ft_properties ft in
  canonical_municipality_str
    (or_str (props_get props "municipality")
       (or_str (props_get props "area_name") (props_get props "N03_004"))).

(* ------------------------------------------------------------------ *)
(** ** Output features of a municipality *)

Definition feature_municipality (f : out_feature) : string :=
  props_get (of_properties f) "municipality".

(** The features of [out] that carry the name [m]. *)
Definition features_for (m : string) (out : list out_feature) : list out_feature :=
  List.filter (fun f => String.eqb (feature_municipality f) m) out.

(* ------------------------------------------------------------------ *)
(** ** Invariants of the proofs *)

(** The condition under which the classifier places an edge with this
    counter in [m]'s set. *)
Definition classified_for (m : string) (counter : gmap string nat) : Prop :=
  m ∈ dom counter ∧ (size counter ≠ 1%nat ∨ counter !! m = Some 1%nat).

(** What a walk that started in the edge set [C] from the visited set [V0] with the edge [e0]
    maintains. *)
Definition walk_inv (C : gset Edge) (V0 : gset Edge) (e0 : Edge) (st : walk_state) : Prop :=
  (∃ l, ws_path st = l ++ [ws_current st]) ∧
  (2 ≤ List.length (ws_path st))%nat ∧
  e0 ∈ path_edges (ws_path st) ∧
  NoDup (path_edges (ws_path st)) ∧
  (∀ e, e ∈ path_edges (ws_path st) → (e ∉ V0) ∧ e ∈ C) ∧
  ws_visited st = list_to_set (path_edges (ws_path st)) ∪ V0.

(** The invariant of the merger's state: the polylines so far have
    distinct edges, all in [C], exactly the visited ones, and at least
    two points each. *)
Definition merge_inv (C : gset Edge) (s : merge_state) : Prop :=
  NoDup (lines_edges s.2) ∧ (∀ e, e ∈ lines_edges s.2 → e ∈ C) ∧
  s.1 = list_to_set (lines_edges s.2) ∧ Forall (fun l => 2 ≤ List.length l)%nat s.2.

(** Rounding locations compare decidably. *)
#[local] Instance location_eq_dec : EqDecision location.
Proof. solve_decision. Defined.

(* ------------------------------------------------------------------ *)
(** ** Boundary derivation: selection and counts *)

(** A fine feature the boundary derivation indexes: of a target
    prefecture (every prefecture when there is no target), with a
    municipality name that is neither blank nor excluded. *)
Definition boundary_selected (T X : gset string) (ft : in_feature) : bool :=
  (bool_decide (T = ∅) || bool_decide (canonical_pref_name (ft_properties ft) ∈ T))
  && negb (String.eqb (boundary_municipality ft) "")
  && negb (bool_decide (boundary_municipality ft ∈ X)).

(** The edges [iter_edges] yields for a feature's geometry ([[]] when it
    raises). *)
Definition feature_edges (ft : in_feature) : list Edge :=
  match normalize_polygons (geometry_or_empty (ft_geometry ft)) with
  | inr ps => match iter_edges ps with inr es => es | inl _ => [] end
  | inl _ => []
  end.

(** How often the edge [e] occurs among the edges of the selected
    features of municipality [m]. *)
Definition edge_occurrences (T X : gset string) (features : list in_feature)
    (e : Edge) (m : string) : nat :=
  list_sum (map (fun ft =>
    if boundary_selected T X ft && String.eqb (boundary_municipality ft) m
    then List.length (List.filter (fun e' => bool_decide (e' = e)) (feature_edges ft))
    else 0%nat) features).

(** The first feature that contributes polygons to the grouper under
    [code]. *)
Definition first_contributor (features : list in_feature) (code : string) : option in_feature :=
  find (fun ft => match feature_contribution ft with
                  | Some (c, _) => String.eqb c code
                  | None => false
                  end) features.

(** [edge_muni_counts[edge][municipality]], zero when absent as for a
    [Counter]. *)
Definition count_of (counts : edge_counts) (e : Edge) (m : string) : nat :=
  default 0%nat (default ∅ (counts !! e) !! m).

(** The prefecture name the indexer records last for the municipality [m]:
    that of the last selected feature of [m] with polygons. *)
Definition last_indexed_pref (T X : gset string) (features : list in_feature) (m : string)
    (acc : option string) : option string :=
  fold_left (fun acc ft =>
    if boundary_selected T X ft && String.eqb (boundary_municipality ft) m
       && match normalize_polygons (geometry_or_empty (ft_geometry ft)) with
          | inr (_ :: _) => true
          | _ => false
          end
    then Some (canonical_pref_name (ft_properties ft)) else acc) features acc.

(* ------------------------------------------------------------------ *)
(** ** Rounding to nearest, ties to even *)

(** [a 2^F] is the multiple of [2^F] nearest to [x], ties to the even
    multiple. *)
Definition RHE (x : Q) (F a : Z) : Prop :=
  (Qabs (x - Fval a F) <= bpow (F - 1))%Q ∧
  ((Qabs (x - Fval a F) == bpow (F - 1))%Q -> Z.even a = true).

(** The meaning of a location: where [x] lies in [[m 2^e, (m+1) 2^e)]. *)
Definition loc_sem (x : Q) (m e : Z) (l : location) : Prop :=
  match l with
  | loc_Exact => (x == Fval m e)%Q
  | loc_Inexact c =>
      (Fval m e < x < Fval (m + 1) e)%Q ∧
      (c = Lt <-> (x < Fval (2 * m + 1) (e - 1))%Q) ∧
      (c = Eq <-> (x == Fval (2 * m + 1) (e - 1))%Q) ∧
      (c = Gt <-> (Fval (2 * m + 1) (e - 1) < x)%Q)
  end.

(** The meaning of a shift record: the integer part [m] of [x / 2^e], a
    round bit telling whether [x] reaches the midpoint, and a sticky bit
    telling whether [x] is neither [m 2^e] nor the midpoint. *)
Definition shr_sem (x : Q) (e : Z) (mrs : shr_record) : Prop :=
  (Fval (shr_m mrs) e <= x < Fval (shr_m mrs + 1) e)%Q ∧
  (shr_r mrs = true <-> (Fval (2 * shr_m mrs + 1) (e - 1) <= x)%Q) ∧
  (shr_s mrs = true <->
     ~ (x == Fval (shr_m mrs) e)%Q ∧ ~ (x == Fval (2 * shr_m mrs + 1) (e - 1))%Q).


(** A coordinate as [quantize_point] produces it: [round(x * SCALE)] for
    a double [x]. *)
Definition coord_quantized (n : Z) : Prop :=
  exists x, valid_binary prec emax x = true ∧
    py_round (f_mul x (float_const SCALE)) = Ok n.

Definition point_quantized (p : Point) : Prop :=
  coord_quantized p.1 ∧ coord_quantized p.2.

(** Every endpoint of every edge of [E] is a quantized point. *)
Definition edges_quantized (E : gset Edge) : Prop :=
  forall e, e ∈ E -> point_quantized e.1 ∧ point_quantized e.2.

(* ================================================================== *)
(** * Properties *)

(* ------------------------------------------------------------------ *)
(** ** Edge canonicalization *)

Lemma point_leb_total (a b : Point) : point_leb a b = false → point_leb b a = true.
Proof.
  destruct a as [a1 a2], b as [b1 b2]. unfold point_leb; simpl.
  intros H. apply orb_false_iff in H as [H1 H2].
  apply Z.ltb_ge in H1. apply orb_true_iff.
  destruct (Z.eq_dec a1 b1) as [->|Hne].
  - right. rewrite Z.eqb_refl in H2. simpl in H2. apply Z.leb_gt in H2.
    rewrite Z.eqb_refl. simpl. apply Z.leb_le. lia.
  - left. apply Z.ltb_lt. lia.
Qed.

Lemma point_leb_antisym (a b : Point) : point_leb a b = true → point_leb b a = true → a = b.
Proof.
  destruct a as [a1 a2], b as [b1 b2]. unfold point_leb; simpl.
  rewrite !orb_true_iff, !andb_true_iff, !Z.ltb_lt, !Z.eqb_eq, !Z.leb_le.
  intros H1 H2. f_equal; lia.
Qed.

(** C6: [canonical_edge] is symmetric and stores the lexicographically
    smaller point first. *)
Theorem canonical_edge_symmetric (a b : Point) :
  canonical_edge a b = canonical_edge b a ∧
  point_leb (canonical_edge a b).1 (canonical_edge a b).2 = true ∧
  (canonical_edge a b = (a, b) ∨ canonical_edge a b = (b, a)).
Proof.
  unfold canonical_edge.
  destruct (point_leb a b) eqn:Hab, (point_leb b a) eqn:Hba; simpl.
  - pose proof (point_leb_antisym a b Hab Hba) as ->. auto.
  - auto.
  - auto.
  - apply point_leb_total in Hab. congruence.
Qed.

(* ------------------------------------------------------------------ *)
(** ** Geometry Normalizer *)

(** C3 (counterexample): a truthy geometry that is not a dict, here the
    list [[1]], makes [normalize_polygons] raise [AttributeError]. *)
Lemma normalize_polygons_raises_on_list :
  normalize_polygons (PList [PInt 1]) = Raise AttributeError.
Proof. reflexivity. Qed.

(** C3 (amended): on a falsy value or a dict, [normalize_polygons] never
    raises: it wraps the coordinates of a ["Polygon"] whose coordinates
    are a list, returns those of a ["MultiPolygon"] whose coordinates are
    a list, and returns [[]] otherwise; a truthy value that is not a dict
    raises [AttributeError]. *)
Theorem normalize_polygons_contract (geometry : pyval) :
  (truthy geometry = false → normalize_polygons geometry = Ok []) ∧
  (∀ kv, geometry = PDict kv → kv ≠ [] →
     (∀ cs, assoc_get "type" kv = Some (PStr "Polygon") →
            assoc_get "coordinates" kv = Some (PList cs) →
            normalize_polygons geometry = Ok [PList cs]) ∧
     (∀ cs, assoc_get "type" kv = Some (PStr "MultiPolygon") →
            assoc_get "coordinates" kv = Some (PList cs) →
            normalize_polygons geometry = Ok cs) ∧
     ((dict_get kv "type" ≠ PStr "Polygon" ∧ dict_get kv "type" ≠ PStr "MultiPolygon"
       ∨ is_list (dict_get kv "coordinates") = false) →
            normalize_polygons geometry = Ok [])) ∧
  ((truthy geometry = false ∨ is_dict geometry = true) →
     ∃ polygons, normalize_polygons geometry = Ok polygons) ∧
  (truthy geometry = true → is_dict geometry = false →
     normalize_polygons geometry = Raise AttributeError).
Proof.
  split; [|split; [|split]].
  - intros H. unfold normalize_polygons. rewrite H. reflexivity.
  - intros kv -> Hne.
    assert (Ht : truthy (PDict kv) = true).
    { simpl. destruct kv; [congruence|reflexivity]. }
    unfold normalize_polygons. rewrite Ht. simpl. split; [|split].
    + intros cs Hty Hco. unfold dict_get. rewrite Hty, Hco. reflexivity.
    + intros cs Hty Hco. unfold dict_get. rewrite Hty, Hco. reflexivity.
    + intros H.
      destruct (dict_get kv "type") as [| | | |s| |]; simpl; try reflexivity.
      destruct (dict_get kv "coordinates") eqn:Hc; simpl; try (rewrite !andb_false_r; reflexivity).
      destruct H as [[H1 H2]|H]; [|discriminate].
      destruct (String.eqb_spec s "Polygon"); [congruence|].
      destruct (String.eqb_spec s "MultiPolygon"); [congruence|]. reflexivity.
  - intros [H|H].
    + exists []. unfold normalize_polygons. rewrite H. reflexivity.
    + destruct geometry; try discriminate. unfold normalize_polygons.
      destruct (truthy _); simpl; [|eauto].
      destruct (_ && _); [eauto|]. destruct (_ && _); [|eauto].
      destruct (dict_get kv "coordinates"); eauto.
  - intros Ht Hd. unfold normalize_polygons. rewrite Ht.
    destruct geometry; try discriminate; reflexivity.
Qed.

(** C3 (amended), at concrete inputs. *)
Lemma normalize_polygons_contract_witness :
  normalize_polygons (PDict [("type", PStr "Polygon"); ("coordinates", PList [PList []])])
    = Ok [PList [PList []]] ∧
  normalize_polygons (PDict [("type", PStr "MultiPolygon"); ("coordinates", PList [PList []])])
    = Ok [PList []] ∧
  normalize_polygons (PDict [("type", PStr "Point"); ("coordinates", PList [PInt 1])]) = Ok [] ∧
  normalize_polygons (PStr "Polygon") = Raise AttributeError.
Proof.
  pose proof (normalize_polygons_contract
                (PDict [("type", PStr "Polygon"); ("coordinates", PList [PList []])])) as [_ [H1 _]].
  pose proof (normalize_polygons_contract
                (PDict [("type", PStr "MultiPolygon"); ("coordinates", PList [PList []])])) as [_ [H2 _]].
  pose proof (normalize_polygons_contract
                (PDict [("type", PStr "Point"); ("coordinates", PList [PInt 1])])) as [_ [H3 _]].
  pose proof (normalize_polygons_contract (PStr "Polygon")) as [_ [_ [_ H4]]].
  split; [|split; [|split]].
  - apply (proj1 (H1 _ eq_refl ltac:(discriminate))); reflexivity.
  - apply (proj1 (proj2 (H2 _ eq_refl ltac:(discriminate)))); reflexivity.
  - apply (proj2 (proj2 (H3 _ eq_refl ltac:(discriminate)))).
    left. split; discriminate.
  - apply H4; reflexivity.
Defined.

(* ------------------------------------------------------------------ *)
(** ** Edge Classifier *)

Section Classifier.

Lemma add_edge_lookup (me : gmap string (gset Edge)) muni e m :
  default ∅ (add_edge me muni e !! m) =
  if decide (muni = m) then {[e]} ∪ default ∅ (me !! muni) else default ∅ (me !! m).
Proof.
  unfold add_edge. rewrite lookup_insert. destruct (decide (muni = m)); reflexivity.
Qed.

Lemma fold_add_edge_elem (munis : list string) me e e' m :
  e ∈ default ∅ (fold_left (fun me muni => add_edge me muni e') munis me !! m) ↔
  e ∈ default ∅ (me !! m) ∨ (e = e' ∧ m ∈ munis).
Proof.
  revert me. induction munis as [|muni munis IH]; intros me; simpl.
  - set_solver.
  - rewrite IH, add_edge_lookup.
    destruct (decide (muni = m)) as [->|Hne]; set_solver.
Qed.

Lemma classify_edge_elem me (e' : Edge) counter e m :
  e ∈ default ∅ (classify_edge me (e', counter) !! m) ↔
  e ∈ default ∅ (me !! m) ∨ (e = e' ∧ classified_for m counter).
Proof.
  unfold classify_edge, classified_for.
  assert (Hdom : ∀ x, x ∈ map fst (map_to_list counter) ↔ x ∈ dom counter).
  { intros x. rewrite elem_of_dom, list_elem_of_fmap. split.
    - intros [[k v] [-> Hin]]. apply elem_of_map_to_list in Hin. simpl. eauto.
    - intros [v Hv]. exists (x, v). split; [done|]. by apply elem_of_map_to_list. }
  assert (Hlen : List.length (map fst (map_to_list counter)) = size counter).
  { rewrite length_map. apply length_map_to_list. }
  destruct (map fst (map_to_list counter)) as [|m1 [|m2 ms]] eqn:Hk.
  - rewrite fold_add_edge_elem. split.
    + intros [H|[H1 H2]]; [by left|]. set_solver.
    + intros [H|[H1 [H2 _]]]; [by left|]. apply Hdom in H2. set_solver.
  - simpl in Hlen.
    assert (Hm1 : ∀ x, x ∈ dom counter ↔ x = m1).
    { intros x. rewrite <- Hdom. set_solver. }
    destruct (Nat.eqb_spec (default 0%nat (counter !! m1)) 1) as [H1|H1].
    + rewrite add_edge_lookup. destruct (decide (m1 = m)) as [->|Hne].
      * assert (Hone : counter !! m = Some 1%nat).
        { destruct (counter !! m) eqn:Hc; simpl in H1; [by subst|].
          exfalso. apply not_elem_of_dom in Hc. apply Hc, Hm1. done. }
        split.
        -- intros Hin. apply elem_of_union in Hin as [Hin|Hin]; [|by left].
           apply elem_of_singleton in Hin. right. split; [done|].
           split; [by apply Hm1|by right].
        -- intros [Hin|[-> _]]; set_solver.
      * split; [tauto|]. intros [H|[_ [Hd _]]]; [done|]. apply Hm1 in Hd. congruence.
    + split; [tauto|]. intros [H|[-> [Hd [Hs|Hs]]]]; [done|lia|].
      apply Hm1 in Hd. subst. rewrite Hs in H1. simpl in H1. lia.
  - rewrite fold_add_edge_elem.
    split.
    + intros [H|[-> H2]]; [by left|]. right. split; [done|].
      split; [by apply Hdom|]. left. simpl in Hlen. lia.
    + intros [H|[-> [Hd _]]]; [by left|]. right. split; [done|]. by apply Hdom.
Qed.

Lemma classify_fold_elem (l : list (Edge * gmap string nat)) me e m :
  e ∈ default ∅ (fold_left classify_edge l me !! m) ↔
  e ∈ default ∅ (me !! m) ∨ (∃ counter, (e, counter) ∈ l ∧ classified_for m counter).
Proof.
  revert me. induction l as [|[e' c'] l IH]; intros me; cbn [fold_left].
  - split; [tauto|]. intros [H|[c [Hin _]]]; [done|]. set_solver.
  - rewrite IH, classify_edge_elem. split.
    + intros [[H|[-> Hc]]|[c [Hin Hc]]]; [tauto| |].
      * right. exists c'. split; [left|]; done.
      * right. exists c. split; [right|]; done.
    + intros [H|[c [Hin Hc]]]; [tauto|].
      apply elem_of_cons in Hin as [Heq|Hin].
      * injection Heq as -> ->. left. right. done.
      * right. eauto.
Qed.

(** The classifier, edge by edge: an edge is in [m]'s set exactly when
    [m] references it and either it has several owners or [m] owns it
    once. *)
Lemma classify_edges_elem (counts : edge_counts) e m :
  e ∈ default ∅ (classify_edges counts !! m) ↔
  ∃ counter, counts !! e = Some counter ∧ classified_for m counter.
Proof.
  unfold classify_edges. rewrite classify_fold_elem. rewrite lookup_empty. simpl.
  split.
  - intros [H|[c [Hin Hc]]]; [set_solver|]. apply elem_of_map_to_list in Hin. eauto.
  - intros [c [Hin Hc]]. right. exists c. split; [|done]. by apply elem_of_map_to_list.
Qed.

End Classifier.

(** C2: for every edge of the ownership map: with two or more distinct
    owners it is in the set of every owner; owned once by a single
    municipality it is in that municipality's set only; owned more than
    once by a single municipality it is in no set. *)
Theorem classify_edges_symmetry (counts : edge_counts) (edge : Edge)
    (counter : gmap string nat) :
  counts !! edge = Some counter →
  ((2 ≤ size counter)%nat →
     ∀ m, m ∈ dom counter → edge ∈ default ∅ (classify_edges counts !! m)) ∧
  (∀ a, counter = {[a := 1%nat]} →
     ∀ m, edge ∈ default ∅ (classify_edges counts !! m) ↔ m = a) ∧
  (∀ a k, (1 < k)%nat → counter = {[a := k]} →
     ∀ m, edge ∉ default ∅ (classify_edges counts !! m)).
Proof.
  intros Hc. split; [|split].
  - intros Hs m Hm. apply classify_edges_elem. exists counter.
    split; [done|]. split; [done|]. left. lia.
  - intros a -> m. rewrite classify_edges_elem. split.
    + intros [c [Hc' [Hd _]]]. rewrite Hc in Hc'. injection Hc' as <-.
      rewrite dom_singleton_L in Hd. set_solver.
    + intros ->. exists {[a := 1%nat]}. split; [done|].
      split; [rewrite dom_singleton_L; set_solver|]. right. by rewrite lookup_singleton_eq.
  - intros a k Hk -> m. rewrite classify_edges_elem.
    intros [c [Hc' [Hd Hs]]]. rewrite Hc in Hc'. injection Hc' as <-.
    rewrite dom_singleton_L in Hd. apply elem_of_singleton in Hd as ->.
    rewrite map_size_singleton in Hs. rewrite lookup_singleton_eq in Hs.
    destruct Hs as [Hs|Hs]; [lia|]. injection Hs. lia.
Qed.

(** C2, at an edge shared by ["A"] and ["B"]. *)
Lemma classify_edges_symmetry_witness :
  ({[((0,0),(1,0)) := {["A" := 1%nat; "B" := 1%nat]} ]} : edge_counts) !! ((0,0),(1,0))
    = Some {["A" := 1%nat; "B" := 1%nat]} ∧
  ((0,0),(1,0)) ∈ default ∅ (classify_edges
                    {[((0,0),(1,0)) := {["A" := 1%nat; "B" := 1%nat]} ]} !! "B").
Proof.
  assert (H : ({[((0,0),(1,0)) := {["A" := 1%nat; "B" := 1%nat]} ]} : edge_counts)
                !! ((0,0),(1,0)) = Some {["A" := 1%nat; "B" := 1%nat]}) by reflexivity.
  split; [exact H|].
  apply (proj1 (classify_edges_symmetry _ _ _ H)).
  - vm_compute. lia.
  - apply elem_of_dom. exists 1%nat. reflexivity.
Defined.

(* ------------------------------------------------------------------ *)
(** ** Line Merger: adjacency and walks *)

Lemma canonical_edge_comm (a b : Point) : canonical_edge a b = canonical_edge b a.
Proof.
  unfold canonical_edge.
  destruct (point_leb a b) eqn:Hab, (point_leb b a) eqn:Hba; try reflexivity.
  - pose proof (point_leb_antisym a b Hab Hba) as ->. reflexivity.
  - apply point_leb_total in Hab. congruence.
Qed.

Lemma adjacency_step_get (adj : gmap Point (gset Point)) (a b p pt : Point) :
  pt ∈ adj_get (let adj1 := <[a := {[b]} ∪ adj_get adj a]> adj in
                <[b := {[a]} ∪ adj_get adj1 b]> adj1) p ↔
  pt ∈ adj_get adj p ∨ (p = a ∧ pt = b) ∨ (p = b ∧ pt = a).
Proof.
  cbv zeta. unfold adj_get. rewrite !lookup_insert.
  destruct (decide (b = p)), (decide (a = b)), (decide (a = p)); subst; simpl;
    set_solver.
Qed.

Lemma adjacency_fold_get (l : list Edge) adj (p pt : Point) :
  pt ∈ adj_get (fold_left (fun adj (e : Edge) =>
    let '(a, b) := e in
    let adj1 := <[a := {[b]} ∪ adj_get adj a]> adj in
    <[b := {[a]} ∪ adj_get adj1 b]> adj1) l adj) p ↔
  pt ∈ adj_get adj p ∨ ∃ a b, (a, b) ∈ l ∧ ((p = a ∧ pt = b) ∨ (p = b ∧ pt = a)).
Proof.
  revert adj. induction l as [|[a b] l IH]; intros adj; cbn [fold_left].
  - split; [tauto|]. intros [H|(a & b & Hin & _)]; [done|]. set_solver.
  - rewrite IH, adjacency_step_get. split.
    + intros [[H|H]|(a' & b' & Hin & H)]; [tauto| |].
      * right. exists a, b. split; [left|]; done.
      * right. exists a', b'. split; [right|]; done.
    + intros [H|(a' & b' & Hin & H)]; [tauto|].
      apply elem_of_cons in Hin as [Heq|Hin].
      * injection Heq as -> ->. left. right. done.
      * right. eauto.
Qed.

(** Every adjacency of the merger's graph is an edge of the input, up to
    canonical form. *)
Lemma adjacency_canon (edges : gset Edge) (p pt : Point) :
  pt ∈ adj_get (build_adjacency (elements edges)) p →
  canonical_edge p pt ∈ canon_set edges.
Proof.
  unfold build_adjacency. rewrite adjacency_fold_get.
  intros [H|(a & b & Hin & Hp)].
  - unfold adj_get in H. rewrite lookup_empty in H. set_solver.
  - apply elem_of_elements in Hin. unfold canon_set. apply elem_of_map.
    exists (a, b). split; [|done]. simpl.
    destruct Hp as [[-> ->]|[-> ->]]; [reflexivity|apply canonical_edge_comm].
Qed.

Lemma map_to_list_adj_get (adj : gmap Point (gset Point)) node neighbors :
  (node, neighbors) ∈ map_to_list adj → adj_get adj node = neighbors.
Proof. intros H. apply elem_of_map_to_list in H. unfold adj_get. by rewrite H. Qed.

(** One iteration of the loop either stops where it is, or moves along an
    adjacency whose edge is not yet visited. *)
Lemma walk_step_cases adj start st r :
  walk_step adj start st = r →
  r = Break st ∨
  (∃ nx, nx ∈ adj_get adj (ws_current st) ∧
         (canonical_edge (ws_current st) nx ∉ ws_visited st) ∧
         (r = Break (advance st nx) ∨ r = Continue (advance st nx))).
Proof.
  unfold walk_step. intros <-.
  destruct (candidates _ _ _ _) as [|nx rest] eqn:Hc; [by left|].
  destruct (negb _); [by left|]. right. exists nx.
  assert (Hin : nx ∈ candidates adj (ws_visited st) (ws_prev st) (ws_current st))
    by (rewrite Hc; left).
  unfold candidates in Hin. apply list_elem_of_filter in Hin as [[_ Hv] Hin].
  apply elem_of_elements in Hin. split; [done|]. split; [done|].
  destruct (bool_decide _); [left|right]; reflexivity.
Qed.

(** Termination of one walk: every iteration that goes on marks an edge
    of [C] that was not visited, so [|C ∖ visited| + 1] iterations
    suffice. *)
Lemma walk_loop_ok (C : gset Edge) adj start fuel st :
  (∀ p pt, pt ∈ adj_get adj p → canonical_edge p pt ∈ C) →
  (size (C ∖ ws_visited st) < fuel)%nat →
  ∃ st', walk_loop fuel adj start st = Ok st'.
Proof.
  intros HC. revert st. induction fuel as [|fuel IH]; intros st Hf; [lia|].
  cbn [walk_loop].
  destruct (walk_step_cases adj start st _ eq_refl) as [->|(nx & Hadj & Hnv & [-> | ->])];
    [eauto|eauto|].
  apply IH. simpl.
  assert (C ∖ ({[canonical_edge (ws_current st) nx]} ∪ ws_visited st) ⊂ C ∖ ws_visited st).
  { pose proof (HC _ _ Hadj). set_solver. }
  pose proof (subset_size _ _ H). lia.
Qed.

Lemma size_set_map_le (f : Edge → Edge) (X : gset Edge) :
  (size (set_map (C:=gset Edge) (D:=gset Edge) f X) ≤ size X)%nat.
Proof.
  induction X as [|x X Hx IH] using set_ind_L.
  - rewrite set_map_empty, size_empty. done.
  - rewrite set_map_union_L, set_map_singleton_L.
    rewrite size_union_alt, (size_union {[x]} X) by set_solver.
    rewrite !size_singleton.
    pose proof (subseteq_size (set_map (D:=gset Edge) f X ∖ {[f x]})
                              (set_map (D:=gset Edge) f X) ltac:(set_solver)).
    lia.
Qed.

Lemma res_fold_ok {A S} (P : S → Prop) (f : S → A → res S) (l : list A) (s : S) :
  P s →
  (∀ s x, x ∈ l → P s → ∃ s', f s x = Ok s' ∧ P s') →
  ∃ s', res_fold f l s = Ok s' ∧ P s'.
Proof.
  revert s. induction l as [|x l IH]; intros s Hs Hf; simpl; [eauto|].
  destruct (Hf s x ltac:(left) Hs) as (s' & -> & Hs'). simpl.
  apply IH; [done|]. intros s0 y Hy. apply Hf. by right.
Qed.

Lemma walk_ok (edges : gset Edge) visited (start nxt : Point) :
  ∃ r, walk (S (size edges)) (build_adjacency (elements edges)) visited start nxt = Ok r.
Proof.
  unfold walk.
  destruct (walk_loop_ok (canon_set edges) (build_adjacency (elements edges)) start
              (S (size edges))
              {| ws_prev := start; ws_current := nxt; ws_path := [start; nxt];
                 ws_visited := {[canonical_edge start nxt]} ∪ visited |})
    as [st' ->].
  - intros p pt. apply adjacency_canon.
  - simpl. pose proof (size_set_map_le (fun e : Edge => canonical_edge e.1 e.2) edges).
    pose proof (subseteq_size (canon_set edges ∖ ({[canonical_edge start nxt]} ∪ visited))
                              (canon_set edges) ltac:(set_solver)).
    unfold canon_set in *. lia.
  - simpl. eauto.
Qed.

Lemma res_fold_total {A S} (f : S → A → res S) (l : list A) (s : S) :
  (∀ s x, x ∈ l → ∃ s', f s x = Ok s') → ∃ s', res_fold f l s = Ok s'.
Proof.
  intros Hf. destruct (res_fold_ok (fun _ => True) f l s I) as (s' & H & _); [|eauto].
  intros s0 x Hx _. destruct (Hf s0 x Hx) as [s' H]. eauto.
Qed.

Lemma merge_points_ok (edges : gset Edge) : ∃ lines, merge_points edges = Ok lines.
Proof.
  unfold merge_points. case_bool_decide; [eauto|].
  destruct (res_fold_total
              (fun s (kv : Point * gset Point) =>
                 let '(node, neighbors) := kv in
                 if Nat.eqb (size neighbors) 2 then Ok s
                 else res_fold (open_chain_from (S (size edges))
                                  (build_adjacency (elements edges)) node)
                        (elements neighbors) s)
              (map_to_list (build_adjacency (elements edges))) (∅, [])) as [s1 Hs1].
  { intros s [node neighbors] _. simpl.
    destruct (Nat.eqb _ _); [eauto|].
    apply res_fold_total. intros [visited lines] nb _. unfold open_chain_from.
    case_bool_decide; [eauto|].
    destruct (walk_ok edges visited node nb) as [r ->]. simpl. eauto. }
  unfold open_chains. rewrite Hs1. simpl.
  destruct (res_fold_total
              (fun (s : merge_state) (edge : Edge) =>
                 let '(visited, lines) := s in
                 if bool_decide (edge ∈ visited) then Ok s
                 else let? r := walk (S (size edges)) (build_adjacency (elements edges))
                                  visited edge.1 edge.2 in
                      Ok (r.2, lines ++ [r.1]))
              (elements edges) s1) as [s2 Hs2].
  { intros [visited lines] e _. case_bool_decide; [eauto|].
    destruct (walk_ok edges visited e.1 e.2) as [r ->]. simpl. eauto. }
  unfold closed_loops. rewrite Hs2. simpl. eauto.
Qed.

Lemma res_map_raise {A B} (f : A → res B) (l : list A) err :
  res_map f l = Raise err → ∃ x, x ∈ l ∧ f x = Raise err.
Proof.
  induction l as [|x l IH]; simpl; [discriminate|].
  destruct (f x) as [e|y] eqn:Hf; simpl.
  - intros [= ->]. exists x. split; [left|done].
  - destruct (res_map f l) as [e|ys] eqn:Hm; simpl; [|discriminate].
    intros [= ->]. destruct (IH eq_refl) as (z & Hz & Hfz). exists z. split; [by right|done].
Qed.

Lemma dequantize_point_raise (p : Point) err :
  dequantize_point p = Raise err → err = OverflowError.
Proof.
  unfold dequantize_point, int_truediv.
  destruct (is_infinite (round_ratio p.1 _)); simpl; [by intros [= <-]|].
  destruct (is_infinite (round_ratio p.2 _)); simpl; [by intros [= <-]|].
  discriminate.
Qed.

(** C9: the Line Merger terminates: every iteration of a walk either
    ends it where it stands or marks an edge that was not visited before
    (an edge of the input, so at most [|edges|] iterations go on); hence
    no walk exhausts its [|edges| + 1] iterations and the merger returns
    on every finite edge set, raising at most [OverflowError] from the
    dequantization of its points. *)
Theorem merge_edges_terminates (edges : gset Edge) :
  (∀ adj start st r, walk_step adj start st = r →
     r = Break st ∨
     ∃ e st', (r = Break st' ∨ r = Continue st') ∧
              (e ∉ ws_visited st) ∧ ws_visited st' = {[e]} ∪ ws_visited st) ∧
  (∀ p pt, pt ∈ adj_get (build_adjacency (elements edges)) p →
     canonical_edge p pt ∈ canon_set edges) ∧
  (∃ lines, merge_points edges = Ok lines) ∧
  (∀ err, merge_edges_to_lines edges = Raise err → err = OverflowError).
Proof.
  split; [|split; [|split]].
  - intros adj start st r Hr.
    destruct (walk_step_cases adj start st r Hr) as [->|(nx & _ & Hnv & Hr')]; [by left|].
    right. exists (canonical_edge (ws_current st) nx), (advance st nx).
    split; [done|]. split; [done|]. reflexivity.
  - apply adjacency_canon.
  - apply merge_points_ok.
  - intros err. unfold merge_edges_to_lines.
    destruct (merge_points_ok edges) as [lines ->]. simpl.
    intros Hm. apply res_map_raise in Hm as (line & _ & Hl).
    destruct (res_map dequantize_point line) eqn:Hd; simpl in Hl; [|discriminate].
    injection Hl as ->. apply res_map_raise in Hd as (p & _ & Hp).
    by apply dequantize_point_raise in Hp.
Qed.

(* ------------------------------------------------------------------ *)
(** ** Line Merger: the partition invariant *)

Lemma path_edges_cons2 (a b : Point) (t : list Point) :
  path_edges (a :: b :: t) = canonical_edge a b :: path_edges (b :: t).
Proof. reflexivity. Qed.

Lemma path_edges_snoc (l : list Point) (y x : Point) :
  path_edges ((l ++ [y]) ++ [x]) = path_edges (l ++ [y]) ++ [canonical_edge y x].
Proof.
  induction l as [|a l IH]; [reflexivity|].
  destruct l as [|b l]; [reflexivity|].
  change ((a :: b :: l) ++ [y]) with (a :: b :: (l ++ [y])).
  change (((a :: b :: l ++ [y]) ++ [x])) with (a :: b :: ((l ++ [y]) ++ [x])).
  rewrite !path_edges_cons2. simpl in IH. rewrite IH. reflexivity.
Qed.

Lemma length_path_edges (path : list Point) :
  List.length (path_edges path) = (List.length path - 1)%nat.
Proof.
  induction path as [|a [|b t] IH]; [reflexivity|reflexivity|].
  rewrite path_edges_cons2. simpl in *. rewrite IH. lia.
Qed.

Section Partition.

Context (C : gset Edge) (adj : gmap Point (gset Point)).
Hypothesis adj_in_C : ∀ p pt, pt ∈ adj_get adj p → canonical_edge p pt ∈ C.

Lemma walk_inv_advance V0 e0 st nx :
  walk_inv C V0 e0 st →
  nx ∈ adj_get adj (ws_current st) →
  canonical_edge (ws_current st) nx ∉ ws_visited st →
  walk_inv C V0 e0 (advance st nx).
Proof.
  intros (Hl & Hlen & He0 & Hnd & Hall & Hv) Hadj Hnv.
  destruct Hl as [l Hl]. unfold advance, walk_inv; simpl.
  assert (Hpe : path_edges (ws_path st ++ [nx]) =
                path_edges (ws_path st) ++ [canonical_edge (ws_current st) nx]).
  { rewrite Hl. apply path_edges_snoc. }
  rewrite Hpe. rewrite Hv in Hnv.
  split; [eauto|]. split; [rewrite length_app; lia|].
  split; [set_solver|]. split.
  { apply NoDup_app. split; [done|]. split; [|apply NoDup_singleton].
    intros x Hx ->%list_elem_of_singleton. apply Hnv. set_solver. }
  split.
  { intros e [He| ->%list_elem_of_singleton]%elem_of_app; [by apply Hall|].
    split; [set_solver|]. by apply adj_in_C. }
  rewrite Hv, list_to_set_app_L. set_solver.
Qed.

Lemma walk_loop_inv V0 e0 start (fuel : nat) st st' :
  walk_inv C V0 e0 st → walk_loop fuel adj start st = Ok st' → walk_inv C V0 e0 st'.
Proof.
  revert st. induction fuel as [|fuel IH]; intros st Hinv; cbn [walk_loop]; [discriminate|].
  destruct (walk_step_cases adj start st _ eq_refl) as [Hs|(nx & Hadj & Hnv & [Hs|Hs])];
    rewrite Hs.
  - by intros [= <-].
  - intros [= <-]. by apply walk_inv_advance.
  - apply IH. by apply walk_inv_advance.
Qed.

(** A walk whose first edge is new returns a path of at least two points
    whose edges are distinct, new, in [C], and now visited. *)
Lemma walk_spec (fuel : nat) (V0 : gset Edge) (start nxt : Point) path V :
  canonical_edge start nxt ∉ V0 → canonical_edge start nxt ∈ C →
  walk fuel adj V0 start nxt = Ok (path, V) →
  (2 ≤ List.length path)%nat ∧ canonical_edge start nxt ∈ path_edges path ∧
  NoDup (path_edges path) ∧ (∀ e, e ∈ path_edges path → (e ∉ V0) ∧ e ∈ C) ∧
  V = list_to_set (path_edges path) ∪ V0.
Proof.
  intros Hn HC. unfold walk.
  destruct (walk_loop fuel adj start _) as [err|st'] eqn:Hw; simpl; [discriminate|].
  intros [= <- <-].
  assert (Hinv : walk_inv C V0 (canonical_edge start nxt)
                   {| ws_prev := start; ws_current := nxt; ws_path := [start; nxt];
                      ws_visited := {[canonical_edge start nxt]} ∪ V0 |}).
  { unfold walk_inv; simpl. split; [exists [start]; reflexivity|].
    split; [lia|]. split; [left|]. split; [apply NoDup_singleton|].
    split; [intros e ->%list_elem_of_singleton; done|]. set_solver. }
  destruct (walk_loop_inv _ _ _ _ _ _ Hinv Hw) as (_ & Hlen & He0 & Hnd & Hall & Hv).
  auto.
Qed.

Lemma merge_inv_add (fuel : nat) (s : merge_state) (start nxt : Point) r :
  merge_inv C s → canonical_edge start nxt ∉ s.1 → canonical_edge start nxt ∈ C →
  walk fuel adj s.1 start nxt = Ok r →
  merge_inv C (r.2, s.2 ++ [r.1]) ∧ canonical_edge start nxt ∈ r.2 ∧ s.1 ⊆ r.2.
Proof.
  destruct s as [visited lines], r as [path V]. simpl.
  intros (Hnd & HinC & Hv & Hlen) Hn HC Hw.
  destruct (walk_spec _ _ _ _ _ _ Hn HC Hw) as (Hl2 & He0 & Hnd' & Hall & HV).
  unfold merge_inv, lines_edges in *; simpl in *.
  rewrite map_app, concat_app. simpl. rewrite app_nil_r.
  split; [|split; set_solver].
  split.
  { apply NoDup_app. split; [done|]. split; [|done].
    intros x Hx Hx'. apply (Hall x Hx'). rewrite Hv. by apply elem_of_list_to_set. }
  split; [intros e [He|He]%elem_of_app; [by apply HinC|by apply Hall]|].
  split; [rewrite HV, Hv, list_to_set_app_L; set_solver|].
  apply Forall_app. split; [done|]. by apply Forall_singleton.
Qed.

End Partition.

Lemma res_fold_inv {A S} (P : S → Prop) (f : S → A → res S) (l : list A) (s s' : S) :
  P s →
  (∀ s x s', x ∈ l → P s → f s x = Ok s' → P s') →
  res_fold f l s = Ok s' → P s'.
Proof.
  revert s. induction l as [|x l IH]; intros s Hs Hf; simpl; [by intros [= <-]|].
  destruct (f s x) as [e|s1] eqn:Hx; simpl; [discriminate|].
  apply IH; [apply (Hf s x); [left|..]; done|].
  intros s0 y s0' Hy. apply Hf. by right.
Qed.

Lemma canon_set_canonical (E : gset Edge) : all_canonical E → canon_set E = E.
Proof.
  intros Hc. apply set_eq. intros e. unfold canon_set. rewrite elem_of_map.
  split.
  - intros (y & -> & Hy). by rewrite (Hc y Hy).
  - intros He. exists e. by rewrite (Hc e He).
Qed.

Lemma closed_loops_spec (C : gset Edge) (adj : gmap Point (gset Point)) (fuel : nat) (l : list Edge) (s s' : merge_state) :
  (∀ p pt, pt ∈ adj_get adj p → canonical_edge p pt ∈ C) →
  (∀ e, e ∈ l → canonical_edge e.1 e.2 = e ∧ e ∈ C) →
  merge_inv C s → closed_loops fuel adj l s = Ok s' →
  merge_inv C s' ∧ s.1 ⊆ s'.1 ∧ ∀ e, e ∈ l → e ∈ s'.1.
Proof.
  intros Hadj. unfold closed_loops. revert s.
  induction l as [|e l IH]; intros s Hl Hs; simpl.
  - intros [= <-]. set_solver.
  - destruct (Hl e (list_elem_of_here _ _)) as [Hce HeC].
    destruct s as [visited lines] eqn:Heqs.
    case_bool_decide as Hv.
    + intros Hf. destruct (IH (visited, lines)) as (H1 & H2 & H3); auto.
      { intros x Hx. apply Hl. by right. }
      split; [done|]. split; [done|]. intros x [-> | Hx]%elem_of_cons; [set_solver|auto].
    + destruct (walk fuel adj visited e.1 e.2) as [err|r] eqn:Hw; simpl; [discriminate|].
      intros Hf.
      destruct (merge_inv_add C adj Hadj fuel (visited, lines) e.1 e.2 r)
        as (Hi & Hin & Hsub); simpl; [done|by rewrite Hce|by rewrite Hce|done|].
      destruct (IH (r.2, lines ++ [r.1])) as (H1 & H2 & H3); auto.
      { intros x Hx. apply Hl. by right. }
      rewrite Hce in Hin. simpl in *.
      split; [done|]. split; [set_solver|].
      intros x [-> | Hx]%elem_of_cons; [set_solver|auto].
Qed.

Lemma open_chains_inv (C : gset Edge) (adj : gmap Point (gset Point)) (fuel : nat) (s s' : merge_state) :
  (∀ p pt, pt ∈ adj_get adj p → canonical_edge p pt ∈ C) →
  merge_inv C s → open_chains fuel adj s = Ok s' → merge_inv C s'.
Proof.
  intros Hadj Hs. unfold open_chains.
  apply (res_fold_inv (merge_inv C)); [done|].
  intros s0 [node neighbors] s0' Hkv Hs0.
  destruct (Nat.eqb (size neighbors) 2); [by intros [= <-]|].
  apply (res_fold_inv (merge_inv C)); [done|].
  intros s1 nb s1' Hnb Hs1. destruct s1 as [visited lines]. unfold open_chain_from.
  case_bool_decide as Hv; [by intros [= <-]|].
  destruct (walk fuel adj visited node nb) as [err|r] eqn:Hw; simpl; [discriminate|].
  intros [= <-].
  assert (HnbC : canonical_edge node nb ∈ C).
  { apply Hadj. rewrite (map_to_list_adj_get _ _ _ Hkv). by apply elem_of_elements. }
  by destruct (merge_inv_add C adj Hadj fuel (visited, lines) node nb r Hs1 Hv HnbC Hw).
Qed.

(** The polylines of the merger partition a set of canonical edges: every
    edge lies on exactly one polyline, once, and no other edge does. *)
Lemma merge_points_partition (E : gset Edge) (lines : list (list Point)) :
  all_canonical E → merge_points E = Ok lines →
  NoDup (lines_edges lines) ∧ list_to_set (lines_edges lines) = E ∧
  Forall (fun l => 2 ≤ List.length l)%nat lines.
Proof.
  intros Hc. unfold merge_points. case_bool_decide as HE.
  { intros [= <-]. subst E. split; [constructor|]. split; [reflexivity|constructor]. }
  set (adj := build_adjacency (elements E)).
  assert (Hadj : ∀ p pt, pt ∈ adj_get adj p → canonical_edge p pt ∈ E).
  { intros p pt H. rewrite <- (canon_set_canonical E Hc). by apply adjacency_canon. }
  destruct (open_chains _ adj (∅, [])) as [err|s1] eqn:H1; simpl; [discriminate|].
  destruct (closed_loops _ adj (elements E) s1) as [err|s2] eqn:H2; simpl; [discriminate|].
  intros [= <-].
  assert (Hi1 : merge_inv E s1).
  { refine (open_chains_inv E adj _ _ _ Hadj _ H1).
    unfold merge_inv; simpl. split; [constructor|]. split; [set_solver|].
    split; [reflexivity|constructor]. }
  destruct (closed_loops_spec E adj (S (size E)) (elements E) s1 s2 Hadj) as ((Hnd & HinC & Hv & Hlen) & _ & Hcov);
    [intros e He%elem_of_elements; split; [by apply Hc|done]|done|done|].
  split; [done|]. split; [|done].
  apply set_eq. intros e. rewrite <- Hv. split.
  - intros He. apply HinC. rewrite Hv in He. by apply elem_of_list_to_set in He.
  - intros He. apply Hcov. by apply elem_of_elements.
Qed.

(* ------------------------------------------------------------------ *)
(** ** Error of the float arithmetic

    SpecFloat's rounding, division and multiplication err by less than a
    few units in the last place; [round] lands within one half. *)

Section Float_error.
Local Open Scope Q_scope.
Lemma bpow_plus a b : bpow (a + b) == bpow a * bpow b.
Proof. unfold bpow. apply Qpower_plus. discriminate. Qed.

Lemma bpow_pos e : 0 < bpow e.
Proof. apply Qpower_0_lt. reflexivity. Qed.

Lemma bpow_Z k : (0 <= k)%Z -> bpow k == inject_Z (2 ^ k).
Proof. intros Hk. unfold bpow. rewrite Zpower_Qpower by done. reflexivity. Qed.

Lemma bpow_le a b : (a <= b)%Z -> bpow a <= bpow b.
Proof. intros H. apply Qpower_le_compat_l; [done|discriminate]. Qed.

Lemma bpow_lt_inv a b : bpow a < bpow b -> (a < b)%Z.
Proof.
  intros H. destruct (Z.lt_ge_cases a b) as [|Hba]; [done|].
  apply bpow_le in Hba. lra.
Qed.

Lemma Fval_le m1 m2 e : (m1 <= m2)%Z -> Fval m1 e <= Fval m2 e.
Proof.
  intros H. unfold Fval. apply Qmult_le_r; [apply bpow_pos|]. by rewrite <- Zle_Qle.
Qed.

Lemma Fval_plus m1 m2 e : Fval (m1 + m2) e == Fval m1 e + Fval m2 e.
Proof. unfold Fval. rewrite inject_Z_plus. ring. Qed.

Lemma Fval_one e : Fval 1 e == bpow e.
Proof. unfold Fval. simpl. ring. Qed.

Lemma Fval_shift m e k : (0 <= k)%Z -> Fval (m * 2 ^ k) e == Fval m (e + k).
Proof.
  intros Hk. unfold Fval. rewrite inject_Z_mult, bpow_plus, (bpow_Z k) by done. ring.
Qed.

(** Digits of a positive mantissa. *)
Lemma digits2_pos_bounds p :
  (2 ^ (Zpos (digits2_pos p) - 1) <= Zpos p < 2 ^ Zpos (digits2_pos p))%Z.
Proof.
  induction p as [p IH|p IH|]; simpl digits2_pos; [| |simpl; lia];
    rewrite Pos2Z.inj_succ; replace (Z.succ (Zpos (digits2_pos p)) - 1)%Z with (Zpos (digits2_pos p)) by lia;
    rewrite Z.pow_succ_r by lia;
    replace (Zpos (digits2_pos p)) with (Zpos (digits2_pos p) - 1 + 1)%Z at 1 by lia;
    rewrite Z.pow_add_r, Z.pow_1_r by lia; lia.
Qed.

Local Open Scope Z_scope.

Lemma shr_1_m mrs : 0 <= shr_m mrs -> shr_m (shr_1 mrs) = shr_m mrs / 2.
Proof.
  destruct mrs as [m r s]; simpl. intros Hm.
  destruct m as [|[p|p|]|p]; simpl; try lia; try reflexivity.
  - apply Z.div_unique with 1; lia.
  - apply Z.div_unique with 0; lia.
Qed.

Lemma iter_shr_1_m p mrs :
  0 <= shr_m mrs -> shr_m (SpecFloat.iter_pos shr_1 p mrs) = shr_m mrs / 2 ^ Zpos p.
Proof.
  revert mrs. induction p as [p IH|p IH|]; intros mrs Hm; simpl SpecFloat.iter_pos.
  - assert (H1 : 0 <= shr_m (shr_1 mrs)) by (rewrite shr_1_m; [apply Z.div_pos|]; lia).
    assert (H2 : 0 <= shr_m (SpecFloat.iter_pos shr_1 p (shr_1 mrs)))
      by (rewrite IH; [apply Z.div_pos|]; lia).
    rewrite IH, IH, shr_1_m by lia.
    rewrite !Z.div_div by lia. f_equal.
    replace (Zpos p~1) with (1 + Zpos p + Zpos p) by lia.
    rewrite !Z.pow_add_r, Z.pow_1_r by lia. lia.
  - assert (H2 : 0 <= shr_m (SpecFloat.iter_pos shr_1 p mrs))
      by (rewrite IH; [apply Z.div_pos|]; lia).
    rewrite IH, IH by lia. rewrite Z.div_div by lia. f_equal.
    replace (Zpos p~0) with (Zpos p + Zpos p) by lia.
    rewrite !Z.pow_add_r by lia. lia.
  - rewrite shr_1_m by lia. reflexivity.
Qed.

Lemma shr_fexp_spec m e l :
  0 <= m ->
  let k := Z.max 0 (fexp prec emax (Zdigits2 m + e) - e) in
  shr_m (fst (shr_fexp prec emax m e l)) = m / 2 ^ k ∧
  snd (shr_fexp prec emax m e l) = e + k ∧
  (k = 0 -> fst (shr_fexp prec emax m e l) = shr_record_of_loc m l).
Proof.
  intros Hm k. unfold shr_fexp, shr.
  assert (Hr : shr_m (shr_record_of_loc m l) = m) by (destruct l as [|[]]; reflexivity).
  destruct (fexp prec emax (Zdigits2 m + e) - e) as [|p|p] eqn:Hd; subst k; simpl.
  - rewrite Hr, Z.div_1_r. split; [done|]. split; [lia|done].
  - rewrite iter_shr_1_m by lia. rewrite Hr. split; [done|]. split; [lia|lia].
  - rewrite Hr, Z.div_1_r. split; [done|]. split; [lia|done].
Qed.

Lemma loc_of_shr_record_of_loc m l : loc_of_shr_record (shr_record_of_loc m l) = l.
Proof. by destruct l as [|[]]. Qed.

Lemma round_nearest_even_cases m l :
  round_nearest_even m l = m ∨ round_nearest_even m l = m + 1.
Proof. destruct l as [|[]]; simpl; try destruct (Z.even m); auto. Qed.

Lemma round_nearest_even_exact m : round_nearest_even m loc_Exact = m.
Proof. reflexivity. Qed.

Lemma shift_interval (m e k : Z) (x : Q) :
  0 <= m -> 0 <= k -> (Fval m e <= x <= Fval (m + 1) e)%Q ->
  (Fval (m / 2 ^ k) (e + k) <= x <= Fval (m / 2 ^ k + 1) (e + k))%Q.
Proof.
  intros Hm Hk [Hlo Hhi].
  rewrite <- !Fval_shift by done.
  assert (Hp : 0 < 2 ^ k) by (apply Z.pow_pos_nonneg; lia).
  pose proof (Z.div_mod m (2 ^ k) ltac:(lia)) as Hd.
  pose proof (Z.mod_pos_bound m (2 ^ k) Hp) as Hb.
  split.
  - eapply Qle_trans; [|exact Hlo]. apply Fval_le. lia.
  - eapply Qle_trans; [exact Hhi|]. apply Fval_le. lia.
Qed.

Lemma interval_err (x : Q) (a m e : Z) :
  (Fval m e <= x <= Fval (m + 1) e)%Q -> (a = m ∨ a = m + 1) ->
  (Qabs (x - Fval a e) <= bpow e)%Q.
Proof.
  intros [Hlo Hhi] Ha. apply Qabs_Qle_condition.
  pose proof (Fval_plus m 1 e) as Hp. rewrite Fval_one in Hp.
  destruct Ha as [->| ->]; [lra|]. lra.
Qed.

Lemma digits_le (m e K : Z) (x : Q) :
  0 < m -> (Fval m e <= x)%Q -> (x < bpow K)%Q -> Zdigits2 m + e <= K.
Proof.
  intros Hm Hx HK. destruct m as [|p|p]; try lia. simpl Zdigits2.
  pose proof (digits2_pos_bounds p) as [Hd _].
  apply (Fval_le _ _ e) in Hd.
  rewrite <- (Z.mul_1_l (2 ^ _)), Fval_shift, Fval_one in Hd by lia.
  assert (H : (bpow (e + (Zpos (digits2_pos p) - 1)) < bpow K)%Q) by lra.
  apply bpow_lt_inv in H. lia.
Qed.

Lemma Fval_nonneg m e : 0 <= m -> (0 <= Fval m e)%Q.
Proof.
  intros Hm. unfold Fval. apply Qmult_le_0_compat; [|apply Qlt_le_weak, bpow_pos].
  change 0%Q with (inject_Z 0). by rewrite <- Zle_Qle.
Qed.

Lemma bpow_succ e : (bpow (e + 1) == 2 * bpow e)%Q.
Proof. rewrite bpow_plus. unfold bpow at 2. simpl. ring. Qed.

Lemma fexp_max D : fexp prec emax D = Z.max (D - prec) (emin prec emax).
Proof. reflexivity. Qed.

Lemma fval_round_result sx (m2 : Z) e2 :
  0 <= m2 -> e2 <= emax - prec ->
  let r := match m2 with
           | 0 => S754_zero sx
           | Zpos m => if e2 <=? emax - prec then S754_finite sx m e2 else S754_infinity sx
           | Zneg _ => S754_nan
           end in
  fin_float r = true ∧ (fval r == if sx then - Fval m2 e2 else Fval m2 e2)%Q.
Proof.
  intros Hm He r. subst r. destruct m2 as [|p|p]; try lia.
  - unfold Fval. simpl. split; [done|]. destruct sx; ring.
  - rewrite (proj2 (Z.leb_le _ _) He). simpl. split; [done|]. destruct sx; reflexivity.
Qed.

(** Rounding [x], known to lie in [[m 2^e, (m+1) 2^e]] (exactly [m 2^e]
    when the location is exact) and below [2^K], errs by at most
    [3 * 2^(K - prec)]. *)
Lemma round_aux_error sx (m e : Z) l (x : Q) (K : Z) :
  0 < m -> (Fval m e <= x <= Fval (m + 1) e)%Q ->
  (l = loc_Exact -> x == Fval m e)%Q ->
  (l = loc_Exact ∨ e <= K - prec) ->
  (x < bpow K)%Q -> emin prec emax <= K - prec -> K <= emax - prec ->
  fin_float (binary_round_aux prec emax sx m e l) = true ∧
  (Qabs (fval (binary_round_aux prec emax sx m e l) - (if sx then - x else x))
     <= 3 * bpow (K - prec))%Q.
Proof.
  intros Hm Hx Hex Hl HK Hemin Hemax.
  assert (Hdig : Zdigits2 m + e <= K) by (eapply digits_le; [done|apply Hx|done]).
  unfold binary_round_aux.
  destruct (shr_fexp_spec m e l ltac:(lia)) as (Hm1 & He1 & Hk1).
  destruct (shr_fexp prec emax m e l) as [mrs1 e1] eqn:Hs1. simpl in Hm1, He1, Hk1.
  set (k1 := Z.max 0 (fexp prec emax (Zdigits2 m + e) - e)) in *.
  assert (Hk1p : 0 <= k1) by lia.
  assert (Hm1p : 0 <= shr_m mrs1) by (rewrite Hm1; apply Z.div_pos; [lia|apply Z.pow_pos_nonneg; lia]).
  assert (Hx1 : (Fval (shr_m mrs1) e1 <= x <= Fval (shr_m mrs1 + 1) e1)%Q)
    by (rewrite Hm1, He1; apply shift_interval; [lia|lia|done]).
  set (a := round_nearest_even (shr_m mrs1) (loc_of_shr_record mrs1)).
  assert (Ha : a = shr_m mrs1 ∨ a = shr_m mrs1 + 1) by apply round_nearest_even_cases.
  assert (Ha0 : 0 <= a) by lia.
  destruct (shr_fexp_spec a e1 loc_Exact Ha0) as (Hm2 & He2 & Hk2).
  fold a. destruct (shr_fexp prec emax a e1 loc_Exact) as [mrs2 e2] eqn:Hs2.
  simpl in Hm2, He2, Hk2.
  set (k2 := Z.max 0 (fexp prec emax (Zdigits2 a + e1) - e1)) in *.
  assert (Hm2p : 0 <= shr_m mrs2) by (rewrite Hm2; apply Z.div_pos; [lia|apply Z.pow_pos_nonneg; lia]).
  destruct (decide (k1 = 0 ∧ l = loc_Exact)) as [[Hk10 ->]|Hcase].
  - (* exact and already representable: no rounding at all *)
    specialize (Hk1 Hk10). rewrite Hk1 in Ha, Hm1. simpl in Ha, Hm1.
    assert (Ham : a = m) by (subst a; rewrite Hk1; reflexivity).
    assert (He1e : e1 = e) by lia.
    assert (Hk20 : k2 = 0) by (subst k2 k1; rewrite Ham, He1e; lia).
    rewrite (Hk2 Hk20). cbn [shr_m].
    assert (He2e : e2 = e) by lia.
    assert (He : e <= emax - prec).
    { assert (Hb : (bpow e < bpow K)%Q).
      { eapply Qle_lt_trans; [|exact HK]. rewrite <- Fval_one.
        eapply Qle_trans; [apply Fval_le; instantiate (1 := m); lia|apply Hx]. }
      apply bpow_lt_inv in Hb. lia. }
    destruct (fval_round_result sx m e2 ltac:(lia) ltac:(lia)) as [Hf Hv].
    rewrite Ham. split; [done|]. rewrite Hv, He2e. pose proof (Hex eq_refl) as Hxe.
    assert (H3 : (0 <= 3 * bpow (K - prec))%Q)
      by (apply Qmult_le_0_compat; [discriminate|apply Qlt_le_weak, bpow_pos]).
    destruct sx; (rewrite Qabs_Qle_condition; lra).
  - (* the first rounding errs by at most 2^(K - prec) *)
    assert (He1K : e1 <= K - prec).
    { destruct (Z.eq_dec k1 0) as [Hk10|Hk10].
      - destruct Hl as [Hl|Hl]; [tauto|lia].
      - assert (Hf : fexp prec emax (Zdigits2 m + e) <= K - prec)
          by (rewrite fexp_max; lia).
        subst k1. lia. }
    assert (Herr1 : (Qabs (x - Fval a e1) <= bpow (K - prec))%Q).
    { eapply Qle_trans; [apply (interval_err x a (shr_m mrs1) e1 Hx1 Ha)|].
      by apply bpow_le. }
    (* the second rounding errs by at most 2^(K + 1 - prec) *)
    assert (Hax : (Fval a e1 < bpow (K + 1))%Q).
    { rewrite bpow_succ. pose proof (bpow_le (K - prec) K ltac:(unfold prec; lia)).
      apply Qabs_Qle_condition in Herr1. lra. }
    assert (He2K : e2 <= K + 1 - prec).
    { destruct (Z.eq_dec a 0) as [Ha00|Ha00].
      - subst k2. rewrite Ha00 in *. simpl Zdigits2 in *. rewrite ?fexp_max in *. unfold prec in *. lia.
      - assert (Hd2 : Zdigits2 a + e1 <= K + 1)
          by (eapply digits_le; [lia|apply Qle_refl|exact Hax]).
        subst k2. rewrite ?fexp_max in *. unfold prec in *. lia. }
    assert (Hx2 : (Fval (shr_m mrs2) e2 <= Fval a e1 <= Fval (shr_m mrs2 + 1) e2)%Q).
    { rewrite Hm2, He2. apply shift_interval; [lia|lia|].
      split; [apply Qle_refl|apply Fval_le; lia]. }
    assert (Herr2 : (Qabs (Fval a e1 - Fval (shr_m mrs2) e2) <= bpow (K + 1 - prec))%Q).
    { eapply Qle_trans; [apply (interval_err _ _ (shr_m mrs2) e2 Hx2); by left|].
      by apply bpow_le. }
    destruct (fval_round_result sx (shr_m mrs2) e2 Hm2p ltac:(unfold prec, emax in *; lia))
      as [Hf Hv].
    split; [done|]. rewrite Hv.
    replace (K + 1 - prec) with (K - prec + 1) in Herr2 by lia.
    rewrite bpow_succ in Herr2.
    apply Qabs_Qle_condition in Herr1, Herr2.
    destruct sx; (rewrite Qabs_Qle_condition; lra).
Qed.

Lemma new_location_exact (n r : Z) : new_location n r = loc_Exact -> r = 0.
Proof.
  unfold new_location, new_location_even, new_location_odd.
  destruct (Z.even n), (Z.eqb_spec r 0); (done || discriminate).
Qed.

Lemma inject_Z_pos_lt (a : Z) : 0 < a -> (0 < inject_Z a)%Q.
Proof. intros H. change 0%Q with (inject_Z 0). by rewrite <- Zlt_Qlt. Qed.

(** [SFdiv_core_binary] on [m / d]: a positive quotient [q] at exponent [e]
    with [q 2^e <= m/d < (q+1) 2^e], exact when the location is. *)
Lemma div_core_spec (m d : positive) :
  Zdigits2 (Zpos d) <= 1074 ->
  let x := (inject_Z (Zpos m) / inject_Z (Zpos d))%Q in
  let '(q, e, l) := SFdiv_core_binary prec emax (Zpos m) 0 (Zpos d) 0 in
  0 < q ∧ e <= fexp prec emax (Zdigits2 (Zpos m) - Zdigits2 (Zpos d)) ∧
  (Fval q e <= x <= Fval (q + 1) e)%Q ∧ (l = loc_Exact -> x == Fval q e)%Q.
Proof.
  intros Hd2 x. unfold SFdiv_core_binary.
  set (d1 := Zdigits2 (Zpos m)). set (d2 := Zdigits2 (Zpos d)).
  set (e' := Z.min _ _).
  assert (He' : e' = Z.min (fexp prec emax (d1 - d2)) 0) by reflexivity.
  set (s := Z.sub (Z.sub 0 0) e').
  assert (Hs : s = - e') by reflexivity.
  assert (Hs0 : 0 <= s) by lia.
  assert (Hm' : match s with Zpos _ => Z.shiftl (Zpos m) s | Z0 => Zpos m | Zneg _ => 0 end
                = Zpos m * 2 ^ s).
  { destruct s as [|p|p] eqn:Hse; [lia| |lia]. by rewrite Z.shiftl_mul_pow2. }
  rewrite Hm'.
  pose proof (Z_div_mod (Zpos m * 2 ^ s) (Zpos d) ltac:(lia)) as Hdm.
  destruct (Z.div_eucl (Zpos m * 2 ^ s) (Zpos d)) as [q r]. destruct Hdm as [Hqr Hr].
  pose proof (digits2_pos_bounds m) as Hmb. pose proof (digits2_pos_bounds d) as Hdb.
  change (Zpos (digits2_pos m)) with d1 in Hmb. change (Zpos (digits2_pos d)) with d2 in Hdb.
  assert (Hps : 0 < 2 ^ s) by (apply Z.pow_pos_nonneg; lia).
  assert (Hd1p : 0 < d1) by (unfold d1; simpl; lia).
  (* the scaled numerator reaches the divisor *)
  assert (Hge : Zpos d <= Zpos m * 2 ^ s).
  { assert (Hsd : d2 - d1 + 1 <= s).
    { rewrite Hs, He', fexp_max. unfold prec, emin, emax in *. lia. }
    destruct (Z.le_gt_cases 0 (d2 - d1 + 1)) as [Hneg|Hneg].
    2:{ assert (H2 : 2 ^ d2 <= 2 ^ (d1 - 1)) by (apply Z.pow_le_mono_r; lia). nia. }
    assert (H1 : 2 ^ (d1 - 1) * 2 ^ (d2 - d1 + 1) <= Zpos m * 2 ^ s).
    { apply Z.mul_le_mono_nonneg; [apply Z.pow_nonneg; lia|lia|apply Z.pow_nonneg; lia|].
      apply Z.pow_le_mono_r; lia. }
    rewrite <- Z.pow_add_r in H1 by lia.
    replace (d1 - 1 + (d2 - d1 + 1)) with d2 in H1 by lia. lia. }
  assert (Hq : 0 < q).
  { destruct (Z.lt_ge_cases 0 q) as [|Hq]; [done|]. nia. }
  (* the quotient in Q *)
  assert (Hd0 : (0 < inject_Z (Zpos d))%Q) by (apply inject_Z_pos_lt; lia).
  assert (Hxd : (x * inject_Z (Zpos d) == inject_Z (Zpos m))%Q)
    by (unfold x; field; lra).
  assert (Hsc : (bpow e' * inject_Z (2 ^ s) == 1)%Q).
  { rewrite <- bpow_Z by done. rewrite <- bpow_plus. rewrite Hs.
    replace (e' + - e') with 0 by lia. reflexivity. }
  set (c := (inject_Z (Zpos d) * inject_Z (2 ^ s))%Q).
  assert (Hc : (0 < c)%Q) by (apply Qmult_lt_0_compat; [done|apply inject_Z_pos_lt; lia]).
  assert (Hxc : (x * c == inject_Z (Zpos m * 2 ^ s))%Q)
    by (unfold c; rewrite inject_Z_mult, <- Hxd; ring).
  assert (HFc : forall z, (Fval z e' * c == inject_Z (z * Zpos d))%Q).
  { intros z. unfold c, Fval. rewrite inject_Z_mult.
    transitivity (inject_Z z * inject_Z (Zpos d) * (bpow e' * inject_Z (2 ^ s)))%Q; [ring|].
    rewrite Hsc. ring. }
  split; [done|]. split; [rewrite He'; lia|]. split; [split|].
  - apply (Qmult_le_r _ _ c Hc). rewrite Hxc, HFc. rewrite <- Zle_Qle. lia.
  - apply (Qmult_le_r _ _ c Hc). rewrite Hxc, HFc. rewrite <- Zle_Qle. lia.
  - intros Hl. apply new_location_exact in Hl. subst r.
    apply (Qmult_inj_r _ _ c); [intros H; rewrite H in Hc; discriminate|].
    rewrite Hxc, HFc, Hqr. replace (Zpos d * q + 0) with (q * Zpos d) by ring. reflexivity.
Qed.

Lemma ratio_lower (m d : positive) :
  (bpow (Zdigits2 (Zpos m) - 1 - Zdigits2 (Zpos d)) <= inject_Z (Zpos m) / inject_Z (Zpos d))%Q.
Proof.
  pose proof (digits2_pos_bounds m) as [Hm _]. pose proof (digits2_pos_bounds d) as [_ Hd].
  simpl Zdigits2.
  set (d1 := Zpos (digits2_pos m)) in *. set (d2 := Zpos (digits2_pos d)) in *.
  assert (Hd0 : (0 < inject_Z (Zpos d))%Q) by (apply inject_Z_pos_lt; lia).
  apply (Qmult_le_r _ _ (inject_Z (Zpos d)) Hd0).
  assert (E : (inject_Z (Zpos m) / inject_Z (Zpos d) * inject_Z (Zpos d) == inject_Z (Zpos m))%Q)
    by (field; lra).
  rewrite E.
  apply Qle_trans with (bpow (d1 - 1 - d2) * inject_Z (2 ^ d2))%Q.
  - apply Qmult_le_l; [apply bpow_pos|]. rewrite <- Zle_Qle. lia.
  - rewrite <- bpow_Z by lia. rewrite <- bpow_plus.
    replace (d1 - 1 - d2 + d2) with (d1 - 1) by lia.
    rewrite bpow_Z by lia. rewrite <- Zle_Qle. lia.
Qed.

Lemma fval_zero s : fval (S754_zero s) = 0%Q.
Proof. reflexivity. Qed.

Lemma three_bpow_nonneg k : (0 <= 3 * bpow k)%Q.
Proof. apply Qmult_le_0_compat; [discriminate|apply Qlt_le_weak, bpow_pos]. Qed.

Lemma round_ratio_pos_error (sx : bool) (m d : positive) (K : Z) :
  Zdigits2 (Zpos d) <= 1074 ->
  (inject_Z (Zpos m) / inject_Z (Zpos d) < bpow K)%Q ->
  emin prec emax <= K - prec -> K <= emax - prec ->
  let '(mz, ez, lz) := SFdiv_core_binary prec emax (Zpos m) 0 (Zpos d) 0 in
  fin_float (binary_round_aux prec emax sx mz ez lz) = true ∧
  (Qabs (fval (binary_round_aux prec emax sx mz ez lz) -
         (if sx then - (inject_Z (Zpos m) / inject_Z (Zpos d)) else inject_Z (Zpos m) / inject_Z (Zpos d)))
     <= 3 * bpow (K - prec))%Q.
Proof.
  intros Hd2 HK Hemin Hemax.
  pose proof (div_core_spec m d Hd2) as Hdiv. cbv zeta in Hdiv.
  destruct (SFdiv_core_binary prec emax (Zpos m) 0 (Zpos d) 0) as [[q e] l].
  destruct Hdiv as (Hq & He & Hx & Hex).
  apply round_aux_error; [done|done|done| |done|done|done].
  right. pose proof (ratio_lower m d) as Hlow.
  assert (HD : (bpow (Zdigits2 (Zpos m) - 1 - Zdigits2 (Zpos d)) < bpow K)%Q) by lra.
  apply bpow_lt_inv in HD. rewrite fexp_max in He. unfold prec in *. lia.
Qed.

(** [n / d] as a float errs by at most [3 * 2^(K - prec)] when
    [|n / d| < 2^K]. *)
Lemma round_ratio_error (n : Z) (d : positive) (K : Z) :
  Zdigits2 (Zpos d) <= 1074 ->
  (Qabs (inject_Z n / inject_Z (Zpos d)) < bpow K)%Q ->
  emin prec emax <= K - prec -> K <= emax - prec ->
  fin_float (round_ratio n d) = true ∧
  (Qabs (fval (round_ratio n d) - inject_Z n / inject_Z (Zpos d)) <= 3 * bpow (K - prec))%Q.
Proof.
  intros Hd2 HK Hemin Hemax. destruct n as [|m|m]; simpl round_ratio.
  - split; [done|]. rewrite fval_zero.
    assert (E : (0 - inject_Z 0 / inject_Z (Zpos d) == 0)%Q) by (unfold Qdiv; ring).
    rewrite E.
    apply three_bpow_nonneg.
  - pose proof (round_ratio_pos_error false m d K Hd2) as H.
    destruct (SFdiv_core_binary prec emax (Zpos m) 0 (Zpos d) 0) as [[q e] l].
    apply H; first [done | eapply Qle_lt_trans; [apply Qle_Qabs|exact HK]].
  - assert (Hneg : (inject_Z (Zneg m) / inject_Z (Zpos d) ==
                    - (inject_Z (Zpos m) / inject_Z (Zpos d)))%Q).
    { change (Zneg m) with (- Zpos m). rewrite inject_Z_opp. unfold Qdiv. ring. }
    assert (HK' : (inject_Z (Zpos m) / inject_Z (Zpos d) < bpow K)%Q).
    { rewrite Hneg, Qabs_opp in HK. eapply Qle_lt_trans; [apply Qle_Qabs|exact HK]. }
    pose proof (round_ratio_pos_error true m d K Hd2 HK' Hemin Hemax) as H.
    destruct (SFdiv_core_binary prec emax (Zpos m) 0 (Zpos d) 0) as [[q e] l].
    destruct H as [Hf Herr].
    split; [done|]. rewrite Hneg. exact Herr.
Qed.

Lemma Fval_mul (mx my : positive) ex ey :
  (Fval (Zpos (mx * my)) (ex + ey) == Fval (Zpos mx) ex * Fval (Zpos my) ey)%Q.
Proof. unfold Fval. rewrite Pos2Z.inj_mul, inject_Z_mult, bpow_plus. ring. Qed.

(** [x * y] on finite floats errs by at most [3 * 2^(K - prec)] when
    [|x y| < 2^K]. *)
Lemma f_mul_error (x y : float) (K : Z) :
  fin_float x = true -> fin_float y = true ->
  (Qabs (fval x * fval y) < bpow K)%Q ->
  emin prec emax <= K - prec -> K <= emax - prec ->
  fin_float (f_mul x y) = true ∧
  (Qabs (fval (f_mul x y) - fval x * fval y) <= 3 * bpow (K - prec))%Q.
Proof.
  intros Hx Hy HK Hemin Hemax. pose proof (three_bpow_nonneg (K - prec)) as H3.
  destruct x as [sx| | |sx mx ex]; try discriminate;
    destruct y as [sy| | |sy my ey]; try discriminate; unfold f_mul, SFmul.
  - split; [done|]. rewrite fval_zero. simpl fval. rewrite Qmult_0_l. done.
  - split; [done|]. rewrite fval_zero. simpl fval. rewrite Qmult_0_l. done.
  - split; [done|]. rewrite fval_zero. simpl fval. rewrite Qmult_0_r. done.
  - set (v := (Fval (Zpos mx) ex * Fval (Zpos my) ey)%Q).
    assert (Hv : (Qabs (fval (S754_finite sx mx ex) * fval (S754_finite sy my ey)) == v)%Q).
    { unfold v. simpl fval.
      assert (H0 : (0 <= Fval (Zpos mx) ex * Fval (Zpos my) ey)%Q)
        by (apply Qmult_le_0_compat; apply Fval_nonneg; lia).
      destruct sx, sy;
        [rewrite Qabs_pos; [ring|lra]|rewrite Qabs_neg; [ring|lra]
        |rewrite Qabs_neg; [ring|lra]|rewrite Qabs_pos; [ring|lra]]. }
    assert (Hv' : (fval (S754_finite sx mx ex) * fval (S754_finite sy my ey) ==
                   if xorb sx sy then - v else v)%Q)
      by (unfold v; simpl fval; destruct sx, sy; simpl; ring).
    rewrite Hv in HK.
    destruct (round_aux_error (xorb sx sy) (Zpos (mx * my)) (ex + ey) loc_Exact v K)
      as [Hf Herr]; try done.
    + unfold v. rewrite <- Fval_mul. split; [apply Qle_refl|apply Fval_le; lia].
    + intros _. unfold v. rewrite Fval_mul. reflexivity.
    + by left.
    + split; [done|]. rewrite Hv'. exact Herr.
Qed.

Lemma round_half_even_pow2_err (m e : Z) :
  0 <= m -> (Qabs (Fval m e - inject_Z (round_half_even_pow2 m e)) <= 1 # 2)%Q.
Proof.
  intros Hm. unfold round_half_even_pow2.
  destruct (Z.leb_spec 0 e) as [He|He].
  - unfold Fval. rewrite bpow_Z, <- inject_Z_mult by done.
    assert (E : (inject_Z (m * 2 ^ e) - inject_Z (m * 2 ^ e) == 0)%Q) by ring.
    rewrite E. discriminate.
  - set (P := 2 ^ (- e)).
    assert (HP : 0 < P) by (apply Z.pow_pos_nonneg; lia).
    pose proof (Z.div_mod m P ltac:(lia)) as Hd.
    pose proof (Z.mod_pos_bound m P HP) as Hb.
    set (q := m / P) in *. set (r := m mod P) in *.
    (* the chosen integer [t] is within half of [m / P] *)
    assert (Ht : forall t, - P <= 2 * (m - t * P) <= P ->
                 (Qabs (Fval m e - inject_Z t) <= 1 # 2)%Q).
    { intros t Hbound.
      assert (HPQ : (0 < inject_Z (2 * P))%Q) by (apply inject_Z_pos_lt; lia).
      assert (Hsc : (bpow e * inject_Z P == 1)%Q).
      { unfold P. rewrite <- bpow_Z by lia. rewrite <- bpow_plus.
        replace (e + - e) with 0 by lia. reflexivity. }
      assert (Hmul : ((Fval m e - inject_Z t) * inject_Z (2 * P) ==
                      inject_Z (2 * (m - t * P)))%Q).
      { unfold Fval. replace (m - t * P) with (m + - (t * P)) by ring.
        rewrite !inject_Z_mult, inject_Z_plus, inject_Z_opp, !inject_Z_mult.
        transitivity (inject_Z 2 * (inject_Z m * (bpow e * inject_Z P)) -
                      inject_Z 2 * inject_Z t * inject_Z P)%Q; [ring|].
        rewrite Hsc. ring. }
      apply Qabs_Qle_condition. split.
      - apply (Qmult_le_r _ _ (inject_Z (2 * P)) HPQ). rewrite Hmul.
        assert (E : (- (1 # 2) * inject_Z (2 * P) == inject_Z (- P))%Q)
          by (rewrite inject_Z_mult, inject_Z_opp; simpl; field).
        rewrite E. rewrite <- Zle_Qle. lia.
      - apply (Qmult_le_r _ _ (inject_Z (2 * P)) HPQ). rewrite Hmul.
        assert (E : ((1 # 2) * inject_Z (2 * P) == inject_Z P)%Q)
          by (rewrite inject_Z_mult; simpl; field).
        rewrite E. rewrite <- Zle_Qle. lia. }
    destruct (Z.compare_spec (2 * r) P) as [Heq|Hlt|Hgt].
    + destruct (Z.even q); apply Ht; lia.
    + apply Ht. lia.
    + apply Ht. lia.
Qed.

(** [round] on a finite float returns an integer within one half of it. *)
Lemma py_round_err (f : float) :
  fin_float f = true ->
  exists n, py_round f = Ok n ∧ (Qabs (fval f - inject_Z n) <= 1 # 2)%Q.
Proof.
  destruct f as [s| | |s m e]; try discriminate; intros _.
  - exists 0. split; [done|]. rewrite fval_zero. discriminate.
  - eexists. split; [reflexivity|].
    pose proof (round_half_even_pow2_err (Zpos m) e ltac:(lia)) as H.
    destruct s; simpl fval; [|exact H].
    rewrite inject_Z_opp.
    assert (E : (- Fval (Zpos m) e - - inject_Z (round_half_even_pow2 (Zpos m) e) ==
                 - (Fval (Zpos m) e - inject_Z (round_half_even_pow2 (Zpos m) e)))%Q) by ring.
    rewrite E, Qabs_opp. exact H.
Qed.

(** An integer closer than one half to a finite float is its [round]. *)
Lemma py_round_near (f : float) (n : Z) :
  fin_float f = true -> (Qabs (fval f - inject_Z n) < 1 # 2)%Q -> py_round f = Ok n.
Proof.
  intros Hf Hn. destruct (py_round_err f Hf) as (k & Hk & Hkerr). rewrite Hk.
  apply Qabs_Qlt_condition in Hn. apply Qabs_Qle_condition in Hkerr.
  assert (H1 : (inject_Z k < inject_Z n + 1)%Q) by lra.
  assert (H2 : (inject_Z n < inject_Z k + 1)%Q) by lra.
  change 1%Q with (inject_Z 1) in H1, H2. rewrite <- inject_Z_plus, <- Zlt_Qlt in H1, H2.
  f_equal. lia.
Qed.

(** The constants of the coordinate arithmetic. *)
Lemma fval_SCALE : (fval (float_const SCALE) == 1000000 # 1)%Q.
Proof. vm_compute. reflexivity. Qed.

Lemma fin_SCALE : fin_float (float_const SCALE) = true.
Proof. vm_compute. reflexivity. Qed.

Lemma div_SCALE (n : Z) : (inject_Z n / inject_Z (Zpos (Z.to_pos SCALE)) == inject_Z n * (1 # 1000000))%Q.
Proof. reflexivity. Qed.

Lemma bpow_m32 : (bpow (-32) == 1 # 4294967296)%Q.
Proof. reflexivity. Qed.
Lemma bpow_m12 : (bpow (-12) == 1 # 4096)%Q.
Proof. reflexivity. Qed.
Lemma bpow_m13 : (bpow (-13) == 1 # 8192)%Q.
Proof. reflexivity. Qed.
Lemma bpow_21 : (bpow 21 == 2097152 # 1)%Q.
Proof. reflexivity. Qed.
Lemma bpow_40 : (bpow 40 == 1099511627776 # 1)%Q.
Proof. reflexivity. Qed.
Lemma bpow_41 : (bpow 41 == 2199023255552 # 1)%Q.
Proof. reflexivity. Qed.

Lemma int_truediv_fin (n : Z) (d : Z) :
  fin_float (round_ratio n (Z.to_pos d)) = true -> int_truediv n d = Ok (round_ratio n (Z.to_pos d)).
Proof.
  unfold int_truediv. destruct (round_ratio n (Z.to_pos d)); (discriminate || reflexivity).
Qed.

(** [n / SCALE] for [|n| < 2^21 SCALE]: finite, within [3 * 2^-32]. *)
Lemma dequantize_coord_error (n : Z) :
  (Qabs (inject_Z n) < 2097152000000 # 1)%Q ->
  exists x, int_truediv n SCALE = Ok x ∧ fin_float x = true ∧
    (Qabs (fval x - inject_Z n * (1 # 1000000)) <= 3 * (1 # 4294967296))%Q.
Proof.
  intros Hn.
  destruct (round_ratio_error n (Z.to_pos SCALE) 21) as [Hf Herr].
  - vm_compute. discriminate.
  - rewrite div_SCALE, bpow_21, Qabs_Qmult. simpl (Qabs (1 # 1000000)).
    assert (E : (2097152 # 1 == (2097152000000 # 1) * (1 # 1000000))%Q) by reflexivity.
    rewrite E. apply Qmult_lt_r; [reflexivity|exact Hn].
  - unfold emin, prec, emax. lia.
  - unfold prec, emax. lia.
  - exists (round_ratio n (Z.to_pos SCALE)). split; [by apply int_truediv_fin|].
    split; [done|]. rewrite div_SCALE in Herr.
    replace (21 - prec) with (-32) in Herr by reflexivity. rewrite bpow_m32 in Herr. exact Herr.
Qed.

(** Re-quantizing a dequantized coordinate of size at most [2^40] gives
    it back. *)
Lemma requantize_coord (n : Z) :
  Z.abs n <= 2 ^ 40 ->
  exists x, int_truediv n SCALE = Ok x ∧ py_round (f_mul x (float_const SCALE)) = Ok n.
Proof.
  intros Hn.
  assert (HnQ : (Qabs (inject_Z n) <= 1099511627776 # 1)%Q).
  { change (Qabs (inject_Z n)) with (inject_Z (Z.abs n)). change (1099511627776 # 1)%Q with (inject_Z (2 ^ 40)).
    by rewrite <- Zle_Qle. }
  destruct (dequantize_coord_error n) as (x & Hx & Hf & Herr).
  { eapply Qle_lt_trans; [exact HnQ|reflexivity]. }
  exists x. split; [done|].
  destruct (f_mul_error x (float_const SCALE) 41 Hf fin_SCALE) as [Hf2 Herr2].
  - rewrite fval_SCALE, bpow_41.
    apply Qabs_Qle_condition in Herr, HnQ. rewrite Qabs_Qlt_condition. lra.
  - unfold emin, prec, emax. lia.
  - unfold prec, emax. lia.
  - apply py_round_near; [done|].
    replace (41 - prec) with (-12) in Herr2 by reflexivity.
    rewrite bpow_m12, fval_SCALE in Herr2.
    apply Qabs_Qle_condition in Herr, Herr2. rewrite Qabs_Qlt_condition. lra.
Qed.

(** Quantizing a finite coordinate of size at most [2^20] and dequantizing
    it again moves it by less than [1 / SCALE]. *)
Lemma quantize_coord_error (x : float) :
  fin_float x = true -> (Qabs (fval x) <= 1048576 # 1)%Q ->
  exists n x', py_round (f_mul x (float_const SCALE)) = Ok n ∧ int_truediv n SCALE = Ok x' ∧
    (Qabs (fval x' - fval x) < 1 # 1000000)%Q.
Proof.
  intros Hf Hx.
  destruct (f_mul_error x (float_const SCALE) 40 Hf fin_SCALE) as [Hf2 Herr2].
  - rewrite fval_SCALE, bpow_40.
    apply Qabs_Qle_condition in Hx. rewrite Qabs_Qlt_condition. lra.
  - unfold emin, prec, emax. lia.
  - unfold prec, emax. lia.
  - replace (40 - prec) with (-13) in Herr2 by reflexivity.
    rewrite bpow_m13, fval_SCALE in Herr2.
    destruct (py_round_err _ Hf2) as (n & Hn & Hnerr).
    destruct (dequantize_coord_error n) as (x' & Hx' & Hf' & Herr').
    { apply Qabs_Qle_condition in Hx, Herr2, Hnerr. rewrite Qabs_Qlt_condition. lra. }
    exists n, x'. split; [done|]. split; [done|].
    apply Qabs_Qle_condition in Hx, Herr2, Hnerr, Herr'. rewrite Qabs_Qlt_condition. lra.
Qed.

End Float_error.

Section Nearest.
Local Open Scope Q_scope.

Lemma Fval_twice k e : Fval (2 * k) e == Fval k (e + 1).
Proof. unfold Fval. rewrite bpow_succ, inject_Z_mult. simpl. ring. Qed.

Lemma Fval_mid k e : Fval (2 * k + 1) (e - 1) == Fval k e + bpow (e - 1).
Proof.
  rewrite Fval_plus, Fval_one, Fval_twice. by replace (e - 1 + 1)%Z with e by lia.
Qed.

Lemma Fval_succ k e : Fval (k + 1) e == Fval k e + bpow e.
Proof. by rewrite Fval_plus, Fval_one. Qed.

Lemma bpow_pred e : bpow e == 2 * bpow (e - 1).
Proof. rewrite <- bpow_succ. by replace (e - 1 + 1)%Z with e by lia. Qed.

Lemma Fval_lt m1 m2 e : (m1 < m2)%Z -> Fval m1 e < Fval m2 e.
Proof.
  intros H. unfold Fval. apply Qmult_lt_r; [apply bpow_pos|]. by rewrite <- Zlt_Qlt.
Qed.

Lemma Fval_le_inv m1 m2 e : Fval m1 e <= Fval m2 e -> (m1 <= m2)%Z.
Proof.
  intros H. destruct (Z.le_gt_cases m1 m2) as [|Hc]; [done|].
  apply (Fval_lt _ _ e) in Hc. lra.
Qed.

Lemma Fval_lt_inv m1 m2 e : Fval m1 e < Fval m2 e -> (m1 < m2)%Z.
Proof.
  intros H. destruct (Z.lt_ge_cases m1 m2) as [|Hc]; [done|].
  apply (Fval_le _ _ e) in Hc. lra.
Qed.

Lemma Fval_inj m1 m2 e : Fval m1 e == Fval m2 e -> m1 = m2.
Proof.
  intros H. apply Z.le_antisymm; apply (Fval_le_inv _ _ e); rewrite H; apply Qle_refl.
Qed.

Lemma shr_1_eq m r s :
  (0 <= m)%Z ->
  shr_1 {| shr_m := m; shr_r := r; shr_s := s |}
  = {| shr_m := Z.div2 m; shr_r := Z.odd m; shr_s := r || s |}.
Proof.
  intros Hm. destruct m as [|[p|p|]|p]; try lia; reflexivity.
Qed.

Lemma loc_sem_shr x m e l :
  loc_sem x m e l -> shr_sem x e (shr_record_of_loc m l).
Proof.
  pose proof (bpow_pos (e - 1)) as Hb. pose proof (Fval_mid m e) as Hmid.
  pose proof (Fval_succ m e) as Hs. pose proof (bpow_pred e) as Hp.
  destruct l as [|[]]; simpl; unfold shr_sem; simpl.
  - intros Hx. split; [lra|]. split; [split; [discriminate|lra]|].
    split; [discriminate|]. intros [H _]. contradiction.
  - intros (Hx & Hlt & Heq & Hgt). assert (H : x == Fval (2 * m + 1) (e - 1)) by tauto.
    split; [lra|]. split; [split; [intros _; lra|done]|].
    split; [discriminate|]. intros [_ H']. contradiction.
  - intros (Hx & Hlt & Heq & Hgt). assert (H : x < Fval (2 * m + 1) (e - 1)) by tauto.
    split; [lra|]. split; [split; [discriminate|lra]|].
    split; [intros _; split; lra|done].
  - intros (Hx & Hlt & Heq & Hgt). assert (H : Fval (2 * m + 1) (e - 1) < x) by tauto.
    split; [lra|]. split; [split; [intros _; lra|done]|].
    split; [intros _; split; lra|done].
Qed.

Lemma shr_sem_1 x e mrs :
  (0 <= shr_m mrs)%Z -> shr_sem x e mrs -> shr_sem x (e + 1) (shr_1 mrs).
Proof.
  destruct mrs as [m r s]. cbn [shr_m shr_r shr_s]. intros Hm (Hx & Hr & Hs).
  rewrite shr_1_eq by done. unfold shr_sem. cbn [shr_m shr_r shr_s] in *.
  pose proof (bpow_pos (e - 1)) as Hb. pose proof (Fval_mid m e) as Hmid.
  pose proof (bpow_pred e) as Hp.
  pose proof (Zdiv2_odd_eqn m) as Hd.
  set (m' := Z.div2 m) in *.
  replace (e + 1 - 1)%Z with e by lia.
  assert (F1 : Fval m' (e + 1) == Fval m' e * 2) by (unfold Fval; rewrite bpow_succ; ring).
  assert (F2 : Fval (m' + 1) (e + 1) == Fval m' e * 2 + 2 * bpow e)
    by (unfold Fval; rewrite bpow_succ, inject_Z_plus; simpl; ring).
  assert (F3 : Fval (2 * m' + 1) e == Fval m' e * 2 + bpow e)
    by (unfold Fval; rewrite inject_Z_plus, inject_Z_mult; simpl; ring).
  assert (Hr' : r = true <-> Fval m e + bpow (e - 1) <= x) by (rewrite <- Hmid; exact Hr).
  assert (Hrs : r || s = true <-> ~ x == Fval m e).
  { rewrite orb_true_iff, Hr', Hs, Hmid. split.
    - intros [H|[H _]]; [intros H'; lra|done].
    - intros H. destruct (Qlt_le_dec x (Fval m e + bpow (e - 1))) as [Hl|Hl].
      + right. split; [done|]. intros H'; lra.
      + left. lra. }
  rewrite F1, F2, F3. clear Hr Hs Hr'.
  destruct (Z.odd m); rewrite Hd in Hx, Hrs.
  - assert (F4 : Fval (2 * m' + 1) e == Fval m' e * 2 + bpow e) by exact F3.
    assert (F5 : Fval (2 * m' + 1 + 1) e == Fval m' e * 2 + 2 * bpow e)
      by (unfold Fval; rewrite !inject_Z_plus, inject_Z_mult; simpl; ring).
    rewrite F4 in Hx, Hrs. rewrite F5 in Hx.
    split; [lra|]. split; [split; [intros _; lra|done]|].
    rewrite Hrs. split.
    + intros H. split; intros H'; [lra|]. apply H. lra.
    + intros [H1 H2] H'. apply H2. lra.
  - assert (F4 : Fval (2 * m' + 0) e == Fval m' e * 2)
      by (unfold Fval; rewrite inject_Z_plus, inject_Z_mult; simpl; ring).
    assert (F5 : Fval (2 * m' + 0 + 1) e == Fval m' e * 2 + bpow e)
      by (unfold Fval; rewrite !inject_Z_plus, inject_Z_mult; simpl; ring).
    rewrite F4 in Hx, Hrs. rewrite F5 in Hx.
    split; [lra|]. split; [split; [discriminate|intros; lra]|].
    rewrite Hrs. split.
    + intros H. split; [done|]. intros H'; lra.
    + intros [H1 H2]. done.
Qed.
Lemma shr_sem_iter p x e mrs :
  (0 <= shr_m mrs)%Z -> shr_sem x e mrs ->
  shr_sem x (e + Zpos p) (SpecFloat.iter_pos shr_1 p mrs) ∧
  (0 <= shr_m (SpecFloat.iter_pos shr_1 p mrs))%Z.
Proof.
  revert e mrs. induction p as [p IH|p IH|]; intros e mrs Hm Hs; simpl SpecFloat.iter_pos.
  - assert (H1 : (0 <= shr_m (shr_1 mrs))%Z) by (rewrite shr_1_m; [apply Z.div_pos|]; lia).
    pose proof (shr_sem_1 x e mrs Hm Hs) as Hs1.
    destruct (IH _ _ H1 Hs1) as [Hs2 H2].
    destruct (IH _ _ H2 Hs2) as [Hs3 H3].
    split; [|done]. by replace (e + Zpos p~1)%Z with (e + 1 + Zpos p + Zpos p)%Z by lia.
  - destruct (IH _ _ Hm Hs) as [Hs2 H2].
    destruct (IH _ _ H2 Hs2) as [Hs3 H3].
    split; [|done]. by replace (e + Zpos p~0)%Z with (e + Zpos p + Zpos p)%Z by lia.
  - split; [by apply shr_sem_1|]. rewrite shr_1_m; [apply Z.div_pos|]; lia.
Qed.

Lemma shr_sem_round x e mrs :
  shr_sem x e mrs -> RHE x e (round_nearest_even (shr_m mrs) (loc_of_shr_record mrs)).
Proof.
  destruct mrs as [m r s]. unfold shr_sem. cbn [shr_m shr_r shr_s].
  intros (Hx & Hr & Hs).
  pose proof (bpow_pos (e - 1)) as Hb. pose proof (Fval_mid m e) as Hmid.
  pose proof (Fval_succ m e) as Hsucc. pose proof (bpow_pred e) as Hp.
  rewrite Hmid in Hr, Hs.
  unfold RHE. destruct r, s; simpl loc_of_shr_record; simpl round_nearest_even.
  - (* above the midpoint *)
    assert (H1 : Fval m e + bpow (e - 1) <= x) by (apply Hr; done).
    destruct (proj1 Hs eq_refl) as [_ H2].
    assert (H3 : Fval m e + bpow (e - 1) < x).
    { destruct (Qeq_dec x (Fval m e + bpow (e - 1))) as [E|E]; [contradiction|].
      apply Qle_lt_or_eq in H1 as [H1|H1]; [done|]. exfalso. apply E. by symmetry. }
    rewrite Fval_succ. split.
    + apply Qabs_Qle_condition. lra.
    + intros H. exfalso. assert (H4 : Qabs (x - (Fval m e + bpow e)) < bpow (e - 1))
        by (apply Qabs_Qlt_condition; lra). lra.
  - (* on the midpoint *)
    assert (H1 : Fval m e + bpow (e - 1) <= x) by (apply Hr; done).
    assert (H2 : x == Fval m e + bpow (e - 1)).
    { destruct (Qeq_dec x (Fval m e + bpow (e - 1))) as [E|E]; [done|].
      assert (H3 : ~ x == Fval m e) by (intros E'; lra).
      pose proof (proj2 Hs (conj H3 E)). discriminate. }
    destruct (Z.even m) eqn:Hev.
    + split; [apply Qabs_Qle_condition; lra|done].
    + rewrite Fval_succ. split; [apply Qabs_Qle_condition; lra|].
      intros _. rewrite Z.even_add, Hev. reflexivity.
  - (* strictly between [m 2^e] and the midpoint *)
    assert (H1 : x < Fval m e + bpow (e - 1)).
    { destruct (Qlt_le_dec x (Fval m e + bpow (e - 1))) as [H|H]; [done|].
      apply Hr in H. discriminate. }
    split.
    + apply Qabs_Qle_condition. lra.
    + intros H. exfalso. assert (H4 : Qabs (x - Fval m e) < bpow (e - 1))
        by (apply Qabs_Qlt_condition; lra). lra.
  - (* exactly [m 2^e] *)
    assert (H1 : x < Fval m e + bpow (e - 1)).
    { destruct (Qlt_le_dec x (Fval m e + bpow (e - 1))) as [H|H]; [done|].
      apply Hr in H. discriminate. }
    assert (H2 : x == Fval m e).
    { destruct (Qeq_dec x (Fval m e)) as [E|E]; [done|].
      assert (H3 : ~ x == Fval m e + bpow (e - 1)) by (intros E'; lra).
      pose proof (proj2 Hs (conj E H3)). discriminate. }
    split.
    + apply Qabs_Qle_condition. lra.
    + intros H. exfalso. assert (H4 : Qabs (x - Fval m e) == 0) by (rewrite H2; ring_simplify (Fval m e - Fval m e); reflexivity).
      lra.
Qed.

Lemma Fval_pow2 k e : (0 <= k)%Z -> Fval (2 ^ k) e == bpow (e + k).
Proof. intros Hk. rewrite <- (Z.mul_1_l (2 ^ k)), Fval_shift, Fval_one by done. reflexivity. Qed.

Lemma Zdigits2_bounds (m : Z) :
  (0 < m)%Z -> (2 ^ (Zdigits2 m - 1) <= m < 2 ^ Zdigits2 m)%Z.
Proof. intros Hm. destruct m as [|p|p]; try lia. apply digits2_pos_bounds. Qed.

Lemma Zdigits2_unique (m k : Z) :
  (0 < k)%Z -> (2 ^ (k - 1) <= m < 2 ^ k)%Z -> Zdigits2 m = k.
Proof.
  intros Hk Hb. assert (Hm : (0 < m)%Z) by (pose proof (Z.pow_pos_nonneg 2 (k - 1)); lia).
  pose proof (Zdigits2_bounds m Hm) as Hd.
  assert (Hd0 : (0 < Zdigits2 m)%Z) by (destruct m; simpl; lia).
  destruct (Z.lt_trichotomy (Zdigits2 m) k) as [H|[H|H]]; [|done|].
  - assert (2 ^ Zdigits2 m <= 2 ^ (k - 1))%Z by (apply Z.pow_le_mono_r; lia). lia.
  - assert (2 ^ k <= 2 ^ (Zdigits2 m - 1))%Z by (apply Z.pow_le_mono_r; lia). lia.
Qed.

(** The binade of [x]: [2^(D-1) <= x < 2^D] determines [D]. *)
Lemma mag_unique (x : Q) (D1 D2 : Z) :
  bpow (D1 - 1) <= x < bpow D1 -> bpow (D2 - 1) <= x < bpow D2 -> D1 = D2.
Proof.
  intros [H1 H2] [H3 H4].
  assert (A : (D1 - 1 < D2)%Z) by (apply bpow_lt_inv; lra).
  assert (B : (D2 - 1 < D1)%Z) by (apply bpow_lt_inv; lra). lia.
Qed.

Lemma loc_sem_bounds x m e l :
  loc_sem x m e l -> Fval m e <= x < Fval (m + 1) e.
Proof.
  pose proof (Fval_succ m e) as Hs. pose proof (bpow_pos e) as Hbp.
  destruct l as [|c]; simpl; [intros Hx; lra|]. intros [Hx _]. lra.
Qed.

Lemma loc_sem_mag x m e l :
  (0 < m)%Z -> loc_sem x m e l ->
  bpow (Zdigits2 m + e - 1) <= x < bpow (Zdigits2 m + e).
Proof.
  intros Hm Hl. apply loc_sem_bounds in Hl.
  pose proof (Zdigits2_bounds m Hm) as Hd.
  assert (Hd0 : (0 < Zdigits2 m)%Z) by (destruct m; simpl; lia).
  pose proof (Fval_pow2 (Zdigits2 m - 1) e ltac:(lia)) as E1.
  pose proof (Fval_pow2 (Zdigits2 m) e ltac:(lia)) as E2.
  pose proof (Fval_le _ _ e (proj1 Hd)) as H1.
  assert (H2 : (m + 1 <= 2 ^ Zdigits2 m)%Z) by lia. apply (Fval_le _ _ e) in H2.
  replace (Zdigits2 m + e - 1)%Z with (e + (Zdigits2 m - 1))%Z by lia.
  replace (Zdigits2 m + e)%Z with (e + Zdigits2 m)%Z by lia. lra.
Qed.

(** Rounding at [2^F] of a value of the binade [[2^(F+p-1), 2^(F+p))]
    lands in [[2^(p-1), 2^p]]. *)
Lemma RHE_range (x : Q) (F a k : Z) :
  (1 <= k)%Z -> RHE x F a -> bpow (F + k - 1) <= x < bpow (F + k) ->
  (2 ^ (k - 1) <= a <= 2 ^ k)%Z.
Proof.
  intros Hk [Ha _] [Hlo Hhi]. apply Qabs_Qle_condition in Ha.
  pose proof (bpow_pos (F - 1)) as Hb. pose proof (bpow_pred F) as Hp.
  pose proof (Fval_pow2 (k - 1) F ltac:(lia)) as E1.
  pose proof (Fval_pow2 k F ltac:(lia)) as E2.
  replace (F + (k - 1))%Z with (F + k - 1)%Z in E1 by lia.
  split.
  - assert (H : Fval (2 ^ (k - 1) - 1) F < Fval a F).
    { pose proof (Fval_succ (2 ^ (k - 1) - 1) F) as E3.
      replace (2 ^ (k - 1) - 1 + 1)%Z with (2 ^ (k - 1))%Z in E3 by lia. lra. }
    apply Fval_lt_inv in H. lia.
  - assert (H : Fval a F < Fval (2 ^ k + 1) F) by (rewrite Fval_succ; lra).
    apply Fval_lt_inv in H. lia.
Qed.
Lemma shr_fexp_sem x m e l :
  (0 <= m)%Z -> loc_sem x m e l -> (e <= fexp prec emax (Zdigits2 m + e))%Z ->
  shr_sem x (fexp prec emax (Zdigits2 m + e)) (fst (shr_fexp prec emax m e l)) ∧
  snd (shr_fexp prec emax m e l) = fexp prec emax (Zdigits2 m + e) ∧
  (0 <= shr_m (fst (shr_fexp prec emax m e l)))%Z.
Proof.
  intros Hm Hl He. pose proof (loc_sem_shr x m e l Hl) as Hs.
  assert (Hr : shr_m (shr_record_of_loc m l) = m) by (destruct l as [|[]]; reflexivity).
  unfold shr_fexp, shr.
  destruct (fexp prec emax (Zdigits2 m + e) - e)%Z as [|p|p] eqn:Hd; simpl.
  - replace (fexp prec emax (Zdigits2 m + e)) with e by lia. rewrite Hr. done.
  - replace (fexp prec emax (Zdigits2 m + e)) with (e + Zpos p)%Z by lia.
    assert (Hm' : (0 <= shr_m (shr_record_of_loc m l))%Z) by (rewrite Hr; done).
    destruct (shr_sem_iter p x e _ Hm' Hs) as [H1 H2]. done.
  - lia.
Qed.

Lemma round_result_cases sx (m2 : Z) e2 :
  (0 < m2)%Z ->
  let r := match m2 with
           | Z0 => S754_zero sx
           | Zpos m => if (e2 <=? emax - prec)%Z then S754_finite sx m e2 else S754_infinity sx
           | Zneg _ => S754_nan
           end in
  (fin_float r = true <-> (e2 <= emax - prec)%Z) ∧
  (fin_float r = true -> fval r == if sx then - Fval m2 e2 else Fval m2 e2).
Proof.
  intros Hm r. subst r. destruct m2 as [|p|p]; try lia.
  destruct (Z.leb_spec e2 (emax - prec)) as [H|H]; simpl.
  - split; [split; done|]. intros _. destruct sx; reflexivity.
  - split; [split; [discriminate|lia]|discriminate].
Qed.

(** One binary64 rounding of [x], known through the location [l] with
    respect to [m 2^e], in the normal range: the result is the nearest
    multiple of [2^(D-53)], ties to even, where [2^(D-1) <= x < 2^D]; it is
    finite exactly when that multiple is below [2^1024]. *)
Lemma round_aux_rhe sx m e l x :
  (0 < m)%Z -> loc_sem x m e l ->
  (e <= fexp prec emax (Zdigits2 m + e))%Z ->
  (emin prec emax + prec <= Zdigits2 m + e)%Z ->
  let D := (Zdigits2 m + e)%Z in
  let r := binary_round_aux prec emax sx m e l in
  bpow (D - 1) <= x < bpow D ∧
  exists a, RHE x (D - prec) a ∧ (2 ^ (prec - 1) <= a <= 2 ^ prec)%Z ∧
    (fin_float r = true <-> (a < 2 ^ prec ∧ D <= emax ∨ a = 2 ^ prec ∧ D + 1 <= emax)%Z) ∧
    (fin_float r = true -> fval r == if sx then - Fval a (D - prec) else Fval a (D - prec)).
Proof.
  intros Hm Hl He Hn D r.
  assert (Hf : fexp prec emax D = (D - prec)%Z) by (rewrite fexp_max; lia).
  pose proof (loc_sem_mag x m e l Hm Hl) as Hmag. fold D in Hmag.
  split; [done|]. subst r. unfold binary_round_aux.
  destruct (shr_fexp_sem x m e l ltac:(lia) Hl He) as (Hs1 & He1 & Hm1).
  fold D in Hs1, He1. rewrite Hf in Hs1, He1.
  destruct (shr_fexp prec emax m e l) as [mrs1 e1]. simpl in Hs1, He1, Hm1. subst e1.
  pose proof (shr_sem_round _ _ _ Hs1) as Hrhe.
  set (a := round_nearest_even (shr_m mrs1) (loc_of_shr_record mrs1)) in *.
  assert (Ha : (2 ^ (prec - 1) <= a <= 2 ^ prec)%Z).
  { apply (RHE_range x (D - prec)); [unfold prec; lia|done|].
    replace (D - prec + prec)%Z with D by lia. done. }
  exists a. split; [done|]. split; [done|].
  assert (Ha0 : (0 <= a)%Z) by (pose proof (Z.pow_pos_nonneg 2 (prec - 1)); lia).
  destruct (shr_fexp_spec a (D - prec) loc_Exact Ha0) as (Hm2 & He2 & Hk2).
  destruct (shr_fexp prec emax a (D - prec) loc_Exact) as [mrs2 e2]. simpl in Hm2, He2, Hk2.
  assert (Hp : (2 ^ prec = 2 * 2 ^ (prec - 1))%Z)
    by (rewrite <- Z.pow_succ_r by (unfold prec; lia); f_equal; lia).
  assert (Hp0 : (0 < 2 ^ (prec - 1))%Z) by (apply Z.pow_pos_nonneg; unfold prec; lia).
  destruct (Z.eq_dec a (2 ^ prec)%Z) as [Heq|Hne].
  - (* the rounding reaches the next binade *)
    assert (Hd : Zdigits2 a = (prec + 1)%Z).
    { apply Zdigits2_unique; [unfold prec; lia|].
      replace (prec + 1 - 1)%Z with prec by lia.
      rewrite Z.pow_add_r, Z.pow_1_r by (unfold prec; lia). lia. }
    rewrite Hd in Hm2, He2.
    replace (fexp prec emax (prec + 1 + (D - prec))) with (D + 1 - prec)%Z in Hm2, He2
      by (rewrite fexp_max; lia).
    replace (Z.max 0 (D + 1 - prec - (D - prec))) with 1%Z in Hm2, He2 by lia.
    rewrite Z.pow_1_r in Hm2.
    assert (Hm2' : (shr_m mrs2 = 2 ^ (prec - 1))%Z) by (rewrite Hm2, Heq, Hp, Z.mul_comm, Z.div_mul; lia).
    destruct (round_result_cases sx (shr_m mrs2) e2 ltac:(lia)) as [Hfin Hval].
    split.
    + rewrite Hfin. split; [intros; right; split; [done|lia]|].
      intros [[H1 _]|[_ H2]]; lia.
    + intros H. rewrite (Hval H), Hm2', He2, Heq.
      assert (E : Fval (2 ^ prec) (D - prec) == Fval (2 ^ (prec - 1)) (D - prec + 1)).
      { rewrite Hp, Fval_twice. reflexivity. }
      destruct sx; rewrite E; reflexivity.
  - (* the rounding stays in the binade *)
    assert (Hd : Zdigits2 a = prec).
    { apply Zdigits2_unique; [unfold prec; lia|lia]. }
    rewrite Hd in Hm2, He2, Hk2.
    replace (fexp prec emax (prec + (D - prec))) with (D - prec)%Z in Hm2, He2, Hk2
      by (rewrite fexp_max; lia).
    replace (Z.max 0 (D - prec - (D - prec))) with 0%Z in Hm2, He2, Hk2 by lia.
    rewrite Z.pow_0_r, Z.div_1_r in Hm2.
    destruct (round_result_cases sx (shr_m mrs2) e2 ltac:(lia)) as [Hfin Hval].
    split.
    + rewrite Hfin. split; [intros; left; split; lia|].
      intros [[H1 H2]|[H1 _]]; lia.
    + intros H. rewrite (Hval H), Hm2, He2. rewrite Z.add_0_r. reflexivity.
Qed.
Lemma Qabs_ge (v : Q) : - v <= Qabs v ∧ v <= Qabs v.
Proof. split; [rewrite <- Qabs_opp|]; apply Qle_Qabs. Qed.

Lemma RHE_proper x x' F a : x == x' -> RHE x F a -> RHE x' F a.
Proof. intros E [H1 H2]. unfold RHE. rewrite <- E. done. Qed.

Lemma RHE_unique x F a b : RHE x F a -> RHE x F b -> a = b.
Proof.
  intros [Ha Hta] [Hb Htb].
  pose proof (bpow_pred F) as Hp. pose proof (bpow_pos (F - 1)) as H0.
  (* two distinct multiples within half a step of [x] are neighbours at a tie *)
  assert (Key : forall a b, (a < b)%Z ->
            Qabs (x - Fval a F) <= bpow (F - 1) -> Qabs (x - Fval b F) <= bpow (F - 1) ->
            b = (a + 1)%Z ∧ Qabs (x - Fval a F) == bpow (F - 1) ∧ Qabs (x - Fval b F) == bpow (F - 1)).
  { clear a b Ha Hb Hta Htb. intros a b Hab Ha Hb.
    pose proof (Qabs_ge (x - Fval a F)) as [A1 A2]. pose proof (Qabs_ge (x - Fval b F)) as [B1 B2].
    assert (Hle : Fval (a + 1) F <= Fval b F) by (apply Fval_le; lia).
    pose proof (Fval_succ a F) as Hs.
    assert (Hb1 : b = (a + 1)%Z).
    { destruct (Z.eq_dec b (a + 1)%Z) as [|Hne]; [done|]. exfalso.
      assert (Hle2 : Fval (a + 1 + 1) F <= Fval b F) by (apply Fval_le; lia).
      pose proof (Fval_succ (a + 1) F). lra. }
    split; [done|]. split; lra. }
  destruct (Z.lt_trichotomy a b) as [H|[H|H]]; [|done|].
  - destruct (Key a b H Ha Hb) as (-> & E1 & E2).
    specialize (Hta E1). specialize (Htb E2). rewrite Z.even_add in Htb. rewrite Hta in Htb. discriminate.
  - destruct (Key b a H Hb Ha) as (-> & E1 & E2).
    specialize (Hta E2). specialize (Htb E1). rewrite Z.even_add in Hta. rewrite Htb in Hta. discriminate.
Qed.

(** The rounded multiple is at least as close as any other multiple. *)
Lemma RHE_nearest x F a k :
  RHE x F a -> Qabs (x - Fval a F) <= Qabs (x - Fval k F).
Proof.
  intros [Ha _]. pose proof (bpow_pred F) as Hp. pose proof (bpow_pos (F - 1)) as H0.
  pose proof (Qabs_ge (x - Fval k F)) as [K1 K2].
  pose proof (Qabs_Qle_condition (x - Fval a F) (bpow (F - 1))) as [Hc _].
  destruct (Hc Ha) as [A1 A2].
  destruct (Z.lt_trichotomy k a) as [H|[H|H]].
  - assert (Hle : Fval (k + 1) F <= Fval a F) by (apply Fval_le; lia).
    pose proof (Fval_succ k F). lra.
  - subst. apply Qle_refl.
  - assert (Hle : Fval (a + 1) F <= Fval k F) by (apply Fval_le; lia).
    pose proof (Fval_succ a F). lra.
Qed.

Lemma RHE_exact k F : RHE (Fval k F) F k.
Proof.
  pose proof (bpow_pos (F - 1)).
  assert (E : Qabs (Fval k F - Fval k F) == 0) by (ring_simplify (Fval k F - Fval k F); reflexivity).
  split; [rewrite E; lra|]. intros E'. rewrite E in E'. lra.
Qed.

Lemma RHE_opp x F a : RHE x F a -> RHE (- x) F (- a).
Proof.
  intros [H1 H2].
  assert (E : Qabs (- x - Fval (- a) F) == Qabs (x - Fval a F)).
  { rewrite <- Qabs_opp. unfold Fval. rewrite inject_Z_opp. apply Qabs_wd. ring. }
  split; [rewrite E; done|]. intros E'. rewrite E in E'. rewrite Z.even_opp. auto.
Qed.

Lemma Fval_0 k : Fval k 0 == inject_Z k.
Proof. unfold Fval, bpow. simpl. ring. Qed.

Lemma round_half_even_pow2_rhe (m e : Z) :
  (0 <= m)%Z -> RHE (Fval m e) 0 (round_half_even_pow2 m e).
Proof.
  intros Hm. unfold round_half_even_pow2.
  destruct (Z.leb_spec 0 e) as [He|He].
  - assert (E : Fval m e == Fval (m * 2 ^ e) 0).
    { rewrite Fval_0. unfold Fval. rewrite bpow_Z, <- inject_Z_mult by done. reflexivity. }
    eapply RHE_proper; [symmetry; exact E|]. apply RHE_exact.
  - set (P := (2 ^ (- e))%Z).
    assert (HP : (0 < P)%Z) by (apply Z.pow_pos_nonneg; lia).
    pose proof (Z.div_mod m P ltac:(lia)) as Hd.
    pose proof (Z.mod_pos_bound m P HP) as Hb.
    set (q := (m / P)%Z) in *. set (r := (m mod P)%Z) in *.
    assert (Ht : forall t, (- P <= 2 * (m - t * P) <= P)%Z ->
                 (Z.abs (2 * (m - t * P)) = P -> Z.even t = true) ->
                 RHE (Fval m e) 0 t).
    { intros t Hbound Htie.
      assert (HPQ : 0 < inject_Z (2 * P)) by (apply inject_Z_pos_lt; lia).
      assert (Hsc : bpow e * inject_Z P == 1).
      { unfold P. rewrite <- bpow_Z by lia. rewrite <- bpow_plus.
        replace (e + - e)%Z with 0%Z by lia. reflexivity. }
      assert (Hmul : (Fval m e - Fval t 0) * inject_Z (2 * P) ==
                      inject_Z (2 * (m - t * P))).
      { rewrite Fval_0. unfold Fval. replace (m - t * P)%Z with (m + - (t * P))%Z by ring.
        rewrite !inject_Z_mult, inject_Z_plus, inject_Z_opp, !inject_Z_mult.
        transitivity (inject_Z 2 * (inject_Z m * (bpow e * inject_Z P)) -
                      inject_Z 2 * inject_Z t * inject_Z P); [ring|].
        rewrite Hsc. ring. }
      assert (Habs : Qabs (Fval m e - Fval t 0) * inject_Z (2 * P) ==
                     inject_Z (Z.abs (2 * (m - t * P)))).
      { rewrite <- (Qabs_pos (inject_Z (2 * P))) by lra. rewrite <- Qabs_Qmult, Hmul. reflexivity. }
      assert (Hhalf : bpow (0 - 1) * inject_Z (2 * P) == inject_Z P)
        by (rewrite inject_Z_mult; unfold bpow; simpl; field).
      split.
      - apply (Qmult_le_r _ _ (inject_Z (2 * P)) HPQ). rewrite Habs, Hhalf.
        rewrite <- Zle_Qle. lia.
      - intros E. apply Htie.
        assert (E2 : inject_Z (Z.abs (2 * (m - t * P))) == inject_Z P)
          by (rewrite <- Habs, E, Hhalf; reflexivity).
        exact (proj1 (inject_Z_injective _ _) E2). }
    destruct (Z.compare_spec (2 * r) P) as [Heq|Hlt|Hgt].
    + destruct (Z.even q) eqn:Hq; apply Ht; try lia.
      * intros _. done.
      * intros _. rewrite Z.even_add, Hq. reflexivity.
    + apply Ht; lia.
    + apply Ht; lia.
Qed.

(** [round] of a float is [n] exactly when the float is finite and [n] is
    its nearest integer, ties to even. *)
Lemma py_round_ok_iff (f : float) (n : Z) :
  py_round f = Ok n <-> fin_float f = true ∧ RHE (fval f) 0 n.
Proof.
  assert (Hex : fin_float f = true -> exists k, py_round f = Ok k ∧ RHE (fval f) 0 k).
  { destruct f as [s| | |s m e]; try discriminate; intros _.
    - exists 0%Z. split; [done|]. rewrite fval_zero.
      eapply RHE_proper; [|apply (RHE_exact 0 0)]. reflexivity.
    - eexists. split; [reflexivity|].
      pose proof (round_half_even_pow2_rhe (Zpos m) e ltac:(lia)) as H.
      destruct s; simpl fval; [|exact H]. by apply RHE_opp. }
  split.
  - intros H. assert (Hf : fin_float f = true) by (destruct f; try discriminate; done).
    destruct (Hex Hf) as (k & Hk & Hr). rewrite H in Hk. injection Hk as ->. done.
  - intros [Hf Hr]. destruct (Hex Hf) as (k & Hk & Hr'). rewrite Hk.
    f_equal. eapply RHE_unique; eassumption.
Qed.

Lemma valid_digits s m e :
  valid_binary prec emax (S754_finite s m e) = true ->
  (Zdigits2 (Zpos m) <= prec)%Z ∧ (emin prec emax <= e)%Z.
Proof.
  unfold valid_binary, bounded, canonical_mantissa. intros H.
  apply andb_prop in H as [H _]. apply Z.eqb_eq in H. rewrite fexp_max in H.
  simpl Zdigits2. lia.
Qed.

Lemma Fval_lt_digits (m e : Z) :
  (0 < m)%Z -> Fval m e < bpow (Zdigits2 m + e).
Proof.
  intros Hm. pose proof (Zdigits2_bounds m Hm) as [_ H].
  assert (Hd0 : (0 <= Zdigits2 m)%Z) by (destruct m; simpl; lia).
  apply (Fval_lt _ _ e) in H. rewrite Fval_pow2 in H by done.
  replace (Zdigits2 m + e)%Z with (e + Zdigits2 m)%Z by lia. done.
Qed.

(** The value rounded in the normal range is at least as close to [q] as
    any valid binary64 number. *)
Lemma RHE_float_nearest (q : Q) D a (X : float) :
  RHE q (D - prec) a -> bpow (D - 1) <= q ->
  valid_binary prec emax X = true -> fin_float X = true ->
  Qabs (q - Fval a (D - prec)) <= Qabs (q - fval X).
Proof.
  intros Hr Hq Hv Hf. destruct X as [s| | |s m e]; try discriminate.
  - rewrite fval_zero. eapply Qle_trans; [apply (RHE_nearest _ _ _ 0 Hr)|].
    unfold Fval. simpl inject_Z. rewrite Qmult_0_l. apply Qle_refl.
  - destruct (valid_digits s m e Hv) as [Hd _].
    destruct (Z.le_gt_cases (D - prec) e) as [He|He].
    + set (k := (Zpos m * 2 ^ (e - (D - prec)))%Z).
      assert (Ek : Fval (Zpos m) e == Fval k (D - prec)).
      { unfold k. rewrite Fval_shift by lia. replace (D - prec + (e - (D - prec)))%Z with e by lia.
        reflexivity. }
      eapply Qle_trans; [apply (RHE_nearest _ _ _ (if s then - k else k)%Z Hr)|].
      destruct s; simpl fval.
      * unfold Fval in *. rewrite inject_Z_opp. rewrite Ek. apply Qle_lteq. right. apply Qabs_wd. ring.
      * rewrite Ek. apply Qle_refl.
    + assert (Hlt : Fval (Zpos m) e < bpow (D - 1)).
      { eapply Qlt_le_trans; [apply Fval_lt_digits; lia|]. apply bpow_le. lia. }
      assert (Hn : 0 <= Fval (Zpos m) e) by (apply Fval_nonneg; lia).
      assert (Hv' : fval (S754_finite s m e) < bpow (D - 1))
        by (destruct s; simpl fval; lra).
      eapply Qle_trans; [apply (RHE_nearest _ _ _ (2 ^ (prec - 1)) Hr)|].
      rewrite Fval_pow2 by (unfold prec; lia). replace (D - prec + (prec - 1))%Z with (D - 1)%Z by lia.
      rewrite !Qabs_pos by lra. lra.
Qed.
Lemma float_const_SCALE : float_const SCALE = S754_finite false 8589934592000000 (-33).
Proof. vm_compute. reflexivity. Qed.

Lemma Zdigits2_mul_ge (m n : positive) :
  (Zdigits2 (Zpos n) <= Zdigits2 (Zpos (m * n)))%Z.
Proof.
  pose proof (Zdigits2_bounds (Zpos n) ltac:(lia)) as [H1 _].
  pose proof (Zdigits2_bounds (Zpos (m * n)) ltac:(lia)) as [_ H2].
  destruct (Z.le_gt_cases (Zdigits2 (Zpos n)) (Zdigits2 (Zpos (m * n)))) as [|H]; [done|].
  assert (H3 : (2 ^ Zdigits2 (Zpos (m * n)) <= 2 ^ (Zdigits2 (Zpos n) - 1))%Z)
    by (apply Z.pow_le_mono_r; lia).
  assert (Zpos n <= Zpos (m * n))%Z by (rewrite Pos2Z.inj_mul; nia). lia.
Qed.

(** [x * SCALE] on a finite float of value at least [2^-1000 / SCALE]:
    the product rounded to nearest at its own binade. *)
Lemma f_mul_SCALE_rhe s m e :
  bpow (-1000) <= Fval (Zpos m) e * (1000000 # 1) ->
  let p := Fval (Zpos m) e * (1000000 # 1) in
  let r := f_mul (S754_finite s m e) (float_const SCALE) in
  exists D a, (bpow (D - 1) <= p < bpow D) ∧ RHE p (D - prec) a ∧
    (2 ^ (prec - 1) <= a <= 2 ^ prec)%Z ∧
    (fin_float r = true <-> (a < 2 ^ prec ∧ D <= emax ∨ a = 2 ^ prec ∧ D + 1 <= emax)%Z) ∧
    (fin_float r = true -> fval r == if s then - Fval a (D - prec) else Fval a (D - prec)).
Proof.
  intros Hp p r. subst r. rewrite float_const_SCALE. unfold f_mul, SFmul.
  rewrite Bool.xorb_false_r.
  set (ms := 8589934592000000%positive).
  assert (Ep : p == Fval (Zpos (m * ms)) (e + -33)).
  { unfold p. rewrite Fval_mul. apply Qmult_comp; [reflexivity|]. reflexivity. }
  assert (Hd : (53 <= Zdigits2 (Zpos (m * ms)))%Z).
  { pose proof (Zdigits2_mul_ge m ms) as H. change (Zdigits2 (Zpos ms)) with 53%Z in H. done. }
  assert (HD : (-1000 < Zdigits2 (Zpos (m * ms)) + (e + -33))%Z).
  { pose proof (Fval_lt_digits (Zpos (m * ms)) (e + -33) ltac:(lia)) as H.
    apply bpow_lt_inv. rewrite <- Ep in H. unfold p in H. lra. }
  destruct (round_aux_rhe s (Zpos (m * ms)) (e + -33) loc_Exact p) as [Hmag Hr].
  - lia.
  - exact Ep.
  - rewrite fexp_max. unfold prec. lia.
  - unfold emin, prec, emax. lia.
  - destruct Hr as (a & Ha). exists (Zdigits2 (Zpos (m * ms)) + (e + -33))%Z, a. split; [exact Hmag|exact Ha].
Qed.

Lemma new_location_cmp (d r : Z) :
  (0 < d)%Z -> (0 <= r < d)%Z ->
  new_location d r = if (r =? 0)%Z then loc_Exact else loc_Inexact (Z.compare (2 * r) d).
Proof.
  intros Hd Hr. unfold new_location, new_location_even, new_location_odd.
  destruct (Z.even d) eqn:He; [done|].
  destruct (Z.eqb_spec r 0) as [|Hr0]; [done|]. f_equal.
  assert (Hodd : (2 * r)%Z <> d).
  { intros E. rewrite <- E, Z.even_mul in He. discriminate. }
  destruct (Z.compare_spec (2 * r + 1) d); destruct (Z.compare_spec (2 * r) d); (done || lia).
Qed.

(** A remainder [r] of a division by [d] tells where
    [x = (q + r/d) 2^e] lies. *)
Lemma loc_sem_frac (x : Q) (q e d r : Z) :
  (0 < d)%Z -> (0 <= r < d)%Z ->
  x == Fval q e + inject_Z r / inject_Z d * bpow e ->
  loc_sem x q e (new_location d r).
Proof.
  intros Hd Hr Hx. rewrite new_location_cmp by done.
  set (f := inject_Z r / inject_Z d) in Hx.
  assert (HdQ : 0 < inject_Z d) by (apply inject_Z_pos_lt; lia).
  assert (Hf : f * inject_Z d == inject_Z r) by (unfold f; field; lra).
  pose proof (bpow_pos e) as Hb. pose proof (bpow_pred e) as Hp.
  pose proof (Fval_mid q e) as Hmid. pose proof (Fval_succ q e) as Hsucc.
  destruct (Z.eqb_spec r 0) as [->|Hr0]; simpl loc_sem.
  - assert (E : f == 0) by (unfold f; simpl; reflexivity). rewrite Hx, E. ring.
  - assert (Hf0 : 0 < f).
    { apply (Qmult_lt_r _ _ (inject_Z d) HdQ). rewrite Hf, Qmult_0_l. apply inject_Z_pos_lt. lia. }
    assert (Hf1 : f < 1).
    { apply (Qmult_lt_r _ _ (inject_Z d) HdQ). rewrite Hf, Qmult_1_l. rewrite <- Zlt_Qlt. lia. }
    assert (Hfe0 : 0 < f * bpow e) by (apply Qmult_lt_0_compat; done).
    assert (Hfe1 : f * bpow e < bpow e).
    { rewrite <- (Qmult_1_l (bpow e)) at 2. apply Qmult_lt_r; done. }
    split; [lra|].
    destruct (Z.compare_spec (2 * r) d) as [E|E|E].
    + assert (Hh : f * bpow e == bpow (e - 1)).
      { assert (Hh' : 2 * f == 1).
        { apply (Qmult_inj_r _ _ (inject_Z d)); [lra|].
          transitivity (inject_Z (2 * r)); [rewrite inject_Z_mult, <- Hf; simpl; ring|].
          rewrite E. ring. }
        rewrite Hp in *. transitivity ((2 * f) * bpow (e - 1)); [ring|]. rewrite Hh'. ring. }
      split; [split; [discriminate|lra]|]. split; [split; [lra|done]|]. split; [discriminate|lra].
    + assert (Hh : f * bpow e < bpow (e - 1)).
      { assert (Hh' : 2 * f < 1).
        { apply (Qmult_lt_r _ _ (inject_Z d) HdQ).
          assert (E2 : 2 * f * inject_Z d == inject_Z (2 * r)) by (rewrite inject_Z_mult, <- Hf; simpl; ring).
          rewrite E2.
          rewrite Qmult_1_l, <- Zlt_Qlt. done. }
        rewrite Hp in *. apply (Qmult_lt_r _ _ (bpow (e - 1))) in Hh'; [|apply bpow_pos]. lra. }
      split; [split; [lra|done]|]. split; [split; [discriminate|lra]|]. split; [discriminate|lra].
    + assert (Hh : bpow (e - 1) < f * bpow e).
      { assert (Hh' : 1 < 2 * f).
        { apply (Qmult_lt_r _ _ (inject_Z d) HdQ).
          assert (E2 : 2 * f * inject_Z d == inject_Z (2 * r)) by (rewrite inject_Z_mult, <- Hf; simpl; ring).
          rewrite E2.
          rewrite Qmult_1_l, <- Zlt_Qlt. lia. }
        rewrite Hp in *. apply (Qmult_lt_r _ _ (bpow (e - 1))) in Hh'; [|apply bpow_pos]. lra. }
      split; [split; [discriminate|lra]|]. split; [split; [discriminate|lra]|]. split; [lra|done].
Qed.
(** [SFdiv_core_binary] on [m / d]: the location it returns is the
    position of [m / d] with respect to [q 2^e]. *)
Lemma div_core_loc (m d : positive) :
  (Zdigits2 (Zpos d) <= 1074)%Z ->
  let x := inject_Z (Zpos m) / inject_Z (Zpos d) in
  let '(q, e, l) := SFdiv_core_binary prec emax (Zpos m) 0 (Zpos d) 0 in
  loc_sem x q e l.
Proof.
  intros Hd2 x. unfold SFdiv_core_binary.
  set (d1 := Zdigits2 (Zpos m)). set (d2 := Zdigits2 (Zpos d)).
  set (e' := Z.min _ _).
  assert (He' : e' = Z.min (fexp prec emax (d1 - d2)) 0) by reflexivity.
  set (s := Z.sub (Z.sub 0 0) e').
  assert (Hs : s = (- e')%Z) by reflexivity.
  assert (Hs0 : (0 <= s)%Z) by lia.
  assert (Hm' : match s with Zpos _ => Z.shiftl (Zpos m) s | Z0 => Zpos m | Zneg _ => 0%Z end
                = (Zpos m * 2 ^ s)%Z).
  { destruct s as [|p|p] eqn:Hse; [lia| |lia]. by rewrite Z.shiftl_mul_pow2. }
  rewrite Hm'.
  pose proof (Z_div_mod (Zpos m * 2 ^ s) (Zpos d) ltac:(lia)) as Hdm.
  destruct (Z.div_eucl (Zpos m * 2 ^ s) (Zpos d)) as [q r]. destruct Hdm as [Hqr Hr].
  apply loc_sem_frac; [lia|lia|].
  assert (Hd0 : 0 < inject_Z (Zpos d)) by (apply inject_Z_pos_lt; lia).
  assert (Hsc : bpow e' * inject_Z (2 ^ s) == 1).
  { rewrite <- bpow_Z by done. rewrite <- bpow_plus. rewrite Hs.
    replace (e' + - e')%Z with 0%Z by lia. reflexivity. }
  assert (Hx : x == inject_Z (Zpos m * 2 ^ s) / inject_Z (Zpos d) * bpow e').
  { unfold x. rewrite inject_Z_mult.
    transitivity (inject_Z (Zpos m) / inject_Z (Zpos d) * (bpow e' * inject_Z (2 ^ s)));
      [rewrite Hsc; ring|]. field. lra. }
  rewrite Hx, Hqr. unfold Fval. rewrite inject_Z_plus, inject_Z_mult. field. lra.
Qed.

Lemma fexp_mono D1 D2 : (D1 <= D2)%Z -> (fexp prec emax D1 <= fexp prec emax D2)%Z.
Proof. rewrite !fexp_max. lia. Qed.

(** [n / d] for [n > 0] and [n / d >= 2^-1000]: the quotient rounded to
    nearest at its own binade. *)
Lemma round_ratio_rhe (m d : positive) :
  (Zdigits2 (Zpos d) <= 1074)%Z ->
  let x := inject_Z (Zpos m) / inject_Z (Zpos d) in
  bpow (-1000) <= x ->
  let r := round_ratio (Zpos m) d in
  exists D a, (bpow (D - 1) <= x < bpow D) ∧ RHE x (D - prec) a ∧
    (2 ^ (prec - 1) <= a <= 2 ^ prec)%Z ∧
    (fin_float r = true <-> (a < 2 ^ prec ∧ D <= emax ∨ a = 2 ^ prec ∧ D + 1 <= emax)%Z) ∧
    (fin_float r = true -> fval r == Fval a (D - prec)).
Proof.
  intros Hd2 x Hx r. subst r. simpl round_ratio.
  pose proof (div_core_spec m d Hd2) as Hdiv. pose proof (div_core_loc m d Hd2) as Hloc.
  pose proof (ratio_lower m d) as Hlow. cbv zeta in Hdiv, Hloc. fold x in Hdiv, Hloc, Hlow.
  destruct (SFdiv_core_binary prec emax (Zpos m) 0 (Zpos d) 0) as [[q e] l].
  destruct Hdiv as (Hq & He & _ & _).
  pose proof (loc_sem_mag x q e l Hq Hloc) as Hmag.
  assert (H1 : (Zdigits2 (Zpos m) - Zdigits2 (Zpos d) <= Zdigits2 q + e)%Z).
  { assert (H : (Zdigits2 (Zpos m) - 1 - Zdigits2 (Zpos d) < Zdigits2 q + e)%Z)
      by (apply bpow_lt_inv; lra). lia. }
  assert (H2 : (-1000 < Zdigits2 q + e)%Z) by (apply bpow_lt_inv; lra).
  destruct (round_aux_rhe false q e l x Hq Hloc) as [_ (a & Ha)].
  - eapply Z.le_trans; [exact He|]. by apply fexp_mono.
  - unfold emin, prec, emax. lia.
  - exists (Zdigits2 q + e)%Z, a. split; [exact Hmag|exact Ha].
Qed.

Lemma binary_round_aux_opp s m e l :
  binary_round_aux prec emax (negb s) m e l = SFopp (binary_round_aux prec emax s m e l).
Proof.
  unfold binary_round_aux.
  destruct (shr_fexp prec emax m e l) as [mrs1 e1].
  destruct (shr_fexp prec emax _ e1 loc_Exact) as [mrs2 e2].
  destruct (shr_m mrs2) as [|p|p]; [reflexivity| |reflexivity].
  destruct (e2 <=? emax - prec)%Z; reflexivity.
Qed.

Lemma round_ratio_opp (m d : positive) :
  round_ratio (Zneg m) d = SFopp (round_ratio (Zpos m) d).
Proof.
  simpl. destruct (SFdiv_core_binary prec emax (Zpos m) 0 (Zpos d) 0) as [[q e] l].
  apply (binary_round_aux_opp false).
Qed.

Lemma f_mul_SCALE_opp (x : float) :
  f_mul (SFopp x) (float_const SCALE) = SFopp (f_mul x (float_const SCALE)).
Proof.
  rewrite float_const_SCALE. unfold f_mul, SFmul.
  destruct x as [s| | |s m e]; simpl SFopp; try reflexivity.
  - destruct s; reflexivity.
  - destruct s; reflexivity.
  - rewrite !Bool.xorb_false_r. apply binary_round_aux_opp.
Qed.

Lemma py_round_opp (f : float) :
  py_round (SFopp f) = (let? n := py_round f in Ok (- n)%Z).
Proof.
  destruct f as [s| | |s m e]; try reflexivity.
  destruct s; simpl; f_equal; lia.
Qed.

Lemma valid_binary_opp (x : float) :
  valid_binary prec emax (SFopp x) = valid_binary prec emax x.
Proof. by destruct x. Qed.

Lemma int_truediv_opp (m : positive) :
  int_truediv (Zneg m) SCALE = (let? y := int_truediv (Zpos m) SCALE in Ok (SFopp y)).
Proof.
  unfold int_truediv. rewrite round_ratio_opp.
  destruct (round_ratio (Zpos m) (Z.to_pos SCALE)); reflexivity.
Qed.
Lemma Fval_int a F : (0 <= F)%Z -> Fval a F == inject_Z (a * 2 ^ F).
Proof. intros HF. rewrite <- Fval_0, Fval_shift by done. reflexivity. Qed.

Lemma Fval_binade a D :
  (2 ^ 52 <= a < 2 ^ 53)%Z -> bpow (D - 1) <= Fval a (D - 53) < bpow D.
Proof.
  intros [H1 H2].
  pose proof (Fval_pow2 52 (D - 53) ltac:(lia)) as E1.
  pose proof (Fval_pow2 53 (D - 53) ltac:(lia)) as E2.
  replace (D - 53 + 52)%Z with (D - 1)%Z in E1 by lia.
  replace (D - 53 + 53)%Z with D in E2 by lia.
  apply (Fval_le _ _ (D - 53)) in H1. apply (Fval_lt _ _ (D - 53)) in H2. lra.
Qed.

Lemma Fval_top D : Fval (2 ^ 53) (D - 53) == bpow D.
Proof. rewrite Fval_pow2 by lia. replace (D - 53 + 53)%Z with D by lia. reflexivity. Qed.

Lemma bpow_0 : bpow 0 == 1.
Proof. reflexivity. Qed.

Lemma bpow_ge_1 e : (0 <= e)%Z -> 1 <= bpow e.
Proof. intros He. rewrite <- bpow_0. by apply bpow_le. Qed.

Lemma RHE_half x n : RHE x 0 n -> Qabs (x - inject_Z n) <= 1 # 2.
Proof. intros [H _]. rewrite Fval_0 in H. exact H. Qed.

(** The integer [round] of a finite product is below [2^1024]. *)
Lemma round_below_max (n : Z) D0 a0 :
  RHE (Fval a0 (D0 - 53)) 0 n -> (0 <= a0)%Z ->
  (a0 < 2 ^ 53 ∧ D0 <= 1024 ∨ a0 = 2 ^ 53 ∧ D0 + 1 <= 1024)%Z ->
  inject_Z n < bpow 1024.
Proof.
  intros Hr Ha Hfin. apply RHE_half, Qabs_Qle_condition in Hr as [Hr _].
  pose proof (bpow_succ 1023) as E. replace (1023 + 1)%Z with 1024%Z in E by lia.
  pose proof (bpow_ge_1 1023 ltac:(lia)). pose proof (bpow_ge_1 971 ltac:(lia)).
  assert (HZ : Fval a0 (D0 - 53) <= bpow 1023 ∨ Fval a0 (D0 - 53) <= bpow 1024 - bpow 971).
  { destruct Hfin as [[Ha1 HD]|[-> HD]].
    - destruct (Z.eq_dec D0 1024%Z) as [->|HD'].
      + right. assert (H1 : (a0 <= 2 ^ 53 - 1)%Z) by lia. apply (Fval_le _ _ (1024 - 53)) in H1.
        pose proof (Fval_succ (2 ^ 53 - 1) (1024 - 53)) as E3.
        replace (2 ^ 53 - 1 + 1)%Z with (2 ^ 53)%Z in E3 by lia.
        rewrite Fval_top in E3. change (1024 - 53)%Z with 971%Z in *. lra.
      + left. assert (H1 : (a0 <= 2 ^ 53)%Z) by lia. apply (Fval_le _ _ (D0 - 53)) in H1.
        rewrite Fval_top in H1. pose proof (bpow_le D0 1023 ltac:(lia)). lra.
    - left. rewrite Fval_top. apply bpow_le. lia. }
  destruct HZ; lra.
Qed.

(** Coordinates below [2^51]: the quotient is so close that the product
    rounds back within less than one half. *)
Lemma requant_small (n : Z) (t : Q) Dz az :
  (1 <= n < 2 ^ 51)%Z ->
  Qabs (t - inject_Z n) <= inject_Z n * (1 # 9007199254740992) ->
  bpow (Dz - 1) <= t < bpow Dz -> RHE t (Dz - 53) az ->
  RHE (Fval az (Dz - 53)) 0 n ∧ (Dz <= 52)%Z.
Proof.
  intros Hn Ht [HDlo HDhi] Hr.
  assert (HnQ : inject_Z n < 2251799813685248 # 1)
    by (change (2251799813685248 # 1) with (inject_Z (2 ^ 51)); rewrite <- Zlt_Qlt; lia).
  assert (Hn0 : 0 <= inject_Z n) by (change 0 with (inject_Z 0); rewrite <- Zle_Qle; lia).
  apply Qabs_Qle_condition in Ht.
  assert (HDz : (Dz <= 52)%Z).
  { assert (H : bpow (Dz - 1) < bpow 52) by (change (bpow 52) with (4503599627370496 # 1); lra).
    apply bpow_lt_inv in H. lia. }
  split; [|done].
  assert (Eg : Fval (n * 2 ^ (53 - Dz)) (Dz - 53) == inject_Z n).
  { rewrite Fval_shift by lia. replace (Dz - 53 + (53 - Dz))%Z with 0%Z by lia. apply Fval_0. }
  pose proof (RHE_nearest _ _ _ (n * 2 ^ (53 - Dz)) Hr) as Hnear. rewrite Eg in Hnear.
  assert (Hlt : Qabs (t - inject_Z n) < 1 # 4) by (apply Qabs_Qlt_condition; lra).
  assert (Hz : Qabs (Fval az (Dz - 53) - Fval n 0) < bpow (0 - 1)).
  { rewrite Fval_0. change (bpow (0 - 1)) with (1 # 2).
    pose proof (Qabs_ge (t - Fval az (Dz - 53))) as [A1 A2].
    pose proof (Qabs_ge (t - inject_Z n)) as [B1 B2].
    apply Qabs_Qlt_condition. lra. }
  split; [lra|]. intros E. rewrite E in Hz. lra.
Qed.

(** Powers of two: the quotient [2^k / SCALE] and the product are
    computed exactly enough to give [2^k] back. *)
Lemma requant_pow2 (k : Z) Dy ay Dz az :
  let q := bpow k * (1 # 1000000) in
  bpow (Dy - 1) <= q < bpow Dy -> RHE q (Dy - 53) ay ->
  let t := Fval ay (Dy - 53) * (1000000 # 1) in
  bpow (Dz - 1) <= t < bpow Dz -> RHE t (Dz - 53) az ->
  Dy = (k - 19)%Z ∧ ay = 4722366482869645%Z ∧ Dz = k ∧ az = (2 ^ 53)%Z.
Proof.
  intros q Hq Hry t Ht Hrz.
  set (B := bpow (k - 72)). assert (HB : 0 < B) by apply bpow_pos.
  assert (Esh : forall j, bpow (k - 72 + j) == B * bpow j) by (intros j; apply bpow_plus).
  assert (Ek : bpow k == B * (4722366482869645213696 # 1))
    by (pose proof (Esh 72%Z) as E72; replace (k - 72 + 72)%Z with k in E72 by lia;
        rewrite E72; change (bpow 72) with (4722366482869645213696 # 1); reflexivity).
  assert (HDy : Dy = (k - 19)%Z).
  { apply (mag_unique q); [done|].
    replace (k - 19 - 1)%Z with (k - 72 + 52)%Z by lia. replace (k - 19)%Z with (k - 72 + 53)%Z by lia.
    rewrite !Esh. unfold q. rewrite Ek. change (bpow 52) with (4503599627370496 # 1).
    change (bpow 53) with (9007199254740992 # 1). split; nra. }
  subst Dy. replace (k - 19 - 53)%Z with (k - 72)%Z in * by lia.
  assert (Hay : ay = 4722366482869645%Z).
  { apply (RHE_unique q (k - 72)); [done|].
    assert (Ed : q - Fval 4722366482869645 (k - 72) == B * (213696 # 1000000)).
    { unfold q, Fval. rewrite Ek. fold B. simpl. ring. }
    assert (Eh : bpow (k - 72 - 1) == B * (1 # 2)).
    { replace (k - 72 - 1)%Z with (k - 72 + -1)%Z by lia. rewrite Esh. reflexivity. }
    assert (Hpos : 0 < B * (213696 # 1000000)) by nra.
    split.
    - rewrite Ed, Eh, Qabs_pos by lra. nra.
    - rewrite Ed, Eh, Qabs_pos by lra. intros E. nra. }
  subst ay.
  assert (Et : t == B * (4722366482869645000000 # 1)).
  { unfold t, Fval. replace (k - 19 - 53)%Z with (k - 72)%Z by lia. fold B. change (inject_Z 4722366482869645) with (4722366482869645 # 1). ring. }
  assert (HDz : Dz = k).
  { apply (mag_unique t); [done|].
    replace (k - 1)%Z with (k - 72 + 71)%Z by lia. rewrite Esh, Et, Ek.
    change (bpow 71) with (2361183241434822606848 # 1). split; nra. }
  subst Dz. split; [done|]. split; [done|]. split; [done|].
  apply (RHE_unique t (k - 53)); [done|].
  assert (Ed : t - Fval (2 ^ 53) (k - 53) == - (B * (213696 # 1))).
  { rewrite Fval_top, Et, Ek. ring. }
  assert (Eh : bpow (k - 53 - 1) == B * (262144 # 1)).
  { replace (k - 53 - 1)%Z with (k - 72 + 18)%Z by lia. rewrite Esh. reflexivity. }
  assert (Hpos : 0 < B * (213696 # 1)) by nra.
  split.
  - rewrite Ed, Eh, Qabs_opp, Qabs_pos by lra. nra.
  - rewrite Ed, Eh, Qabs_opp, Qabs_pos by lra. intros E. nra.
Qed.
Lemma inject_Z_sub a b : inject_Z (a - b) == inject_Z a - inject_Z b.
Proof. unfold Z.sub. rewrite inject_Z_plus, inject_Z_opp. ring. Qed.

(** A product [p0] that rounds to [v], strictly inside a binade, and a
    value [t] at least as close to [v]: [t] rounds to [v] too. *)
Lemma requant_mid (v p0 t : Q) (k D0 a0 Dz az : Z) :
  bpow k < v < bpow (k + 1) ->
  Fval a0 (D0 - 53) == v -> RHE p0 (D0 - 53) a0 -> (2 ^ 52 <= a0 <= 2 ^ 53)%Z ->
  Qabs (t - v) <= Qabs (p0 - v) ->
  bpow (Dz - 1) <= t < bpow Dz -> RHE t (Dz - 53) az ->
  Dz = D0 ∧ az = a0 ∧ (a0 < 2 ^ 53)%Z.
Proof.
  intros Hv Ev Hr0 Ha Hclose Ht Hrz.
  assert (Ha1 : a0 <> (2 ^ 53)%Z).
  { intros ->. rewrite Fval_top in Ev. rewrite <- Ev in Hv. destruct Hv as [H1 H2].
    apply bpow_lt_inv in H1, H2. lia. }
  assert (HD0 : D0 = (k + 1)%Z).
  { apply (mag_unique v).
    - rewrite <- Ev. apply Fval_binade. lia.
    - replace (k + 1 - 1)%Z with k by lia. lra. }
  subst D0. set (F := (k + 1 - 53)%Z) in *.
  assert (E52 : Fval (2 ^ 52) F == bpow k)
    by (unfold F; rewrite Fval_pow2 by lia; replace (k + 1 - 53 + 52)%Z with k by lia; reflexivity).
  assert (Hlo : bpow k + bpow F <= v).
  { assert (H : Fval (2 ^ 52) F < Fval a0 F) by (rewrite E52, Ev; lra).
    apply Fval_lt_inv in H. assert (H' : (2 ^ 52 + 1 <= a0)%Z) by lia.
    apply (Fval_le _ _ F) in H'. rewrite Fval_succ, E52 in H'. lra. }
  assert (Hhi : v <= bpow (k + 1) - bpow F).
  { assert (H' : (a0 <= 2 ^ 53 - 1)%Z) by lia. apply (Fval_le _ _ F) in H'.
    pose proof (Fval_succ (2 ^ 53 - 1) F) as E3.
    replace (2 ^ 53 - 1 + 1)%Z with (2 ^ 53)%Z in E3 by lia.
    unfold F in E3. rewrite Fval_top in E3. fold F in E3. lra. }
  pose proof (bpow_pred F) as Hp. pose proof (bpow_pos (F - 1)) as Hb.
  destruct Hr0 as [Hr0 Hr0t]. rewrite Ev in Hr0, Hr0t.
  pose proof (Qabs_ge (t - v)) as [T1 T2].
  assert (HDz : Dz = (k + 1)%Z).
  { apply (mag_unique t); [done|]. replace (k + 1 - 1)%Z with k by lia. lra. }
  subst Dz. fold F in Hrz.
  assert (Hrt : RHE t F a0).
  { split; rewrite Ev.
    - lra.
    - intros E. apply Hr0t. apply Qle_antisym; [done|]. rewrite <- E. done. }
  split; [done|]. split; [|lia]. eapply RHE_unique; eassumption.
Qed.

Lemma Fval_exp_le a F F' : (0 <= a)%Z -> (F <= F')%Z -> Fval a F <= Fval a F'.
Proof.
  intros Ha HF. unfold Fval. rewrite !(Qmult_comm (inject_Z a)). apply Qmult_le_compat_r.
  - by apply bpow_le.
  - change 0 with (inject_Z 0). by rewrite <- Zle_Qle.
Qed.

(** A product that rounds to [z0 <> n] with [round(z0) = n > 2^51]: [n]
    is even, below [2^52], and [z0 = n +- 1/2]. *)
Lemma z0_tie (n : Z) D0 a0 :
  (2 ^ 51 < n)%Z -> n <> (2 ^ 52)%Z ->
  RHE (Fval a0 (D0 - 53)) 0 n -> (2 ^ 52 <= a0 <= 2 ^ 53)%Z ->
  ~ (Fval a0 (D0 - 53) == inject_Z n) ->
  (n < 2 ^ 52)%Z ∧ Z.even n = true.
Proof.
  intros Hn Hn52 Hr Ha Hne. set (F0 := (D0 - 53)%Z) in *.
  pose proof (RHE_half _ _ Hr) as Hh. apply Qabs_Qle_condition in Hh.
  assert (HnQ : (2251799813685249 # 1) <= inject_Z n)
    by (change (2251799813685249 # 1) with (inject_Z (2 ^ 51 + 1)); rewrite <- Zle_Qle; lia).
  assert (Htop : forall F, Fval a0 F <= Fval (2 ^ 53) F) by (intros F; apply Fval_le; lia).
  assert (HF0 : (-1 <= F0)%Z).
  { destruct (Z.le_gt_cases (-1) F0) as [|H]; [done|].
    pose proof (Fval_exp_le (2 ^ 53) F0 (-2) ltac:(lia) ltac:(lia)) as H1.
    change (Fval (2 ^ 53) (-2)) with (Fval 9007199254740992 (-2)) in H1.
    assert (E : Fval 9007199254740992 (-2) == 2251799813685248 # 1) by reflexivity.
    pose proof (Htop F0). lra. }
  set (j := (a0 * 2 ^ (F0 + 1))%Z).
  assert (Ej : Fval a0 F0 == inject_Z j * (1 # 2)).
  { pose proof (Fval_shift a0 (-1) (F0 + 1) ltac:(lia)) as E.
    replace (-1 + (F0 + 1))%Z with F0 in E by lia. fold j in E. rewrite <- E.
    unfold Fval. change (bpow (-1)) with (1 # 2). reflexivity. }
  assert (Hj : (2 * n - 1 <= j <= 2 * n + 1)%Z).
  { rewrite Ej in Hh. destruct Hh as [H1 H2]. split.
    - rewrite Zle_Qle. rewrite inject_Z_sub, inject_Z_mult. change (inject_Z 2) with 2. change (inject_Z 1) with 1. lra.
    - rewrite Zle_Qle. rewrite inject_Z_plus, inject_Z_mult. change (inject_Z 2) with 2. change (inject_Z 1) with 1. lra. }
  assert (Hj2 : j <> (2 * n)%Z).
  { intros E. apply Hne. rewrite Ej, E, inject_Z_mult. change (inject_Z 2) with 2. ring. }
  split.
  - destruct (Z.lt_ge_cases n (2 ^ 52)) as [|H]; [done|]. exfalso.
    assert (H' : (2 ^ 52 + 1 <= n)%Z) by lia.
    assert (HnQ' : (4503599627370497 # 1) <= inject_Z n)
      by (change (4503599627370497 # 1) with (inject_Z (2 ^ 52 + 1)); rewrite <- Zle_Qle; lia).
    assert (HF0' : (0 <= F0)%Z).
    { destruct (Z.le_gt_cases 0 F0) as [|H1]; [done|].
      pose proof (Fval_exp_le (2 ^ 53) F0 (-1) ltac:(lia) ltac:(lia)) as H2.
      change (Fval (2 ^ 53) (-1)) with (Fval 9007199254740992 (-1)) in H2.
      assert (E : Fval 9007199254740992 (-1) == 4503599627370496 # 1) by reflexivity.
      pose proof (Htop F0). lra. }
    assert (Hev : Z.even j = true).
    { unfold j. rewrite Z.pow_add_r, Z.pow_1_r by lia. rewrite Z.even_mul, Z.even_mul.
      rewrite Z.even_2. rewrite !Bool.orb_true_r. reflexivity. }
    assert (Hjo : j = (2 * n - 1)%Z ∨ j = (2 * n + 1)%Z) by lia.
    destruct Hjo as [E|E]; rewrite E in Hev.
    + rewrite Z.even_sub, Z.even_mul in Hev. simpl in Hev. discriminate.
    + rewrite Z.even_add, Z.even_mul in Hev. simpl in Hev. discriminate.
  - destruct Hr as [_ Hrt]. apply Hrt. rewrite Fval_0, Ej.
    assert (Hjo : j = (2 * n - 1)%Z ∨ j = (2 * n + 1)%Z) by lia.
    change (bpow (0 - 1)) with (1 # 2).
    destruct Hjo as [E|E]; rewrite E.
    + rewrite inject_Z_sub, inject_Z_mult. change (inject_Z 2) with 2. change (inject_Z 1) with 1.
      assert (E2 : (2 * inject_Z n - 1) * (1 # 2) - inject_Z n == - (1 # 2)) by ring.
      rewrite E2. reflexivity.
    + rewrite inject_Z_plus, inject_Z_mult. change (inject_Z 2) with 2. change (inject_Z 1) with 1.
      assert (E2 : (2 * inject_Z n + 1) * (1 # 2) - inject_Z n == 1 # 2) by ring.
      rewrite E2. reflexivity.
Qed.

(** An even [n] in [(2^51, 2^52)]: any rounding of a value within
    [n 2^-53] of [n] is within one half of [n], and ties go to [n]. *)
Lemma requant_tie (n : Z) (t : Q) Dz az :
  (2 ^ 51 < n < 2 ^ 52)%Z -> Z.even n = true ->
  Qabs (t - inject_Z n) <= inject_Z n * (1 # 9007199254740992) ->
  bpow (Dz - 1) <= t < bpow Dz -> RHE t (Dz - 53) az ->
  RHE (Fval az (Dz - 53)) 0 n ∧ Dz = 52%Z.
Proof.
  intros Hn Hev Ht HtD Hr.
  assert (Hlo : (2251799813685249 # 1) <= inject_Z n)
    by (change (2251799813685249 # 1) with (inject_Z (2 ^ 51 + 1)); rewrite <- Zle_Qle; lia).
  assert (Hhi : inject_Z n <= 4503599627370495 # 1)
    by (change (4503599627370495 # 1) with (inject_Z (2 ^ 52 - 1)); rewrite <- Zle_Qle; lia).
  apply Qabs_Qle_condition in Ht.
  assert (HDz : Dz = 52%Z).
  { apply (mag_unique t); [done|].
    change (bpow (52 - 1)) with (2251799813685248 # 1). change (bpow 52) with (4503599627370496 # 1).
    lra. }
  subst Dz. split; [|done]. change (52 - 53)%Z with (-1)%Z in *.
  assert (Eg : Fval (2 * n) (-1) == inject_Z n)
    by (unfold Fval; rewrite inject_Z_mult; change (bpow (-1)) with (1 # 2); change (inject_Z 2) with 2; ring).
  pose proof (RHE_nearest _ _ _ (2 * n) Hr) as Hnear. rewrite Eg in Hnear.
  assert (Ez : Fval az (-1) == inject_Z az * (1 # 2)) by reflexivity.
  pose proof (Qabs_ge (t - Fval az (-1))) as [A1 A2].
  assert (Hlt : Qabs (t - inject_Z n) < 1 # 2) by (apply Qabs_Qlt_condition; lra).
  assert (Hz1 : inject_Z az < 2 * inject_Z n + 2) by (rewrite Ez in *; lra).
  assert (Hz2 : 2 * inject_Z n - 2 < inject_Z az) by (rewrite Ez in *; lra).
  assert (Haz : (2 * n - 1 <= az <= 2 * n + 1)%Z).
  { split.
    - assert (H : (2 * n - 2 < az)%Z).
      { rewrite Zlt_Qlt, inject_Z_sub, inject_Z_mult. change (inject_Z 2) with 2. done. }
      lia.
    - assert (H : (az < 2 * n + 2)%Z).
      { rewrite Zlt_Qlt, inject_Z_plus, inject_Z_mult. change (inject_Z 2) with 2. done. }
      lia. }
  split.
  - rewrite Fval_0, Ez. change (bpow (0 - 1)) with (1 # 2). apply Qabs_Qle_condition.
    destruct Haz as [H1 H2]. rewrite Zle_Qle, inject_Z_sub, inject_Z_mult in H1.
    rewrite Zle_Qle, inject_Z_plus, inject_Z_mult in H2.
    change (inject_Z 2) with 2 in H1, H2. change (inject_Z 1) with 1 in H1, H2. lra.
  - intros _. done.
Qed.
Lemma pow2_Q k : (0 <= k)%Z -> inject_Z (2 ^ k) == bpow k.
Proof. intros Hk. rewrite bpow_Z by done. reflexivity. Qed.

(** The combination of the cases: [n >= 1] is the [round] of a product
    [vX * SCALE] rounded at [2^(D0-53)]; the quotient [n / SCALE] rounded
    at [2^(Dy-53)] is at least as close to [n / SCALE] as [vX]; then its
    product with [SCALE], rounded at [2^(Dz-53)], rounds back to [n] and
    does not overflow. *)
Lemma requant_core (n : Z) (vX : Q) (D0 a0 Dy ay Dz az : Z) :
  (1 <= n)%Z ->
  RHE (vX * (1000000 # 1)) (D0 - 53) a0 -> (2 ^ 52 <= a0 <= 2 ^ 53)%Z ->
  RHE (Fval a0 (D0 - 53)) 0 n ->
  (a0 < 2 ^ 53 ∧ D0 <= 1024 ∨ a0 = 2 ^ 53 ∧ D0 + 1 <= 1024)%Z ->
  let q := inject_Z n * (1 # 1000000) in
  bpow (Dy - 1) <= q < bpow Dy -> RHE q (Dy - 53) ay ->
  Qabs (q - Fval ay (Dy - 53)) <= Qabs (q - vX) ->
  let t := Fval ay (Dy - 53) * (1000000 # 1) in
  bpow (Dz - 1) <= t < bpow Dz -> RHE t (Dz - 53) az -> (2 ^ 52 <= az <= 2 ^ 53)%Z ->
  RHE (Fval az (Dz - 53)) 0 n ∧
  (az < 2 ^ 53 ∧ Dz <= 1024 ∨ az = 2 ^ 53 ∧ Dz + 1 <= 1024)%Z.
Proof.
  intros Hn Hr0 Ha0 Hz0 Hfin0 q Hq Hry Hnear t Ht Hrz Haz.
  set (p0 := vX * (1000000 # 1)) in *.
  assert (Hmax : inject_Z n < bpow 1024) by (eapply round_below_max; [exact Hz0|lia|exact Hfin0]).
  (* the error of the quotient, scaled: at most [n 2^-53] *)
  assert (Hb : Qabs (t - inject_Z n) <= inject_Z n * (1 # 9007199254740992)).
  { destruct Hry as [Hry _]. apply Qabs_Qle_condition in Hry.
    assert (E : bpow (Dy - 53 - 1) == bpow (Dy - 1) * (1 # 9007199254740992)).
    { replace (Dy - 53 - 1)%Z with (Dy - 1 + -53)%Z by lia. rewrite bpow_plus. reflexivity. }
    rewrite E in Hry. apply Qabs_Qle_condition. unfold t, q in *. lra. }
  (* at least as close to [n] as the original product *)
  assert (Ha : Qabs (t - inject_Z n) <= Qabs (p0 - inject_Z n)).
  { assert (E1 : t - inject_Z n == (1000000 # 1) * - (q - Fval ay (Dy - 53))) by (unfold t, q; ring).
    assert (E2 : p0 - inject_Z n == (1000000 # 1) * - (q - vX)) by (unfold p0, q; ring).
    rewrite E1, E2, !Qabs_Qmult, !Qabs_opp. change (Qabs (1000000 # 1)) with (1000000 # 1).
    apply Qmult_le_l; [reflexivity|done]. }
  assert (Hfinz : forall D, (D <= 1023)%Z -> (az < 2 ^ 53 ∧ D <= 1024 ∨ az = 2 ^ 53 ∧ D + 1 <= 1024)%Z).
  { intros D HD. destruct (Z.eq_dec az (2 ^ 53)%Z); [right|left]; lia. }
  destruct (Z.lt_ge_cases n (2 ^ 51)%Z) as [Hs|Hl].
  - destruct (requant_small n t Dz az ltac:(lia) Hb Ht Hrz) as [Hr HDz].
    split; [done|]. apply Hfinz. lia.
  - set (k := (Zdigits2 n - 1)%Z).
    pose proof (Zdigits2_bounds n ltac:(lia)) as Hk. replace (Zdigits2 n) with (k + 1)%Z in Hk by lia.
    replace (k + 1 - 1)%Z with k in Hk by lia.
    assert (Hk51 : (51 <= k)%Z).
    { destruct (Z.le_gt_cases 51 k) as [|H]; [done|].
      assert (2 ^ (k + 1) <= 2 ^ 51)%Z by (apply Z.pow_le_mono_r; lia). lia. }
    assert (HkQ : bpow k <= inject_Z n < bpow (k + 1)).
    { rewrite <- !pow2_Q by lia. split; [rewrite <- Zle_Qle|rewrite <- Zlt_Qlt]; lia. }
    destruct (Z.eq_dec n (2 ^ k)%Z) as [Hpow|Hnpow].
    + (* a power of two *)
      assert (Eq : q == bpow k * (1 # 1000000)) by (unfold q; rewrite Hpow, pow2_Q by lia; reflexivity).
      assert (Hq' : bpow (Dy - 1) <= bpow k * (1 # 1000000) < bpow Dy) by (rewrite <- Eq; done).
      assert (Hry' : RHE (bpow k * (1 # 1000000)) (Dy - 53) ay) by (eapply RHE_proper; [exact Eq|done]).
      destruct (requant_pow2 k Dy ay Dz az Hq' Hry' Ht Hrz) as (_ & _ & -> & ->).
      split.
      * eapply RHE_proper; [|apply (RHE_exact n 0)]. rewrite Fval_0, Fval_top, Hpow, pow2_Q by lia.
        reflexivity.
      * right. split; [done|]. assert (H : bpow k < bpow 1024) by lra.
        apply bpow_lt_inv in H. lia.
    + assert (Hlt : bpow k < inject_Z n).
      { rewrite <- pow2_Q by lia. rewrite <- Zlt_Qlt. lia. }
      destruct (Qeq_dec (Fval a0 (D0 - 53)) (inject_Z n)) as [Ez|Ez].
      * (* the original product rounded to [n] itself *)
        destruct (requant_mid (inject_Z n) p0 t k D0 a0 Dz az) as (-> & -> & Ha1);
          try done; try lra.
      * (* the original product rounded to [n +- 1/2] *)
        assert (Hn52 : n <> (2 ^ 52)%Z).
        { intros E. apply Hnpow. subst k. rewrite E. reflexivity. }
        destruct (z0_tie n D0 a0) as [Hn52' Hev]; try done.
        { assert (2 ^ 51 <= 2 ^ k)%Z by (apply Z.pow_le_mono_r; lia). lia. }
        destruct (requant_tie n t Dz az) as [Hr HDz]; try done.
        { assert (2 ^ 51 <= 2 ^ k)%Z by (apply Z.pow_le_mono_r; lia). lia. }
        split; [done|]. apply Hfinz. lia.
Qed.

(** The quotient of an integer below [2^1024] by [SCALE] lies below
    [2^1005]. *)
Lemma quot_binade_max (n : Z) Dy :
  inject_Z n < bpow 1024 -> bpow (Dy - 1) <= inject_Z n * (1 # 1000000) -> (Dy <= 1005)%Z.
Proof.
  intros Hn Hq.
  assert (E : bpow 1024 * (1 # 1000000) < bpow 1005).
  { replace 1024%Z with (1005 + 19)%Z by lia. rewrite bpow_plus.
    change (bpow 19) with (524288 # 1). pose proof (bpow_pos 1005). nra. }
  assert (H : bpow (Dy - 1) < bpow 1005) by nra.
  apply bpow_lt_inv in H. lia.
Qed.

Lemma fin_pos_shape (f : float) :
  fin_float f = true -> 0 < fval f -> exists m e, f = S754_finite false m e.
Proof.
  destruct f as [s|s| |s m e]; intros Hf H; try discriminate.
  all: try (cbv [fval] in H; lra).
  destruct s; [|by exists m, e]. simpl fval in H.
  pose proof (Fval_nonneg (Zpos m) e ltac:(lia)). lra.
Qed.
Lemma RHE_pos_lower x (n : Z) : RHE x 0 n -> (1 <= n)%Z -> 1 # 2 <= x.
Proof.
  intros Hr Hn. apply RHE_half, Qabs_Qle_condition in Hr.
  assert (1 <= inject_Z n) by (change 1 with (inject_Z 1); by rewrite <- Zle_Qle). lra.
Qed.

Lemma Fval_pos a F : (0 < a)%Z -> 0 < Fval a F.
Proof.
  intros Ha. unfold Fval. apply Qmult_lt_0_compat; [|apply bpow_pos].
  change 0 with (inject_Z 0). by rewrite <- Zlt_Qlt.
Qed.

Lemma Fval_binade_low a D : (2 ^ 52 <= a)%Z -> bpow (D - 1) <= Fval a (D - 53).
Proof.
  intros Ha. pose proof (Fval_pow2 52 (D - 53) ltac:(lia)) as E.
  replace (D - 53 + 52)%Z with (D - 1)%Z in E by lia. rewrite <- E. by apply Fval_le.
Qed.

(** A positive integer that [round(x * SCALE)] returns for a double [x]
    comes back from [n / SCALE] unchanged. *)
Lemma requantize_pos (m : positive) (X : float) :
  valid_binary prec emax X = true ->
  py_round (f_mul X (float_const SCALE)) = Ok (Zpos m) ->
  exists y, int_truediv (Zpos m) SCALE = Ok y ∧
    py_round (f_mul y (float_const SCALE)) = Ok (Zpos m).
Proof.
  intros HvX Hz. apply py_round_ok_iff in Hz as [Hfz Hrz].
  pose proof (RHE_pos_lower _ _ Hrz ltac:(lia)) as Hz_half.
  destruct X as [sx|sx| |sx mx ex].
  - exfalso. assert (E : fval (f_mul (S754_zero sx) (float_const SCALE)) == 0)
      by (destruct sx; vm_compute; reflexivity).
    lra.
  - exfalso. destruct sx; vm_compute in Hfz; discriminate.
  - exfalso. vm_compute in Hfz; discriminate.
  - set (p := Fval (Zpos mx) ex * (1000000 # 1)).
    assert (Hp0 : 0 <= p) by (unfold p; pose proof (Fval_nonneg (Zpos mx) ex ltac:(lia)); lra).
    assert (HXS : fval (S754_finite sx mx ex) * fval (float_const SCALE) ==
                  if sx then - p else p).
    { rewrite fval_SCALE. unfold p. destruct sx; cbn [fval]; ring. }
    destruct (Qlt_le_dec p (bpow (-1000))) as [Hsmall|Hbig].
    + (* too small: the product rounds to 0 *)
      exfalso.
      destruct (f_mul_error (S754_finite sx mx ex) (float_const SCALE) (-900))
        as [_ Herr]; [reflexivity|apply fin_SCALE| | vm_compute; congruence | vm_compute; congruence |].
      { rewrite HXS. assert (bpow (-1000) <= bpow (-900)) by (apply bpow_le; lia).
        destruct sx; [rewrite Qabs_opp|]; rewrite Qabs_pos by done; lra. }
      rewrite HXS in Herr. apply Qabs_Qle_condition in Herr.
      assert (bpow (-1000) <= bpow (-10)) by (apply bpow_le; lia).
      assert (bpow (-900 - prec) <= bpow (-10)) by (apply bpow_le; unfold prec; lia).
      assert (E10 : bpow (-10) == 1 # 1024) by reflexivity.
      destruct sx; lra.
    + destruct (f_mul_SCALE_rhe sx mx ex Hbig) as (D0 & a0 & HD0 & Hr0 & Ha0 & Hfin0 & Hv0).
      fold p in HD0, Hr0.
      pose proof (Hv0 Hfz) as Hv0'. apply Hfin0 in Hfz. clear Hfin0 Hv0.
      change prec with 53%Z in *.
      destruct sx.
      { exfalso. pose proof (Fval_nonneg a0 (D0 - 53) ltac:(lia)). lra. }
      cbv beta iota in Hv0'.
      assert (Hz0 : RHE (Fval a0 (D0 - 53)) 0 (Zpos m)) by (eapply RHE_proper; [exact Hv0'|exact Hrz]).
      (* the quotient [m / SCALE] *)
      set (q := inject_Z (Zpos m) * (1 # 1000000)).
      assert (Hq20 : bpow (-20) <= q).
      { assert (E20 : bpow (-20) == 1 # 1048576) by reflexivity. rewrite E20. unfold q.
        assert (1 <= inject_Z (Zpos m)) by (change 1 with (inject_Z 1); rewrite <- Zle_Qle; lia). lra. }
      assert (Hqb : bpow (-1000) <= inject_Z (Zpos m) / inject_Z (Zpos (Z.to_pos SCALE))).
      { rewrite div_SCALE. fold q. assert (bpow (-1000) <= bpow (-20)) by (apply bpow_le; lia). lra. }
      destruct (round_ratio_rhe m (Z.to_pos SCALE) ltac:(vm_compute; congruence) Hqb)
        as (Dy & ay & HDy & Hry & Hay & Hfy & Hvy).
      change (inject_Z (Zpos m) / inject_Z (Zpos (Z.to_pos SCALE))) with q in HDy, Hry.
      set (Y := round_ratio (Zpos m) (Z.to_pos SCALE)) in *.
      unfold prec in Hay.
      assert (HDy5 : (Dy <= 1005)%Z).
      { eapply quot_binade_max; [eapply round_below_max; [exact Hz0|lia|exact Hfz]|apply HDy]. }
      assert (HfY : fin_float Y = true).
      { apply Hfy. unfold prec, emax in *. destruct (Z.eq_dec ay (2 ^ 53)%Z); [right|left]; lia. }
      pose proof (Hvy HfY) as HvY. clear Hfy Hvy.
      destruct (fin_pos_shape Y HfY) as (my & ey & EY).
      { rewrite HvY. apply Fval_pos. lia. }
      (* the quotient is the double nearest to [m / SCALE] *)
      pose proof (RHE_float_nearest q Dy ay (S754_finite false mx ex) Hry (proj1 HDy) HvX eq_refl)
        as Hnear.
      cbn [fval] in Hnear. change prec with 53%Z in *.
      (* its product with [SCALE] *)
      assert (EYv : Fval (Zpos my) ey == Fval ay (Dy - 53)) by (rewrite <- HvY, EY; reflexivity).
      assert (HDy20 : (-19 <= Dy)%Z).
      { assert (H : bpow (-20) < bpow Dy) by lra. apply bpow_lt_inv in H. lia. }
      assert (Htb : bpow (-1000) <= Fval (Zpos my) ey * (1000000 # 1)).
      { rewrite EYv. pose proof (Fval_binade_low ay Dy ltac:(lia)).
        assert (bpow (-1000) <= bpow (Dy - 1)) by (apply bpow_le; lia).
        pose proof (bpow_pos (-1000)). lra. }
      destruct (f_mul_SCALE_rhe false my ey Htb) as (Dz & az & HDz & Hrz' & Haz & Hfz' & Hvz).
      change prec with 53%Z in *.
      assert (Et : Fval (Zpos my) ey * (1000000 # 1) == Fval ay (Dy - 53) * (1000000 # 1))
        by (rewrite EYv; reflexivity).
      rewrite Et in HDz. apply (RHE_proper _ _ _ _ Et) in Hrz'.
      destruct (requant_core (Zpos m) (Fval (Zpos mx) ex) D0 a0 Dy ay Dz az)
        as [Hn Hfinz]; try done; try lia.
      exists Y. split; [by apply int_truediv_fin|].
      rewrite EY. apply py_round_ok_iff. apply Hfz' in Hfinz. split; [done|].
      pose proof (Hvz Hfinz) as Hvz'. cbv beta iota in Hvz'.
      eapply RHE_proper; [symmetry; exact Hvz'|exact Hn].
Qed.
(** Every integer that [round(x * SCALE)] returns for a double [x] comes
    back from [n / SCALE] unchanged. *)
Lemma requantize_quantized (n : Z) (X : float) :
  valid_binary prec emax X = true ->
  py_round (f_mul X (float_const SCALE)) = Ok n ->
  exists y, int_truediv n SCALE = Ok y ∧ py_round (f_mul y (float_const SCALE)) = Ok n.
Proof.
  intros HvX Hz. destruct n as [|m|m].
  - exists (round_ratio 0 (Z.to_pos SCALE)). split; vm_compute; reflexivity.
  - exact (requantize_pos m X HvX Hz).
  - destruct (requantize_pos m (SFopp X)) as (y & Hy & Hry).
    + by rewrite valid_binary_opp.
    + by rewrite f_mul_SCALE_opp, py_round_opp, Hz.
    + exists (SFopp y). rewrite int_truediv_opp, Hy. split; [done|].
      by rewrite f_mul_SCALE_opp, py_round_opp, Hry.
Qed.
End Nearest.

(* ------------------------------------------------------------------ *)
(** ** Re-quantization of the merged polylines *)

Lemma canonical_edge_ends (a b : Point) :
  (canonical_edge a b).1 = a ∧ (canonical_edge a b).2 = b ∨
  (canonical_edge a b).1 = b ∧ (canonical_edge a b).2 = a.
Proof. unfold canonical_edge. destruct (point_leb a b); simpl; auto. Qed.

Lemma line_point_in_edge (line : list Point) (p : Point) :
  (2 <= List.length line)%nat -> p ∈ line ->
  exists e, e ∈ path_edges line ∧ (p = e.1 ∨ p = e.2).
Proof.
  induction line as [|a [|b t] IH]; simpl; intros Hlen Hp; [lia|lia|].
  rewrite path_edges_cons2.
  apply elem_of_cons in Hp as [->|Hp].
  - exists (canonical_edge a b). split; [left|]. destruct (canonical_edge_ends a b) as [[-> _]|[_ ->]]; auto.
  - apply elem_of_cons in Hp as [->|Hp].
    + exists (canonical_edge a b). split; [left|]. destruct (canonical_edge_ends a b) as [[_ ->]|[-> _]]; auto.
    + destruct t as [|c t]; [by apply elem_of_nil in Hp|].
      destruct (IH ltac:(simpl; lia) (list_elem_of_further _ _ _ Hp)) as (e & He & Hpe).
      exists e. split; [by right|done].
Qed.

Lemma requantize_point (p : Point) :
  point_bounded p ->
  exists v, dequantize_point p = Ok v ∧ quantize_point v = Ok p.
Proof.
  destruct p as [a b]. intros [Ha Hb]; simpl in Ha, Hb.
  destruct (requantize_coord a Ha) as (x & Hx & Hqx).
  destruct (requantize_coord b Hb) as (y & Hy & Hqy).
  exists (PList [PFloat x; PFloat y]). unfold dequantize_point. simpl. rewrite Hx, Hy.
  split; [reflexivity|]. unfold quantize_point. cbn [py_getitem nth_error py_float rbind Ok]. rewrite Hqx, Hqy. reflexivity.
Qed.

Lemma requantize_quantized_point (p : Point) :
  point_quantized p ->
  exists v, dequantize_point p = Ok v ∧ quantize_point v = Ok p.
Proof.
  destruct p as [a b]. intros [(xa & Hva & Hra) (xb & Hvb & Hrb)]; simpl in Hra, Hrb.
  destruct (requantize_quantized a xa Hva Hra) as (x & Hx & Hqx).
  destruct (requantize_quantized b xb Hvb Hrb) as (y & Hy & Hqy).
  exists (PList [PFloat x; PFloat y]). unfold dequantize_point. simpl. rewrite Hx, Hy.
  split; [reflexivity|]. unfold quantize_point. cbn [py_getitem nth_error py_float rbind Ok]. rewrite Hqx, Hqy. reflexivity.
Qed.

Lemma requantize_line (line : list Point) :
  (forall p, p ∈ line -> point_quantized p) ->
  exists pts, res_map dequantize_point line = Ok pts ∧ res_map quantize_point pts = Ok line.
Proof.
  induction line as [|p line IH]; intros Hb; [by exists []|].
  destruct (requantize_quantized_point p (Hb p (list_elem_of_here _ _))) as (v & Hv & Hqv).
  destruct IH as (pts & Hpts & Hqpts); [intros q Hq; apply Hb; by right|].
  exists (v :: pts). simpl. rewrite Hv, Hpts, Hqv, Hqpts. split; reflexivity.
Qed.

Lemma lines_edges_cons (l : list Point) (lines : list (list Point)) :
  lines_edges (l :: lines) = path_edges l ++ lines_edges lines.
Proof. reflexivity. Qed.

Lemma lines_edges_elem (e : Edge) (l : list Point) (lines : list (list Point)) :
  e ∈ path_edges l -> l ∈ lines -> e ∈ lines_edges lines.
Proof.
  intros He. induction lines as [|l' lines IH]; [by intros ?%elem_of_nil|].
  rewrite lines_edges_cons, elem_of_app. intros [->|Hl]%elem_of_cons; auto.
Qed.

Lemma filter_long_lines (lines : list (list Point)) :
  Forall (fun l => 2 <= List.length l)%nat lines ->
  filter (fun line : list Point => (2 <= List.length line)%nat) lines = lines.
Proof. induction 1; [done|]. rewrite filter_cons_True by done. by f_equal. Qed.

Lemma lines_roundtrip (lines : list (list Point)) :
  (forall l p, l ∈ lines -> p ∈ l -> point_quantized p) ->
  exists out,
    res_map (fun line => let? pts := res_map dequantize_point line in Ok (PList pts)) lines = Ok out ∧
    reconstructed_edges out = Ok (lines_edges lines).
Proof.
  induction lines as [|l lines IH]; intros Hb; [by exists []|].
  destruct (requantize_line l) as (pts & Hpts & Hq); [intros p; apply Hb; left|].
  destruct IH as (out & Hout & Hrec); [intros l' p Hl'; apply Hb; by right|].
  exists (PList pts :: out). cbn [res_map]. rewrite Hpts. cbn [rbind Ok]. rewrite Hout.
  split; [reflexivity|]. unfold reconstructed_edges in *. cbn [res_flat_map].
  rewrite Hq. cbn [rbind Ok]. rewrite Hrec. reflexivity.
Qed.

(** C1.  For every finite set [E] of canonical edges the Line Merger
    succeeds, and the consecutive-point edges of its integer polylines list
    every edge of [E] exactly once and nothing else.  When the coordinates
    of [E] are quantized ones, [round(x * SCALE)] of doubles [x] as the
    Edge Indexer produces them, re-quantizing and canonicalizing the
    dequantized output polylines gives back exactly these edges. *)
Theorem merge_edges_partition (E : gset Edge) (Hcanon : all_canonical E) :
  exists lines, merge_points E = Ok lines ∧
    NoDup (lines_edges lines) ∧ list_to_set (lines_edges lines) = E ∧
    (edges_quantized E ->
     exists out, merge_edges_to_lines E = Ok out ∧
       reconstructed_edges out = Ok (lines_edges lines)).
Proof.
  destruct (merge_points_ok E) as [lines Hl].
  destruct (merge_points_partition E lines Hcanon Hl) as (Hnd & Hset & Hlen).
  exists lines. split; [done|]. split; [done|]. split; [done|].
  intros Hb. unfold merge_edges_to_lines. rewrite Hl. cbn [rbind Ok].
  rewrite filter_long_lines by done. apply lines_roundtrip.
  intros l p Hl' Hp.
  rewrite Forall_forall in Hlen.
  destruct (line_point_in_edge l p (Hlen l Hl') Hp) as (e & He & Hpe).
  assert (HeE : e ∈ E).
  { rewrite <- Hset. apply elem_of_list_to_set. by apply (lines_edges_elem e l). }
  destruct (Hb e HeE). destruct Hpe as [-> | ->]; done.
Qed.

Lemma merge_edges_partition_witness :
  all_canonical unit_square ∧ edges_quantized unit_square ∧
  exists lines, merge_points unit_square = Ok lines ∧
    NoDup (lines_edges lines) ∧ list_to_set (lines_edges lines) = unit_square ∧
    (edges_quantized unit_square ->
     exists out, merge_edges_to_lines unit_square = Ok out ∧
       reconstructed_edges out = Ok (lines_edges lines)).
Proof.
  assert (H : all_canonical unit_square).
  { intros e He. unfold unit_square in He.
    rewrite !elem_of_union, !elem_of_singleton in He.
    destruct He as [[[-> | ->] | ->] | ->]; vm_compute; reflexivity. }
  assert (H0 : coord_quantized 0).
  { exists (float_const 0). split; vm_compute; reflexivity. }
  assert (H1 : coord_quantized 1).
  { exists (round_ratio 1 (Z.to_pos SCALE)). split; vm_compute; reflexivity. }
  assert (Hq : edges_quantized unit_square).
  { intros e He. unfold unit_square in He.
    rewrite !elem_of_union, !elem_of_singleton in He.
    destruct He as [[[-> | ->] | ->] | ->]; repeat split; simpl; assumption. }
  split; [exact H | split; [exact Hq | apply merge_edges_partition; exact H]].
Defined.



(** C5 (amended).  Quantization is a function of the two coordinates
    alone: any further components are ignored.  For finite coordinates of
    magnitude at most [2^20 = 1048576], dequantizing the quantized point
    gives back each coordinate within less than [1/1000000]. *)
Theorem quantize_point_roundtrip (x y : float) :
  fin_float x = true -> fin_float y = true ->
  (Qabs (fval x) <= 1048576 # 1)%Q -> (Qabs (fval y) <= 1048576 # 1)%Q ->
  exists p x' y',
    (forall rest, quantize_point (PList (PFloat x :: PFloat y :: rest)) = Ok p) ∧
    dequantize_point p = Ok (PList [PFloat x'; PFloat y']) ∧
    (Qabs (fval x' - fval x) < 1 # 1000000)%Q ∧
    (Qabs (fval y' - fval y) < 1 # 1000000)%Q.
Proof.
  intros Hfx Hfy Hx Hy.
  destruct (quantize_coord_error x Hfx Hx) as (n & x' & Hn & Hx' & Ex).
  destruct (quantize_coord_error y Hfy Hy) as (m & y' & Hm & Hy' & Ey).
  exists (n, m), x', y'. split; [|split; [|split; assumption]].
  - intros rest. unfold quantize_point.
    cbn [py_getitem nth_error py_float rbind Ok]. rewrite Hn, Hm. reflexivity.
  - unfold dequantize_point. cbn [fst snd]. rewrite Hx', Hy'. reflexivity.
Qed.

Lemma quantize_point_roundtrip_witness :
  exists p x' y',
    (forall rest, quantize_point (PList (PFloat (round_ratio 1396917 10000) ::
                                         PFloat (float_const 35) :: rest)) = Ok p) ∧
    dequantize_point p = Ok (PList [PFloat x'; PFloat y']) ∧
    (Qabs (fval x' - fval (round_ratio 1396917 10000)) < 1 # 1000000)%Q ∧
    (Qabs (fval y' - fval (float_const 35)) < 1 # 1000000)%Q.
Proof.
  apply quantize_point_roundtrip;
    [vm_compute; reflexivity | vm_compute; reflexivity
    | vm_compute; discriminate | vm_compute; discriminate].
Defined.

(** C5.  The bound fails for large coordinates: [940734522249.0] is
    quantized to [940734522248999936], which dequantizes to a float
    [2^-13] away from the original, far more than [1/1000000]. *)
Lemma quantize_point_roundtrip_counterexample :
  quantize_point (PList [PFloat (float_const 940734522249); PFloat (S754_zero false)])
    = Ok (940734522248999936, 0) ∧
  dequantize_point (940734522248999936, 0)
    = Ok (PList [PFloat (S754_finite false 7706497206263807 (-13)); PFloat (S754_zero false)]) ∧
  (1 # 1000000 < Qabs (fval (S754_finite false 7706497206263807 (-13))
                       - fval (float_const 940734522249)))%Q.
Proof. split; [|split]; vm_compute; reflexivity. Qed.

(* ------------------------------------------------------------------ *)
(** ** Edge Indexer *)











(* ------------------------------------------------------------------ *)
(** ** Municipality Grouper *)

Lemma insert_sorted_perm (x : string) (l : list string) :
  insert_sorted x l ≡ₚ x :: l.
Proof.
  induction l as [|y l IH]; simpl; [done|].
  destruct (String.leb x y); [done|]. rewrite IH. constructor.
Qed.

Lemma sort_strings_perm (l : list string) : sort_strings l ≡ₚ l.
Proof.
  induction l as [|x l IH]; simpl; [done|]. rewrite insert_sorted_perm. by rewrite IH.
Qed.

Lemma insert_sorted_hd (y x : string) (l : list string) :
  HdRel (fun a b => String.leb a b = true) y l -> String.leb y x = true ->
  HdRel (fun a b => String.leb a b = true) y (insert_sorted x l).
Proof.
  intros Hl Hx. destruct l as [|z l]; simpl; [by constructor|].
  destruct (String.leb x z); constructor; [assumption|]. by inversion Hl.
Qed.

Lemma insert_sorted_sorted (x : string) (l : list string) :
  Sorted (fun a b => String.leb a b = true) l ->
  Sorted (fun a b => String.leb a b = true) (insert_sorted x l).
Proof.
  induction l as [|y l IH]; intros Hs; simpl; [by repeat constructor|].
  destruct (String.leb x y) eqn:Hxy.
  { constructor; [assumption|by constructor]. }
  apply Sorted_inv in Hs as [Hl Hhd]. constructor; [apply IH; assumption|].
  apply insert_sorted_hd; [assumption|].
  destruct (String.leb_total x y) as [H|H]; [congruence|assumption].
Qed.

Lemma sort_strings_sorted (l : list string) :
  Sorted (fun a b => String.leb a b = true) (sort_strings l).
Proof. induction l as [|x l IH]; simpl; [constructor|]. by apply insert_sorted_sorted. Qed.

Lemma map_fmap_list {A B} (f : A -> B) (l : list A) : map f l = f <$> l.
Proof. induction l as [|x l IH]; simpl; [done|]. by rewrite IH. Qed.

Lemma keys_elem {A} (G : gmap string A) (c : string) :
  c ∈ map fst (map_to_list G) <-> is_Some (G !! c).
Proof.
  rewrite map_fmap_list, list_elem_of_fmap. split.
  - intros ([c' e] & -> & He). apply elem_of_map_to_list in He. by exists e.
  - intros [e He]. exists (c, e). split; [done|]. by apply elem_of_map_to_list.
Qed.

Lemma normalize_geometry_ok (ft : in_feature) :
  geometry_ok ft = true ->
  exists ps, normalize_polygons (geometry_or_empty (ft_geometry ft)) = Ok ps.
Proof.
  unfold geometry_ok, geometry_or_empty. destruct (truthy (ft_geometry ft)) eqn:Ht; simpl.
  - destruct (ft_geometry ft) as [| | | | | |kv]; try discriminate. intros _.
    unfold normalize_polygons. rewrite Ht. simpl.
    repeat case_match; eexists; reflexivity.
  - intros _. exists []. reflexivity.
Qed.

Lemma group_feature_ok (G : gmap string group_entry) (ft : in_feature) :
  geometry_ok ft = true -> exists G', group_feature G ft = Ok G'.
Proof.
  intros Hg. destruct (normalize_geometry_ok ft Hg) as [ps Hps].
  unfold group_feature. rewrite Hps. cbn [rbind Ok].
  repeat case_match; eexists; reflexivity.
Qed.

Lemma feature_contribution_nonempty (ft : in_feature) (c : string) (ps : list pyval) :
  feature_contribution ft = Some (c, ps) -> ps ≠ [].
Proof.
  unfold feature_contribution. case_match; [discriminate|].
  destruct (normalize_polygons _) as [|[|p ps']]; try discriminate.
  by intros [= _ <-].
Qed.

Lemma group_feature_step (G G' : gmap string group_entry) (ft : in_feature) (c : string) :
  group_feature G ft = Ok G' ->
  group_polygons G' c = group_polygons G c ++ feature_polygons_for ft c ∧
  (is_Some (G' !! c) <-> is_Some (G !! c) ∨ feature_polygons_for ft c ≠ []).
Proof.
  unfold group_feature, feature_polygons_for, feature_contribution.
  set (area_code := py_strip (props_get (ft_properties ft) "N03_007")).
  set (municipality := canonical_municipality (ft_properties ft)).
  destruct (String.eqb area_code "" || String.eqb municipality "") eqn:H1; simpl.
  { intros [= <-]. rewrite app_nil_r. intuition. }
  destruct (String.eqb municipality UNASSIGNED) eqn:H2; simpl.
  { intros [= <-]. rewrite app_nil_r. intuition. }
  destruct (normalize_polygons (geometry_or_empty (ft_geometry ft))) as [err|[|p ps]];
    simpl; [discriminate| |].
  { intros [= <-]. rewrite app_nil_r. intuition. }
  intros [= <-]. unfold group_polygons.
  destruct (String.eqb_spec area_code c) as [<-|Hne].
  - rewrite lookup_insert_eq. simpl. split.
    + by destruct (G !! area_code).
    + split; [intros _; right; discriminate|intros _; by eexists].
  - rewrite lookup_insert_ne by done. apply String.eqb_neq in Hne. try rewrite Hne. rewrite app_nil_r. intuition.
Qed.

Lemma group_fold (l : list in_feature) (G0 G : gmap string group_entry) (c : string) :
  res_fold group_feature l G0 = Ok G ->
  group_polygons G c = group_polygons G0 c ++ contributed_polygons l c ∧
  (is_Some (G !! c) <-> is_Some (G0 !! c) ∨ contributed_polygons l c ≠ []).
Proof.
  revert G0. induction l as [|ft l IH]; intros G0; simpl.
  { intros [= <-]. rewrite app_nil_r. intuition. }
  destruct (group_feature G0 ft) as [|G1] eqn:Hg; simpl; [discriminate|].
  intros Hf. destruct (IH G1 Hf) as [IH1 IH2].
  destruct (group_feature_step G0 G1 ft c Hg) as [S1 S2].
  change (contributed_polygons (ft :: l) c)
    with (feature_polygons_for ft c ++ contributed_polygons l c).
  split; [by rewrite IH1, S1, app_assoc|].
  rewrite IH2, S2. split.
  - intros [[?|?]|?]; [by left| |]; right; intros Hn; apply app_eq_nil in Hn; tauto.
  - intros [?|Hn]; [by left; left|].
    destruct (feature_polygons_for ft c) eqn:E; [by right|left; right; discriminate].
Qed.

Lemma contributed_polygons_elem (l : list in_feature) (c : string) :
  contributed_polygons l c ≠ [] <->
  exists ft ps, ft ∈ l ∧ feature_contribution ft = Some (c, ps).
Proof.
  induction l as [|ft l IH].
  - split; [done|]. intros (? & ? & ?%elem_of_nil & _). done.
  - change (contributed_polygons (ft :: l) c)
      with (feature_polygons_for ft c ++ contributed_polygons l c).
    unfold feature_polygons_for at 1. split.
    + intros Hn. destruct (feature_contribution ft) as [[c' ps]|] eqn:Hc.
      * destruct (String.eqb_spec c' c) as [<-|].
        -- exists ft, ps. split; [left|done].
        -- destruct IH as [IH _]. destruct (IH Hn) as (ft' & ps' & ? & ?).
           exists ft', ps'. split; [by right|done].
      * destruct IH as [IH _]. destruct (IH Hn) as (ft' & ps' & ? & ?).
        exists ft', ps'. split; [by right|done].
    + intros (ft' & ps & [->|Hin]%elem_of_cons & Hc).
      * rewrite Hc, String.eqb_refl. intros Hn. apply app_eq_nil in Hn as [Hn _].
        by apply (feature_contribution_nonempty ft c ps).
      * intros Hn. apply app_eq_nil in Hn as [_ Hn]. apply IH; [|done]. by exists ft', ps.
Qed.

(** C4.  When every geometry is absent or a dict, the Municipality
    Grouper succeeds and emits one feature per distinct administrative
    code that some non-skipped feature contributes polygons to, in
    ascending code order.  The feature of a code carries all the polygons
    contributed under it, in the order of the input: a [Polygon] of the
    single polygon when there is exactly one, a [MultiPolygon] of all of
    them otherwise. *)
Theorem build_grouped_features_spec (features : list in_feature) :
  forallb geometry_ok features = true ->
  exists out, build_grouped_features features = Ok out ∧
    NoDup (map out_code out) ∧
    Sorted (fun a b => String.leb a b = true) (map out_code out) ∧
    (forall c, c ∈ map out_code out <->
       exists ft ps, ft ∈ features ∧ feature_contribution ft = Some (c, ps)) ∧
    Forall (fun f =>
      let ps := contributed_polygons features (out_code f) in
      ps ≠ [] ∧
      match ps with
      | [p] => of_geometry_type f = "Polygon" ∧ of_coordinates f = p
      | _ => of_geometry_type f = "MultiPolygon" ∧ of_coordinates f = PList ps
      end) out.
Proof.
  intros Hg. rewrite forallb_forall in Hg.
  destruct (res_fold_total group_feature features ∅) as [G HG].
  { intros s ft Hin. apply group_feature_ok, Hg. by apply list_elem_of_In. }
  unfold build_grouped_features. rewrite HG. cbn [rbind Ok]. eexists. split; [reflexivity|].
  set (codes := sort_strings (map fst (map_to_list G))).
  assert (Hcodes : forall c, c ∈ codes <-> is_Some (G !! c)).
  { intros c. unfold codes. rewrite (sort_strings_perm _). apply keys_elem. }
  assert (Hout : map out_code (map (fun area_code =>
             match G !! area_code with
             | Some item => grouped_feature area_code item
             | None => grouped_feature area_code {| g_props := []; g_municipality := "";
                                                    g_polygons := [] |}
             end) codes) = codes).
  { rewrite map_map. rewrite <- (map_id codes) at 2. apply map_ext.
    intros c. by destruct (G !! c). }
  rewrite Hout. split; [|split; [|split]].
  - unfold codes. rewrite (sort_strings_perm _), map_fmap_list. apply NoDup_fst_map_to_list.
  - apply sort_strings_sorted.
  - intros c. rewrite Hcodes, <- contributed_polygons_elem.
    destruct (group_fold features ∅ G c HG) as [_ H2]. rewrite H2, lookup_empty.
    split; [intros [[? [=]]|?]; done|by right].
  - apply Forall_forall. intros f Hf.
    apply list_elem_of_In, in_map_iff in Hf as (c & <- & Hc). apply list_elem_of_In in Hc.
    pose proof (proj1 (Hcodes c) Hc) as [e He].
    destruct (group_fold features ∅ G c HG) as [H1 H2].
    unfold group_polygons in H1. rewrite He, lookup_empty in H1. simpl in H1.
    rewrite He. change (out_code (grouped_feature c e)) with c.
    rewrite <- H1. split.
    + rewrite H1. rewrite He, lookup_empty in H2.
      destruct (proj1 H2 (ex_intro _ e eq_refl)) as [[? [=]]|Hc']; done.
    + unfold grouped_feature. cbn [of_geometry_type of_coordinates].
      destruct (g_polygons e) as [|p [|q ps]]; simpl; split; reflexivity.
Qed.

Lemma build_grouped_features_spec_witness :
  forallb geometry_ok sample_features = true ∧
  exists out, build_grouped_features sample_features = Ok out ∧
    NoDup (map out_code out) ∧
    Sorted (fun a b => String.leb a b = true) (map out_code out) ∧
    (forall c, c ∈ map out_code out <->
       exists ft ps, ft ∈ sample_features ∧ feature_contribution ft = Some (c, ps)) ∧
    Forall (fun f =>
      let ps := contributed_polygons sample_features (out_code f) in
      ps ≠ [] ∧
      match ps with
      | [p] => of_geometry_type f = "Polygon" ∧ of_coordinates f = p
      | _ => of_geometry_type f = "MultiPolygon" ∧ of_coordinates f = PList ps
      end) out.
Proof.
  split; [vm_compute; reflexivity|].
  apply build_grouped_features_spec. vm_compute. reflexivity.
Defined.

(* ------------------------------------------------------------------ *)
(** ** The sentinel of unassigned territory *)

Lemma res_fold_filter {A S} (f : S -> A -> res S) (p : A -> bool) (l : list A) (s : S) :
  (forall s x, p x = false -> f s x = Ok s) ->
  res_fold f l s = res_fold f (List.filter p l) s.
Proof.
  intros Hskip. revert s. induction l as [|x l IH]; intros s; simpl; [reflexivity|].
  destruct (p x) eqn:Hp; simpl.
  - destruct (f s x); simpl; [reflexivity|apply IH].
  - rewrite (Hskip s x Hp). simpl. apply IH.
Qed.

Lemma group_feature_unassigned (G : gmap string group_entry) (ft : in_feature) :
  is_unassigned ft = true -> group_feature G ft = Ok G.
Proof.
  unfold is_unassigned, group_feature. intros H.
  destruct (_ || _); [reflexivity|]. rewrite H. reflexivity.
Qed.

Lemma index_feature_excluded (T X : gset string) st (ft : in_feature) :
  UNASSIGNED ∈ X -> boundary_municipality ft = UNASSIGNED ->
  index_feature T X st ft = Ok st.
Proof.
  intros HX H. unfold boundary_municipality in H. cbv zeta in H.
  destruct st as [counts municipality_pref]. unfold index_feature. cbv zeta.
  destruct (_ && _); [reflexivity|]. rewrite H.
  rewrite (bool_decide_eq_true_2 _ HX), orb_true_r. reflexivity.
Qed.

(** C7.  A feature that the grouper names with the sentinel of
    unassigned territory contributes nothing to the Municipality Grouper:
    the grouper's result, an exception included, is that of the list
    without such features.  The boundary derivation drops a feature whose
    boundary name is the sentinel only through the exclusion set it is
    given: it has no sentinel check of its own, unlike the grouper. *)
Theorem unassigned_excluded (features : list in_feature) (T X : gset string) :
  build_grouped_features features
    = build_grouped_features (List.filter (fun ft => negb (is_unassigned ft)) features) ∧
  (UNASSIGNED ∈ X ->
   build_extra_pref_boundary_features features T X
     = build_extra_pref_boundary_features
         (List.filter (fun ft => negb (String.eqb (boundary_municipality ft) UNASSIGNED))
            features) T X).
Proof.
  split.
  - unfold build_grouped_features. rewrite <- res_fold_filter; [reflexivity|].
    intros G ft Hp. apply group_feature_unassigned. by destruct (is_unassigned ft).
  - intros HX. unfold build_extra_pref_boundary_features.
    rewrite <- res_fold_filter; [reflexivity|].
    intros st ft Hp. apply index_feature_excluded; [done|].
    apply String.eqb_eq. by destruct (String.eqb (boundary_municipality ft) UNASSIGNED).
Qed.

Lemma unassigned_excluded_witness :
  UNASSIGNED ∈ ({[UNASSIGNED]} : gset string) ∧
  build_extra_pref_boundary_features sample_features {["埼玉県"]} {[UNASSIGNED]}
    = build_extra_pref_boundary_features
        (List.filter (fun ft => negb (String.eqb (boundary_municipality ft) UNASSIGNED))
           sample_features) {["埼玉県"]} {[UNASSIGNED]}.
Proof.
  assert (H : UNASSIGNED ∈ ({[UNASSIGNED]} : gset string)).
  { apply elem_of_singleton. reflexivity. }
  split; [exact H|].
  apply (proj2 (unassigned_excluded sample_features {["埼玉県"]} {[UNASSIGNED]})). exact H.
Defined.

(** C7.  Defect: the sentinel is not excluded from the boundary
    derivation.  The exclusion set [main] builds from the grouped features
    never holds the sentinel, since the grouper skips those features, so
    the fine feature of unassigned territory among the sample features
    yields a boundary feature named with the sentinel in [main]'s
    output. *)
Lemma unassigned_boundary_counterexample :
  (let? out := main_output sample_features "埼玉県" (Some sample_features) in
   Ok (map (fun f => props_get (of_properties f) "municipality") out))
  = Ok ["さいたま市"; "さいたま市北区"; "さいたま市西区"; UNASSIGNED].
Proof. vm_compute. reflexivity. Qed.

(* ------------------------------------------------------------------ *)
(** ** Boundary features *)

Lemma boundary_output_spec (mp : gmap string string) (me : gmap string (gset Edge))
    (index : nat) (m : string) (o : list out_feature) :
  boundary_output mp me (index, m) = Ok o ->
  Forall (fun f => feature_municipality f = m) o ∧
  exists lines, merge_edges_to_lines (default ∅ (me !! m)) = Ok lines ∧
    match lines with
    | [] => o = []
    | [l] => exists f, o = [f] ∧ of_geometry_type f = "LineString" ∧ of_coordinates f = l
    | _ => exists f, o = [f] ∧ of_geometry_type f = "MultiLineString" ∧
                     of_coordinates f = PList lines
    end.
Proof.
  unfold boundary_output. destruct (merge_edges_to_lines _) as [|lines]; simpl; [discriminate|].
  destruct lines as [|l [|l' ls]]; intros [= <-].
  - split; [constructor|]. by exists [].
  - split; [by repeat constructor|]. exists [l]. split; [done|]. by eexists.
  - split; [by repeat constructor|]. exists (l :: l' :: ls). split; [done|]. by eexists.
Qed.

Lemma filter_all_true {A} (p : A -> bool) (l : list A) :
  (forall x, In x l -> p x = true) -> List.filter p l = l.
Proof.
  induction l as [|x l IH]; intros H; simpl; [done|].
  rewrite (H x (or_introl eq_refl)), IH; [done|]. intros y Hy. apply H. by right.
Qed.

Lemma filter_all_false {A} (p : A -> bool) (l : list A) :
  (forall x, In x l -> p x = false) -> List.filter p l = [].
Proof.
  induction l as [|x l IH]; intros H; simpl; [done|].
  rewrite (H x (or_introl eq_refl)). apply IH. intros y Hy. apply H. by right.
Qed.

Lemma boundary_outputs_spec (mp : gmap string string) (me : gmap string (gset Edge))
    (pairs : list (nat * string)) (out : list out_feature) :
  NoDup (map snd pairs) ->
  res_flat_map (boundary_output mp me) pairs = Ok out ->
  (forall f, f ∈ out -> feature_municipality f ∈ map snd pairs) ∧
  forall m, m ∈ map snd pairs ->
  exists lines, merge_edges_to_lines (default ∅ (me !! m)) = Ok lines ∧
    match lines with
    | [] => features_for m out = []
    | [l] => exists f, features_for m out = [f] ∧ of_geometry_type f = "LineString" ∧
                       of_coordinates f = l
    | _ => exists f, features_for m out = [f] ∧ of_geometry_type f = "MultiLineString" ∧
                     of_coordinates f = PList lines
    end.
Proof.
  revert out. induction pairs as [|[i m'] pairs IH]; intros out Hnd; cbn [res_flat_map map snd].
  { intros [= <-]. split; intros ? Hin; by apply elem_of_nil in Hin. }
  destruct (boundary_output mp me (i, m')) as [|o1] eqn:Ho1; cbn [rbind]; [discriminate|].
  destruct (res_flat_map (boundary_output mp me) pairs) as [|o2] eqn:Ho2; cbn [rbind];
    [discriminate|].
  intros [= <-]. apply NoDup_cons in Hnd as [Hm' Hnd].
  destruct (IH o2 Hnd eq_refl) as [IH1 IH2].
  destruct (boundary_output_spec mp me i m' o1 Ho1) as [Hall Hlines].
  rewrite Forall_forall in Hall. split.
  - intros f [Hf|Hf]%elem_of_app.
    + rewrite (Hall f Hf). left.
    + right. by apply IH1.
  - intros m [->|Hm]%elem_of_cons.
    + destruct Hlines as (lines & Hl & Hshape). exists lines. split; [done|].
      assert (Hf1 : features_for m' o1 = o1).
      { apply filter_all_true. intros f Hf. apply String.eqb_eq, Hall.
        by apply list_elem_of_In. }
      assert (Hf2 : features_for m' o2 = []).
      { apply filter_all_false. intros f Hf. apply String.eqb_neq. intros Heq.
        apply Hm'. rewrite <- Heq. apply IH1. by apply list_elem_of_In. }
      unfold features_for in *. rewrite List.filter_app, Hf1, Hf2, app_nil_r. exact Hshape.
    + destruct (IH2 m Hm) as (lines & Hl & Hshape). exists lines. split; [done|].
      assert (Hf1 : features_for m o1 = []).
      { apply filter_all_false. intros f Hf. apply String.eqb_neq. intros Heq.
        apply Hm'. assert (Hfm : feature_municipality f = m').
        { apply Hall. by apply list_elem_of_In. }
        rewrite <- Hfm, Heq. exact Hm. }
      unfold features_for in *. rewrite List.filter_app, Hf1. exact Hshape.
Qed.

Lemma map_snd_combine_seq {A} (k : nat) (l : list A) :
  map snd (combine (seq k (List.length l)) l) = l.
Proof.
  revert k. induction l as [|x l IH]; intros k; simpl; [done|]. by rewrite IH.
Qed.

(** C10.  In the output of the boundary derivation, a municipality whose
    classified edge set merges to no polyline has no feature, one whose
    set merges to exactly one polyline has one [LineString] feature of
    that polyline, and one whose set merges to two or more polylines has
    one [MultiLineString] feature of all of them; every feature belongs to
    a municipality with classified edges. *)
Theorem boundary_features_shape (features : list in_feature) (T X : gset string)
    (out : list out_feature) :
  build_extra_pref_boundary_features features T X = Ok out ->
  exists st, res_fold (index_feature T X) features (∅, ∅) = Ok st ∧
    (forall f, f ∈ out -> is_Some (classify_edges st.1 !! feature_municipality f)) ∧
    forall m, is_Some (classify_edges st.1 !! m) ->
    exists lines, merge_edges_to_lines (default ∅ (classify_edges st.1 !! m)) = Ok lines ∧
      match lines with
      | [] => features_for m out = []
      | [l] => exists f, features_for m out = [f] ∧ of_geometry_type f = "LineString" ∧
                         of_coordinates f = l
      | _ => exists f, features_for m out = [f] ∧ of_geometry_type f = "MultiLineString" ∧
                       of_coordinates f = PList lines
      end.
Proof.
  unfold build_extra_pref_boundary_features.
  destruct (res_fold (index_feature T X) features (∅, ∅)) as [|st] eqn:Hst;
    cbn [rbind]; [discriminate|].
  intros Hout. exists st. split; [reflexivity|].
  set (me := classify_edges st.1) in *.
  set (keys := sort_strings (map fst (map_to_list me))) in *.
  assert (Hkeys : forall m, m ∈ keys <-> is_Some (me !! m)).
  { intros m. unfold keys. rewrite (sort_strings_perm _). apply keys_elem. }
  assert (Hnd : NoDup keys).
  { unfold keys. rewrite (sort_strings_perm _), map_fmap_list. apply NoDup_fst_map_to_list. }
  rewrite <- (map_snd_combine_seq 1 keys) in Hnd.
  destruct (boundary_outputs_spec st.2 me _ out Hnd Hout) as [H1 H2].
  rewrite map_snd_combine_seq in H1, H2. split.
  - intros f Hf. apply Hkeys, H1, Hf.
  - intros m Hm. apply H2, Hkeys, Hm.
Qed.

Lemma boundary_features_shape_witness :
  exists out,
  build_extra_pref_boundary_features sample_features {["埼玉県"]} ∅ = Ok out ∧
  exists st, res_fold (index_feature {["埼玉県"]} ∅) sample_features (∅, ∅) = Ok st ∧
    (forall f, f ∈ out -> is_Some (classify_edges st.1 !! feature_municipality f)) ∧
    forall m, is_Some (classify_edges st.1 !! m) ->
    exists lines, merge_edges_to_lines (default ∅ (classify_edges st.1 !! m)) = Ok lines ∧
      match lines with
      | [] => features_for m out = []
      | [l] => exists f, features_for m out = [f] ∧ of_geometry_type f = "LineString" ∧
                         of_coordinates f = l
      | _ => exists f, features_for m out = [f] ∧ of_geometry_type f = "MultiLineString" ∧
                       of_coordinates f = PList lines
      end.
Proof.
  eexists. split; [vm_compute; reflexivity|].
  apply boundary_features_shape. vm_compute. reflexivity.
Defined.

(* ================================================================== *)
(** * Further properties of the script *)

(* ------------------------------------------------------------------ *)
(** ** Edges the indexer yields *)

Lemma canonical_edge_canonical (a b : Point) :
  canonical_edge (canonical_edge a b).1 (canonical_edge a b).2 = canonical_edge a b.
Proof.
  unfold canonical_edge at 2 3 4. destruct (point_leb a b) eqn:Hab; simpl.
  - unfold canonical_edge. by rewrite Hab.
  - unfold canonical_edge. by rewrite (point_leb_total a b Hab).
Qed.

Lemma res_flat_map_Forall {A B} (P : B -> Prop) (f : A -> res (list B)) (l : list A)
    (out : list B) :
  (forall x ys, In x l -> f x = Ok ys -> Forall P ys) ->
  res_flat_map f l = Ok out -> Forall P out.
Proof.
  revert out. induction l as [|x l IH]; intros out Hf; cbn [res_flat_map].
  { intros [= <-]. constructor. }
  destruct (f x) as [|ys] eqn:Hx; cbn [rbind]; [discriminate|].
  destruct (res_flat_map f l) as [|zs] eqn:Hl; cbn [rbind]; [discriminate|].
  intros [= <-]. apply Forall_app. split.
  - apply (Hf x); [left; reflexivity|exact Hx].
  - apply IH; [|reflexivity]. intros y ys' Hy. apply Hf. by right.
Qed.

Lemma edge_at_canonical (ring : list pyval) (i : nat) (ys : list Edge) :
  edge_at ring i = Ok ys ->
  Forall (fun e => canonical_edge e.1 e.2 = e ∧ e.1 ≠ e.2) ys.
Proof.
  unfold edge_at.
  destruct (py_getitem (PList ring) i) as [|a]; cbn [rbind]; [discriminate|].
  destruct (py_getitem (PList ring) (S i)) as [|b]; cbn [rbind]; [discriminate|].
  destruct (py_len a) as [|la]; cbn [rbind]; [discriminate|].
  destruct (Nat.ltb la 2); [intros [= <-]; constructor|].
  destruct (py_len b) as [|lb]; cbn [rbind]; [discriminate|].
  destruct (Nat.ltb lb 2); [intros [= <-]; constructor|].
  destruct (quantize_point a) as [|qa]; cbn [rbind]; [discriminate|].
  destruct (quantize_point b) as [|qb]; cbn [rbind]; [discriminate|].
  destruct (bool_decide (qa = qb)) eqn:Hq; intros [= <-]; [constructor|].
  apply bool_decide_eq_false in Hq.
  constructor; [|constructor]. split; [apply canonical_edge_canonical|].
  destruct (canonical_edge_ends qa qb) as [[-> ->]|[-> ->]]; congruence.
Qed.

Lemma iter_edges_ok_canonical (polygons : list pyval) (edges : list Edge) :
  iter_edges polygons = Ok edges ->
  Forall (fun e => canonical_edge e.1 e.2 = e ∧ e.1 ≠ e.2) edges.
Proof.
  unfold iter_edges. apply res_flat_map_Forall.
  intros poly ys _. destruct poly as [| | | | |rings|]; try (intros [= <-]; constructor).
  apply res_flat_map_Forall. intros ring zs _.
  destruct ring as [| | | | |pts|]; try (intros [= <-]; constructor).
  destruct (Nat.ltb (List.length pts) 2); [intros [= <-]; constructor|].
  apply res_flat_map_Forall. intros i ws _. apply edge_at_canonical.
Qed.

(** Every edge the Edge Indexer yields is canonical (its smaller point
    first) and joins two distinct points, whatever the polygons. *)
Theorem iter_edges_canonical (polygons : list pyval) (edges : list Edge) :
  iter_edges polygons = Ok edges ->
  Forall (fun e => canonical_edge e.1 e.2 = e ∧ e.1 ≠ e.2) edges.
Proof. apply iter_edges_ok_canonical. Qed.

Lemma iter_edges_canonical_witness :
  iter_edges [PList [square_ring 0 0; PList [coord 3 3; coord 3 3; coord 2 3]]]
    = Ok [((0,0),(1000000,0)); ((1000000,0),(1000000,1000000));
          ((0,1000000),(1000000,1000000)); ((0,0),(0,1000000));
          ((2000000,3000000),(3000000,3000000))] ∧
  Forall (fun e => canonical_edge e.1 e.2 = e ∧ e.1 ≠ e.2)
    [((0,0),(1000000,0)); ((1000000,0),(1000000,1000000));
     ((0,1000000),(1000000,1000000)); ((0,0),(0,1000000));
     ((2000000,3000000),(3000000,3000000))].
Proof.
  assert (H : iter_edges [PList [square_ring 0 0; PList [coord 3 3; coord 3 3; coord 2 3]]]
    = Ok [((0,0),(1000000,0)); ((1000000,0),(1000000,1000000));
          ((0,1000000),(1000000,1000000)); ((0,0),(0,1000000));
          ((2000000,3000000),(3000000,3000000))]) by (vm_compute; reflexivity).
  split; [exact H|]. exact (iter_edges_canonical _ _ H).
Defined.

(* ------------------------------------------------------------------ *)
(** ** Quantization of points *)

(** Dequantizing a point whose coordinates are at most [2^40] in size and
    quantizing the result gives the point back: on such points
    [quantize_point] undoes [dequantize_point]. *)
Theorem dequantize_quantize_roundtrip (p : Point) :
  point_bounded p ->
  exists v, dequantize_point p = Ok v ∧ quantize_point v = Ok p.
Proof. apply requantize_point. Qed.

Lemma dequantize_quantize_roundtrip_witness :
  exists v, dequantize_point (139691700, -35689500) = Ok v ∧
            quantize_point v = Ok (139691700, -35689500).
Proof.
  apply dequantize_quantize_roundtrip. unfold point_bounded. simpl. lia.
Defined.

Section Integer_coordinates.
Local Open Scope Q_scope.

Lemma quantize_int_coord (x : Z) :
  (Z.abs x <= 2 ^ 20)%Z ->
  exists f, py_float (PInt x) = Ok f ∧ py_round (f_mul f (float_const SCALE)) = Ok (x * SCALE)%Z.
Proof.
  intros Hx.
  assert (HxQ : Qabs (inject_Z x) <= 1048576 # 1).
  { change (Qabs (inject_Z x)) with (inject_Z (Z.abs x)). change (1048576 # 1) with (inject_Z (2 ^ 20)).
    by rewrite <- Zle_Qle. }
  assert (Qdiv_one_r : forall q, q / 1 == q) by (intros q; unfold Qdiv; rewrite Qmult_comm; apply Qmult_1_l).
  destruct (round_ratio_error x (Z.to_pos 1) 21) as [Hf Herr].
  - vm_compute. discriminate.
  - rewrite bpow_21. change (inject_Z (Zpos (Z.to_pos 1))) with 1.
    rewrite Qdiv_one_r. apply Qabs_Qle_condition in HxQ. rewrite Qabs_Qlt_condition. lra.
  - unfold emin, prec, emax. lia.
  - unfold prec, emax. lia.
  - exists (round_ratio x (Z.to_pos 1)). split; [by apply int_truediv_fin|].
    replace (21 - prec)%Z with (-32)%Z in Herr by reflexivity. rewrite bpow_m32 in Herr.
    change (inject_Z (Zpos (Z.to_pos 1))) with 1 in Herr. rewrite Qdiv_one_r in Herr.
    destruct (f_mul_error (round_ratio x (Z.to_pos 1)) (float_const SCALE) 41 Hf fin_SCALE)
      as [Hf2 Herr2].
    + rewrite fval_SCALE, bpow_41.
      apply Qabs_Qle_condition in Herr, HxQ. rewrite Qabs_Qlt_condition. lra.
    + unfold emin, prec, emax. lia.
    + unfold prec, emax. lia.
    + apply py_round_near; [done|].
      replace (41 - prec)%Z with (-12)%Z in Herr2 by reflexivity.
      rewrite bpow_m12, fval_SCALE in Herr2. rewrite inject_Z_mult.
      change (inject_Z SCALE) with (1000000 # 1).
      apply Qabs_Qle_condition in Herr, Herr2. rewrite Qabs_Qlt_condition. lra.
Qed.

End Integer_coordinates.

(** A coordinate pair of Python ints of size at most [2^20] is quantized
    exactly to the ints times [SCALE]; components after the second are
    ignored. *)
Theorem quantize_point_int (x y : Z) (rest : list pyval) :
  Z.abs x <= 2 ^ 20 -> Z.abs y <= 2 ^ 20 ->
  quantize_point (PList (PInt x :: PInt y :: rest)) = Ok (x * SCALE, y * SCALE).
Proof.
  intros Hx Hy.
  destruct (quantize_int_coord x Hx) as (f & Hf & Hrf).
  destruct (quantize_int_coord y Hy) as (g & Hg & Hrg).
  unfold quantize_point. cbn [py_getitem nth_error rbind Ok].
  rewrite Hf. cbn [rbind Ok]. rewrite Hrf. cbn [rbind Ok]. rewrite Hg. cbn [rbind Ok].
  rewrite Hrg. reflexivity.
Qed.

Lemma quantize_point_int_witness :
  quantize_point (PList [PInt 139; PInt (-35); PInt 7]) = Ok (139 * SCALE, -35 * SCALE).
Proof. apply quantize_point_int; lia. Defined.

(* ------------------------------------------------------------------ *)
(** ** Features the boundary derivation skips *)

Lemma index_feature_unselected (T X : gset string) st (ft : in_feature) :
  boundary_selected T X ft = false -> index_feature T X st ft = Ok st.
Proof.
  unfold boundary_selected, boundary_municipality. destruct st as [counts municipality_pref].
  unfold index_feature. cbv zeta.
  destruct (bool_decide (T = ∅)), (bool_decide (canonical_pref_name (ft_properties ft) ∈ T));
    simpl; try reflexivity;
  destruct (String.eqb _ ""), (bool_decide (_ ∈ X)); simpl; (reflexivity || discriminate).
Qed.

(** A fine feature outside the target prefectures (when targets are
    given), without a municipality name, or of an excluded municipality
    has no effect on [build_extra_pref_boundary_features]: the result, an
    exception included, is that of the list of the other features. *)
Theorem boundary_features_skip (features : list in_feature) (T X : gset string) :
  build_extra_pref_boundary_features features T X
  = build_extra_pref_boundary_features (List.filter (boundary_selected T X) features) T X.
Proof.
  unfold build_extra_pref_boundary_features.
  rewrite (res_fold_filter _ (boundary_selected T X) features); [reflexivity|].
  intros s x. apply index_feature_unselected.
Qed.

(* ------------------------------------------------------------------ *)
(** ** The edge counts of the indexer *)

Lemma count_of_add_count (mu : string) (counts : edge_counts) (e' e : Edge) (m : string) :
  count_of (add_count mu counts e') e m
  = (count_of counts e m + if bool_decide (e' = e) && String.eqb mu m then 1 else 0)%nat.
Proof.
  unfold count_of, add_count.
  destruct (decide (e' = e)) as [<-|Hne].
  - rewrite lookup_insert_eq, bool_decide_true by done. simpl.
    destruct (String.eqb_spec mu m) as [<-|Hm].
    + rewrite lookup_insert_eq. simpl. lia.
    + rewrite lookup_insert_ne by congruence. lia.
  - rewrite lookup_insert_ne by done. rewrite bool_decide_false by done. simpl. lia.
Qed.

Lemma count_of_fold (mu : string) (edges : list Edge) (counts : edge_counts) e m :
  count_of (fold_left (add_count mu) edges counts) e m
  = (count_of counts e m +
     if String.eqb mu m then List.length (List.filter (fun e' => bool_decide (e' = e)) edges)
     else 0)%nat.
Proof.
  revert counts. induction edges as [|e' edges IH]; intros counts; simpl.
  - destruct (String.eqb mu m); lia.
  - rewrite IH, count_of_add_count.
    destruct (bool_decide (e' = e)), (String.eqb mu m); simpl; lia.
Qed.

Lemma index_feature_count (T X : gset string) st st' (ft : in_feature) e m :
  index_feature T X st ft = Ok st' ->
  count_of st'.1 e m
  = (count_of st.1 e m +
     if boundary_selected T X ft && String.eqb (boundary_municipality ft) m
     then List.length (List.filter (fun e' => bool_decide (e' = e)) (feature_edges ft))
     else 0)%nat.
Proof.
  destruct (boundary_selected T X ft) eqn:Hsel; simpl.
  2:{ rewrite index_feature_unselected by done. intros [= <-]. lia. }
  unfold boundary_selected, boundary_municipality in Hsel.
  destruct st as [counts municipality_pref]. unfold index_feature, feature_edges.
  unfold boundary_municipality. cbv zeta.
  apply andb_prop in Hsel as [Hsel HX]. apply andb_prop in Hsel as [HT Hm].
  apply negb_true_iff in Hm, HX. apply orb_prop in HT.
  assert (HT' : negb (bool_decide (T = ∅))
                && negb (bool_decide (canonical_pref_name (ft_properties ft) ∈ T)) = false).
  { destruct HT as [H|H]; rewrite H; simpl; [reflexivity|apply andb_false_r]. }
  rewrite HT', Hm, HX. simpl.
  destruct (normalize_polygons _) as [|ps]; cbn [rbind]; [discriminate|].
  destruct ps as [|p ps].
  - intros [= <-]. simpl. destruct (String.eqb _ m); simpl; lia.
  - destruct (iter_edges (p :: ps)) as [|edges]; cbn [rbind]; [discriminate|].
    intros [= <-]. simpl. apply count_of_fold.
Qed.

Lemma index_fold_count (T X : gset string) (features : list in_feature) st st' e m :
  res_fold (index_feature T X) features st = Ok st' ->
  count_of st'.1 e m = (count_of st.1 e m + edge_occurrences T X features e m)%nat.
Proof.
  revert st. induction features as [|ft features IH]; intros st; simpl.
  - intros [= <-]. unfold edge_occurrences. simpl. lia.
  - destruct (index_feature T X st ft) as [|st1] eqn:H1; cbn [rbind]; [discriminate|].
    intros Hf. rewrite (IH st1 Hf), (index_feature_count T X st st1 ft e m H1).
    unfold edge_occurrences. simpl. lia.
Qed.

(** The counts the indexer accumulates: once the first loop of
    [build_extra_pref_boundary_features] completes, the count of a
    municipality on an edge is the number of times the edge occurs among
    the edges [iter_edges] yields for the selected features of that
    municipality. *)
Theorem edge_counts_occurrences (T X : gset string) (features : list in_feature)
    (st : edge_counts * gmap string string) :
  res_fold (index_feature T X) features (∅, ∅) = Ok st ->
  forall e m, count_of st.1 e m = edge_occurrences T X features e m.
Proof.
  intros H e m. rewrite (index_fold_count T X features (∅, ∅) st e m H).
  unfold count_of. simpl. rewrite lookup_empty. simpl. rewrite lookup_empty. reflexivity.
Qed.

Lemma edge_counts_occurrences_witness :
  exists st,
    res_fold (index_feature ∅ ∅) sample_features (∅, ∅) = Ok st ∧
    count_of st.1 ((1000000, 0), (1000000, 1000000)) "さいたま市"
    = edge_occurrences ∅ ∅ sample_features ((1000000, 0), (1000000, 1000000)) "さいたま市" ∧
    edge_occurrences ∅ ∅ sample_features ((1000000, 0), (1000000, 1000000)) "さいたま市" = 2%nat.
Proof.
  assert (Hok : is_ok (res_fold (index_feature ∅ ∅) sample_features (∅, ∅)) = true)
    by (vm_compute; reflexivity).
  destruct (res_fold (index_feature ∅ ∅) sample_features (∅, ∅)) as [|st] eqn:H;
    [discriminate|].
  exists st. split; [reflexivity|]. split.
  - apply (edge_counts_occurrences ∅ ∅ sample_features st H).
  - vm_compute. reflexivity.
Defined.

(* ------------------------------------------------------------------ *)
(** ** The final sort of [main] *)

Lemma string_compare_antisym (a b : string) :
  String.compare b a = CompOpp (String.compare a b).
Proof. apply String.compare_antisym. Qed.

Lemma key_ltb_asym (k1 k2 : string * string * string) :
  key_ltb k1 k2 = true -> key_ltb k2 k1 = false.
Proof.
  unfold key_ltb. rewrite (string_compare_antisym k1.1.1), (string_compare_antisym k1.1.2),
    (string_compare_antisym k1.2).
  destruct (String.compare k1.1.1 k2.1.1), (String.compare k1.1.2 k2.1.2),
    (String.compare k1.2 k2.2); simpl; congruence.
Qed.

Lemma key_ltb_irrefl (k : string * string * string) : key_ltb k k = false.
Proof.
  destruct (key_ltb k k) eqn:H; [|reflexivity].
  pose proof (key_ltb_asym k k H). congruence.
Qed.

Lemma insert_by_key_perm (x : out_feature) (l : list out_feature) :
  insert_by_key x l ≡ₚ x :: l.
Proof.
  induction l as [|y l IH]; simpl; [done|].
  destruct (key_ltb (output_key y) (output_key x)); [|done].
  rewrite IH. apply Permutation_swap.
Qed.

Lemma sort_output_perm (l : list out_feature) : sort_output l ≡ₚ l.
Proof.
  induction l as [|x l IH]; simpl; [done|]. unfold sort_output in *. simpl.
  rewrite insert_by_key_perm, IH. done.
Qed.

Lemma insert_by_key_hd (x y : out_feature) (l : list out_feature) :
  key_ltb (output_key x) (output_key y) = false ->
  (forall z, hd_error l = Some z -> key_ltb (output_key z) (output_key y) = false) ->
  forall z, hd_error (insert_by_key x l) = Some z -> key_ltb (output_key z) (output_key y) = false.
Proof.
  intros Hx Hl z. destruct l as [|w l]; simpl.
  - by intros [= <-].
  - destruct (key_ltb (output_key w) (output_key x)); simpl; intros [= <-]; [|done].
    by apply Hl.
Qed.

Lemma insert_by_key_sorted (x : out_feature) (l : list out_feature) :
  Sorted (fun a b => key_ltb (output_key b) (output_key a) = false) l ->
  Sorted (fun a b => key_ltb (output_key b) (output_key a) = false) (insert_by_key x l).
Proof.
  induction l as [|y l IH]; intros Hs; simpl; [by repeat constructor|].
  destruct (key_ltb (output_key y) (output_key x)) eqn:Hyx.
  - apply Sorted_inv in Hs as [Hl Hhd]. constructor; [by apply IH|].
    destruct (insert_by_key x l) as [|z l'] eqn:Hins; [constructor|constructor].
    apply (insert_by_key_hd x y l).
    + by apply key_ltb_asym.
    + intros w Hw. destruct l as [|w' l]; [discriminate|]. simpl in Hw. injection Hw as <-.
      by inversion Hhd.
    + by rewrite Hins.
  - constructor; [assumption|]. by constructor.
Qed.

Lemma sort_output_sorted (l : list out_feature) :
  Sorted (fun a b => key_ltb (output_key b) (output_key a) = false) (sort_output l).
Proof.
  induction l as [|x l IH]; [constructor|]. unfold sort_output in *. simpl.
  by apply insert_by_key_sorted.
Qed.

Lemma insert_by_key_filter (k : string * string * string) (x : out_feature)
    (l : list out_feature) :
  List.filter (fun f => bool_decide (output_key f = k)) (insert_by_key x l)
  = List.filter (fun f => bool_decide (output_key f = k)) (x :: l).
Proof.
  induction l as [|y l IH]; simpl; [reflexivity|].
  destruct (key_ltb (output_key y) (output_key x)) eqn:Hyx; [|reflexivity].
  simpl. rewrite IH. simpl.
  destruct (decide (output_key x = k)) as [Hx|Hx], (decide (output_key y = k)) as [Hy|Hy].
  - exfalso. rewrite Hx, <- Hy, key_ltb_irrefl in Hyx. discriminate.
  - rewrite (bool_decide_true _ Hx), (bool_decide_false _ Hy). reflexivity.
  - rewrite (bool_decide_false _ Hx), (bool_decide_true _ Hy). reflexivity.
  - rewrite (bool_decide_false _ Hx), (bool_decide_false _ Hy). reflexivity.
Qed.

Lemma sort_output_filter (k : string * string * string) (l : list out_feature) :
  List.filter (fun f => bool_decide (output_key f = k)) (sort_output l)
  = List.filter (fun f => bool_decide (output_key f = k)) l.
Proof.
  induction l as [|x l IH]; [reflexivity|]. unfold sort_output in *. simpl.
  rewrite insert_by_key_filter. simpl. by rewrite IH.
Qed.

(** The sort of [main] is a stable sort by the key
    [(pref_name, municipality, area_id)]: its result is a permutation of
    the features, ordered by the key, and the features of one key keep
    their order. *)
Theorem sort_output_stable_sort (l : list out_feature) :
  sort_output l ≡ₚ l ∧
  Sorted (fun a b => key_ltb (output_key b) (output_key a) = false) (sort_output l) ∧
  (forall k, List.filter (fun f => bool_decide (output_key f = k)) (sort_output l)
             = List.filter (fun f => bool_decide (output_key f = k)) l).
Proof.
  split; [apply sort_output_perm|]. split; [apply sort_output_sorted|].
  intros k. apply sort_output_filter.
Qed.

(* ------------------------------------------------------------------ *)
(** ** Municipalities of the derived boundaries *)

Lemma add_count_keys (mu : string) (counts : edge_counts) (edge e : Edge) c m :
  add_count mu counts edge !! e = Some c -> is_Some (c !! m) ->
  m = mu ∨ exists c', counts !! e = Some c' ∧ is_Some (c' !! m).
Proof.
  unfold add_count. destruct (decide (edge = e)) as [<-|Hne].
  - rewrite lookup_insert_eq. intros [= <-] Hc.
    destruct (String.eq_dec m mu) as [->|Hm]; [by left|right].
    rewrite lookup_insert_ne in Hc by congruence.
    destruct (counts !! edge) as [c'|]; simpl in Hc; [by exists c'|].
    rewrite lookup_empty in Hc. by destruct Hc.
  - rewrite lookup_insert_ne by done. intros Hc Hm. right. by exists c.
Qed.

Lemma fold_add_count_keys (mu : string) (edges : list Edge) (counts : edge_counts) e c m :
  fold_left (add_count mu) edges counts !! e = Some c -> is_Some (c !! m) ->
  m = mu ∨ exists c', counts !! e = Some c' ∧ is_Some (c' !! m).
Proof.
  revert counts c. induction edges as [|edge edges IH]; intros counts c; simpl.
  - intros Hc Hm. right. by exists c.
  - intros Hc Hm. destruct (IH _ _ Hc Hm) as [->|(c' & Hc' & Hm')]; [by left|].
    by apply (add_count_keys mu counts edge e c' m).
Qed.

(** The invariant of the indexer: every municipality counted on an edge
    is named and not excluded. *)
Lemma index_fold_keys (T X : gset string) (features : list in_feature) st st' :
  (forall e c m, st.1 !! e = Some c -> is_Some (c !! m) -> m ≠ "" ∧ m ∉ X) ->
  res_fold (index_feature T X) features st = Ok st' ->
  forall e c m, st'.1 !! e = Some c -> is_Some (c !! m) -> m ≠ "" ∧ m ∉ X.
Proof.
  revert st. induction features as [|ft features IH]; intros st Hinv; simpl.
  { by intros [= <-]. }
  destruct (index_feature T X st ft) as [|st1] eqn:H1; cbn [rbind]; [discriminate|].
  apply IH. destruct st as [counts municipality_pref]. unfold index_feature in H1.
  cbv zeta in H1.
  destruct (_ && _); [by injection H1 as <-|].
  destruct (String.eqb _ "") eqn:Hm0; simpl in H1; [by injection H1 as <-|].
  destruct (bool_decide (_ ∈ X)) eqn:HmX; simpl in H1; [by injection H1 as <-|].
  apply String.eqb_neq in Hm0. apply bool_decide_eq_false in HmX.
  destruct (normalize_polygons _) as [|ps]; cbn [rbind] in H1; [discriminate|].
  destruct ps as [|p ps]; [by injection H1 as <-|].
  destruct (iter_edges (p :: ps)) as [|edges]; cbn [rbind] in H1; [discriminate|].
  injection H1 as <-. simpl. intros e c m Hc Hm.
  destruct (fold_add_count_keys _ _ _ _ _ _ Hc Hm) as [->|(c' & Hc' & Hm')]; [done|].
  by apply (Hinv e c').
Qed.

Lemma add_edge_keys (me : gmap string (gset Edge)) (muni m : string) (edge : Edge) :
  is_Some (add_edge me muni edge !! m) -> m = muni ∨ is_Some (me !! m).
Proof.
  unfold add_edge. destruct (String.eq_dec m muni) as [->|Hm]; [by left|].
  rewrite lookup_insert_ne by congruence. by right.
Qed.

Lemma classify_edge_keys (me : gmap string (gset Edge)) (kv : Edge * gmap string nat) m :
  is_Some (classify_edge me kv !! m) -> is_Some (me !! m) ∨ is_Some (kv.2 !! m).
Proof.
  destruct kv as [edge counter]. unfold classify_edge. simpl.
  assert (Hfold : forall munis me,
            (forall mu, mu ∈ munis -> is_Some (counter !! mu)) ->
            is_Some (fold_left (fun me muni => add_edge me muni edge) munis me !! m) ->
            is_Some (me !! m) ∨ is_Some (counter !! m)).
  { induction munis as [|mu munis IH]; intros me' Hmu; simpl; [by left|].
    intros H. destruct (IH _ (fun x Hx => Hmu x (list_elem_of_further _ _ _ Hx)) H)
      as [H'|H']; [|by right].
    destruct (add_edge_keys me' mu m edge H') as [->|H'']; [|by left].
    right. apply Hmu, list_elem_of_here. }
  assert (Hk : forall mu, mu ∈ map fst (map_to_list counter) -> is_Some (counter !! mu))
    by (intros mu; apply keys_elem).
  destruct (map fst (map_to_list counter)) as [|mu [|mu' munis]] eqn:Hmunis.
  - by left.
  - destruct (Nat.eqb _ 1); [|by left]. intros H.
    destruct (add_edge_keys me mu m edge H) as [->|H']; [|by left].
    right. apply Hk, list_elem_of_here.
  - by apply Hfold.
Qed.

Lemma classify_edges_keys (counts : edge_counts) m :
  is_Some (classify_edges counts !! m) ->
  exists e c, counts !! e = Some c ∧ is_Some (c !! m).
Proof.
  unfold classify_edges.
  assert (H : forall kvs me,
            (forall kv, kv ∈ kvs -> counts !! kv.1 = Some kv.2) ->
            is_Some (fold_left classify_edge kvs me !! m) ->
            is_Some (me !! m) ∨ exists e c, counts !! e = Some c ∧ is_Some (c !! m)).
  { induction kvs as [|kv kvs IH]; intros me Hkvs; simpl; [by left|].
    intros Hs. destruct (IH _ (fun x Hx => Hkvs x (list_elem_of_further _ _ _ Hx)) Hs)
      as [H'|H']; [|by right].
    destruct (classify_edge_keys me kv m H') as [H''|H'']; [by left|].
    right. exists kv.1, kv.2. split; [|done]. apply Hkvs, list_elem_of_here. }
  intros Hs. destruct (H (map_to_list counts) ∅) as [H'|H']; [|exact Hs| |exact H'].
  - intros [e c] Hin. by apply elem_of_map_to_list in Hin.
  - rewrite lookup_empty in H'. by destruct H'.
Qed.

Lemma extra_features_keys (features : list in_feature) (T X : gset string)
    (out : list out_feature) :
  build_extra_pref_boundary_features features T X = Ok out ->
  exists st, res_fold (index_feature T X) features (∅, ∅) = Ok st ∧
    forall f, f ∈ out -> is_Some (classify_edges st.1 !! feature_municipality f).
Proof.
  unfold build_extra_pref_boundary_features.
  destruct (res_fold (index_feature T X) features (∅, ∅)) as [|st] eqn:Hst;
    cbn [rbind]; [discriminate|].
  intros Hout. exists st. split; [reflexivity|].
  set (me := classify_edges st.1) in *.
  set (keys := sort_strings (map fst (map_to_list me))) in *.
  assert (Hnd : NoDup keys).
  { unfold keys. rewrite (sort_strings_perm _), map_fmap_list. apply NoDup_fst_map_to_list. }
  rewrite <- (map_snd_combine_seq 1 keys) in Hnd.
  destruct (boundary_outputs_spec st.2 me _ out Hnd Hout) as [H1 _].
  rewrite map_snd_combine_seq in H1.
  intros f Hf. apply (keys_elem me). unfold keys in H1. rewrite <- (sort_strings_perm _).
  by apply H1.
Qed.

Lemma extra_municipalities_ok (features : list in_feature) (T X : gset string)
    (out : list out_feature) :
  build_extra_pref_boundary_features features T X = Ok out ->
  forall f, f ∈ out -> feature_municipality f ≠ "" ∧ feature_municipality f ∉ X.
Proof.
  intros Hout f Hf. destruct (extra_features_keys features T X out Hout) as (st & Hst & Hkeys).
  destruct (classify_edges_keys st.1 _ (Hkeys f Hf)) as (e & c & Hc & Hm).
  refine (index_fold_keys T X features (∅, ∅) st _ Hst e c _ Hc Hm).
  intros e' c' m'. simpl. by rewrite lookup_empty.
Qed.

(** Every feature [build_extra_pref_boundary_features] returns names a
    municipality that is not empty and not in the exclusion set. *)
Theorem boundary_municipalities_allowed (features : list in_feature) (T X : gset string)
    (out : list out_feature) :
  build_extra_pref_boundary_features features T X = Ok out ->
  forall f, f ∈ out -> feature_municipality f ≠ "" ∧ feature_municipality f ∉ X.
Proof. apply extra_municipalities_ok. Qed.

Lemma boundary_municipalities_allowed_witness :
  exists out,
    build_extra_pref_boundary_features sample_features ∅ {["所属未定地"]} = Ok out ∧
    map feature_municipality out = ["さいたま市"] ∧
    forall f, f ∈ out ->
      feature_municipality f ≠ "" ∧ feature_municipality f ∉ ({["所属未定地"]} : gset string).
Proof.
  eexists. split; [vm_compute; reflexivity|]. split; [vm_compute; reflexivity|].
  apply (boundary_municipalities_allowed sample_features ∅ {["所属未定地"]}).
  vm_compute. reflexivity.
Defined.

(* ------------------------------------------------------------------ *)
(** ** The output of [main] *)

(** What [main] writes: the grouped features of the N03 files and the
    derived boundaries, stably sorted.  The derived boundaries are empty
    when no prefecture name is given or the fine-polygon file is missing,
    and none of them names a municipality of a grouped feature. *)
Theorem main_output_spec (features : list in_feature) (extra_pref_names : string)
    (fine_features : option (list in_feature)) (r : list out_feature) :
  main_output features extra_pref_names fine_features = Ok r ->
  exists grouped extra,
    build_grouped_features features = Ok grouped ∧
    r = sort_output (grouped ++ extra) ∧
    (parse_pref_names extra_pref_names = ∅ ∨ fine_features = None -> extra = []) ∧
    (forall g f, g ∈ grouped -> f ∈ extra ->
       feature_municipality f ≠ py_strip (feature_municipality g)).
Proof.
  unfold main_output.
  destruct (build_grouped_features features) as [|grouped]; cbn [rbind]; [discriminate|].
  destruct fine_features as [fine|].
  2:{ intros [= <-]. exists grouped, []. split; [done|]. split; [done|].
      split; [done|]. intros g f _ Hf. by apply elem_of_nil in Hf. }
  destruct (bool_decide (parse_pref_names extra_pref_names = ∅)) eqn:Hn.
  { intros [= <-]. exists grouped, []. split; [done|]. split; [done|].
    split; [done|]. intros g f _ Hf. by apply elem_of_nil in Hf. }
  apply bool_decide_eq_false in Hn.
  destruct (build_extra_pref_boundary_features _ _ _) as [|extra] eqn:He;
    cbn [rbind]; [discriminate|].
  intros [= <-]. exists grouped, extra. split; [done|]. split; [done|]. split.
  { intros [H|H]; [done|discriminate]. }
  intros g f Hg Hf Heq.
  destruct (extra_municipalities_ok _ _ _ _ He f Hf) as [_ HX]. apply HX.
  unfold excluded_municipalities_of. apply elem_of_list_to_set.
  rewrite Heq. apply list_elem_of_In, in_map_iff. exists g. split; [reflexivity|].
  by apply list_elem_of_In.
Qed.

Lemma main_output_spec_witness :
  exists r,
    main_output sample_features "埼玉県, 千葉県" (Some sample_features) = Ok r ∧
    map (fun f => props_get (of_properties f) "area_id") r
      = ["FINE-00001"; "11102"; "11101"; "FINE-00002"] ∧
    exists grouped extra,
      build_grouped_features sample_features = Ok grouped ∧
      r = sort_output (grouped ++ extra) ∧
      (parse_pref_names "埼玉県, 千葉県" = ∅ ∨ Some sample_features = None -> extra = []) ∧
      (forall g f, g ∈ grouped -> f ∈ extra ->
         feature_municipality f ≠ py_strip (feature_municipality g)).
Proof.
  eexists. split; [vm_compute; reflexivity|]. split; [vm_compute; reflexivity|].
  apply (main_output_spec sample_features "埼玉県, 千葉県" (Some sample_features)).
  vm_compute. reflexivity.
Defined.

(* ------------------------------------------------------------------ *)
(** ** Numbering of the derived boundaries *)

Lemma res_map_length {A B} (f : A -> res B) (l : list A) (l' : list B) :
  res_map f l = Ok l' -> List.length l' = List.length l.
Proof.
  revert l'. induction l as [|x l IH]; intros l'; simpl; [by intros [= <-]|].
  destruct (f x); cbn [rbind]; [discriminate|].
  destruct (res_map f l) as [|ys]; cbn [rbind]; [discriminate|].
  intros [= <-]. simpl. f_equal. by apply IH.
Qed.

(** The merger gives at least one line for a nonempty set of canonical
    edges. *)
Lemma merge_edges_nonempty (E : gset Edge) (lines : list pyval) :
  all_canonical E -> E ≠ ∅ -> merge_edges_to_lines E = Ok lines -> lines ≠ [].
Proof.
  intros Hc HE. unfold merge_edges_to_lines.
  destruct (merge_points E) as [|ls] eqn:Hls; cbn [rbind]; [discriminate|].
  destruct (merge_points_partition E ls Hc Hls) as (_ & Hset & Hlen).
  rewrite filter_long_lines by done. intros Hmap ->.
  apply res_map_length in Hmap. destruct ls; [|discriminate].
  apply HE. rewrite <- Hset. reflexivity.
Qed.

Lemma add_count_lookup_some (mu : string) (counts : edge_counts) (edge e : Edge) c :
  add_count mu counts edge !! e = Some c -> e = edge ∨ is_Some (counts !! e).
Proof.
  unfold add_count. destruct (decide (edge = e)) as [<-|Hne]; [by left|].
  rewrite lookup_insert_ne by done. intros ->. right. by eexists.
Qed.

Lemma fold_add_count_lookup_some (mu : string) (edges : list Edge) (counts : edge_counts) e c :
  fold_left (add_count mu) edges counts !! e = Some c -> e ∈ edges ∨ is_Some (counts !! e).
Proof.
  revert counts c. induction edges as [|edge edges IH]; intros counts c; simpl.
  - intros ->. right. by eexists.
  - intros H. destruct (IH _ _ H) as [Hin|[c' Hc']]; [left; by right|].
    destruct (add_count_lookup_some mu counts edge e c' Hc') as [->|Hs]; [left; by left|].
    by right.
Qed.

(** The invariant of the indexer: every edge it counts is canonical. *)
Lemma index_fold_canonical (T X : gset string) (features : list in_feature) st st' :
  (forall e c, st.1 !! e = Some c -> canonical_edge e.1 e.2 = e) ->
  res_fold (index_feature T X) features st = Ok st' ->
  forall e c, st'.1 !! e = Some c -> canonical_edge e.1 e.2 = e.
Proof.
  revert st. induction features as [|ft features IH]; intros st Hinv; simpl.
  { by intros [= <-]. }
  destruct (index_feature T X st ft) as [|st1] eqn:H1; cbn [rbind]; [discriminate|].
  apply IH. destruct st as [counts municipality_pref]. unfold index_feature in H1.
  cbv zeta in H1.
  destruct (_ && _); [by injection H1 as <-|].
  destruct (String.eqb _ "" || _); [by injection H1 as <-|].
  destruct (normalize_polygons _) as [|ps]; cbn [rbind] in H1; [discriminate|].
  destruct ps as [|p ps]; [by injection H1 as <-|].
  destruct (iter_edges (p :: ps)) as [|edges] eqn:He; cbn [rbind] in H1; [discriminate|].
  injection H1 as <-. simpl. intros e c Hc.
  destruct (fold_add_count_lookup_some _ _ _ _ _ Hc) as [Hin|[c' Hc']].
  - pose proof (iter_edges_ok_canonical _ _ He) as Hf. rewrite Forall_forall in Hf.
    by apply Hf.
  - by apply (Hinv e c').
Qed.

Lemma classify_edges_canonical (counts : edge_counts) m :
  (forall e c, counts !! e = Some c -> canonical_edge e.1 e.2 = e) ->
  all_canonical (default ∅ (classify_edges counts !! m)).
Proof.
  intros Hc e He. apply classify_edges_elem in He as (c & Hce & _). by apply (Hc e c).
Qed.

Lemma classify_edges_nonempty (counts : edge_counts) m S :
  classify_edges counts !! m = Some S -> S ≠ ∅.
Proof.
  unfold classify_edges.
  assert (Hadd : forall me muni edge,
            (forall m S, me !! m = Some S -> S ≠ ∅) ->
            forall m S, add_edge me muni edge !! m = Some S -> S ≠ ∅).
  { intros me muni edge Hme m' S'. unfold add_edge.
    destruct (String.eq_dec muni m') as [<-|Hm].
    - rewrite lookup_insert_eq. intros [= <-]. set_solver.
    - rewrite lookup_insert_ne by done. apply Hme. }
  assert (Hstep : forall me kv,
            (forall m S, me !! m = Some S -> S ≠ ∅) ->
            forall m S, classify_edge me kv !! m = Some S -> S ≠ ∅).
  { intros me [edge counter] Hme. unfold classify_edge.
    destruct (map fst (map_to_list counter)) as [|mu [|mu' munis]].
    - exact Hme.
    - destruct (Nat.eqb _ 1); [by apply Hadd|exact Hme].
    - revert me Hme. generalize (mu :: mu' :: munis) as l.
      induction l as [|x l IH]; intros me Hme; simpl; [exact Hme|].
      apply IH. by apply Hadd. }
  assert (Hfold : forall kvs me,
            (forall m S, me !! m = Some S -> S ≠ ∅) ->
            forall m S, fold_left classify_edge kvs me !! m = Some S -> S ≠ ∅).
  { induction kvs as [|kv kvs IH]; intros me Hme; simpl; [exact Hme|].
    apply IH. by apply Hstep. }
  apply Hfold. intros m' S'. by rewrite lookup_empty.
Qed.

Lemma boundary_outputs_numbered (mp : gmap string string) (me : gmap string (gset Edge))
    (pairs : list (nat * string)) (out : list out_feature) :
  (forall i m lines, (i, m) ∈ pairs ->
     merge_edges_to_lines (default ∅ (me !! m)) = Ok lines -> lines ≠ []) ->
  res_flat_map (boundary_output mp me) pairs = Ok out ->
  map feature_municipality out = map snd pairs ∧
  map (fun f => props_get (of_properties f) "area_id") out
  = map (fun p => ("FINE-" ++ pad5 p.1)%string) pairs.
Proof.
  revert out. induction pairs as [|[i m] pairs IH]; intros out Hne; cbn [res_flat_map].
  { intros [= <-]. done. }
  unfold boundary_output at 1.
  destruct (merge_edges_to_lines (default ∅ (me !! m))) as [|lines] eqn:Hl;
    cbn [rbind]; [discriminate|].
  assert (Hlines : lines ≠ []) by (apply (Hne i m); [apply list_elem_of_here|exact Hl]).
  destruct (res_flat_map (boundary_output mp me) pairs) as [|o] eqn:Ho;
    [destruct lines; discriminate|].
  destruct lines as [|l ls]; [done|]. cbn [rbind]. intros [= <-].
  destruct (IH o) as [H1 H2]; [|reflexivity|].
  { intros i' m' lines' Hin. apply (Hne i'). by right. }
  simpl. rewrite H1, H2. split; reflexivity.
Qed.

Lemma map_fst_combine_seq {A} (k : nat) (l : list A) :
  map fst (combine (seq k (List.length l)) l) = seq k (List.length l).
Proof.
  revert k. induction l as [|x l IH]; intros k; simpl; [done|]. by rewrite IH.
Qed.

(** The features of [build_extra_pref_boundary_features]: one per
    municipality with a boundary edge, in ascending order of the names,
    numbered [FINE-00001], [FINE-00002], ... without gaps: the index the
    loop skips when a municipality has no line is never skipped. *)
Theorem boundary_features_numbered (features : list in_feature) (T X : gset string)
    (out : list out_feature) :
  build_extra_pref_boundary_features features T X = Ok out ->
  exists st, res_fold (index_feature T X) features (∅, ∅) = Ok st ∧
    Sorted (fun a b => String.leb a b = true) (map feature_municipality out) ∧
    NoDup (map feature_municipality out) ∧
    (forall m, m ∈ map feature_municipality out <->
       exists e counter, st.1 !! e = Some counter ∧ classified_for m counter) ∧
    map (fun f => props_get (of_properties f) "area_id") out
    = map (fun i => ("FINE-" ++ pad5 i)%string) (seq 1 (List.length out)).
Proof.
  unfold build_extra_pref_boundary_features.
  destruct (res_fold (index_feature T X) features (∅, ∅)) as [|st] eqn:Hst;
    cbn [rbind]; [discriminate|].
  intros Hout. exists st. split; [reflexivity|].
  set (me := classify_edges st.1) in *.
  set (keys := sort_strings (map fst (map_to_list me))) in *.
  assert (Hkeys : forall m, m ∈ keys <-> is_Some (me !! m)).
  { intros m. unfold keys. rewrite (sort_strings_perm _). apply keys_elem. }
  assert (Hcanon : forall e c, st.1 !! e = Some c -> canonical_edge e.1 e.2 = e).
  { apply (index_fold_canonical T X features (∅, ∅) st); [|exact Hst].
    intros e c. simpl. by rewrite lookup_empty. }
  destruct (boundary_outputs_numbered st.2 me (combine (seq 1 (List.length keys)) keys) out) as [H1 H2]; [|exact Hout|].
  { intros i m lines Hin Hl.
    apply list_elem_of_In, in_combine_r, list_elem_of_In, Hkeys in Hin as [S HS].
    apply (merge_edges_nonempty (default ∅ (me !! m))); [|by rewrite HS; apply (classify_edges_nonempty st.1 m S)|exact Hl].
    by apply classify_edges_canonical. }
  rewrite map_snd_combine_seq in H1. rewrite H1.
  split; [apply sort_strings_sorted|]. split.
  { unfold keys. rewrite (sort_strings_perm _), map_fmap_list. apply NoDup_fst_map_to_list. }
  split.
  - intros m. rewrite Hkeys. split.
    + intros [S HS]. pose proof (classify_edges_nonempty st.1 m S HS) as HSne.
      apply set_choose_L in HSne as [e He].
      exists e. apply classify_edges_elem. unfold me in HS. by rewrite HS.
    + intros (e & counter & Hc & Hcl). unfold me.
      destruct (classify_edges st.1 !! m) eqn:Hm; [by eexists|].
      assert (Hin : e ∈ default ∅ (classify_edges st.1 !! m))
        by (apply classify_edges_elem; eauto).
      rewrite Hm in Hin. by apply elem_of_empty in Hin.
  - rewrite H2.
    assert (Hlen : List.length out = List.length keys)
      by (rewrite <- (length_map feature_municipality out), H1; reflexivity).
    rewrite Hlen.
    transitivity (map (fun i => ("FINE-" ++ pad5 i)%string)
                    (map fst (combine (seq 1 (List.length keys)) keys)));
      [by rewrite map_map|by rewrite map_fst_combine_seq].
Qed.

Lemma boundary_features_numbered_witness :
  exists out,
    build_extra_pref_boundary_features sample_features ∅ ∅ = Ok out ∧
    exists st, res_fold (index_feature ∅ ∅) sample_features (∅, ∅) = Ok st ∧
      Sorted (fun a b => String.leb a b = true) (map feature_municipality out) ∧
      NoDup (map feature_municipality out) ∧
      (forall m, m ∈ map feature_municipality out <->
         exists e counter, st.1 !! e = Some counter ∧ classified_for m counter) ∧
      map (fun f => props_get (of_properties f) "area_id") out
      = map (fun i => ("FINE-" ++ pad5 i)%string) (seq 1 (List.length out)).
Proof.
  eexists. split; [vm_compute; reflexivity|].
  apply boundary_features_numbered. vm_compute. reflexivity.
Defined.

(* ------------------------------------------------------------------ *)
(** ** Properties of the grouped features *)

Lemma group_feature_entry (G G' : gmap string group_entry) (ft : in_feature) (c : string)
    (e' : group_entry) :
  group_feature G ft = Ok G' -> G' !! c = Some e' ->
  (exists e, G !! c = Some e ∧ g_props e' = g_props e ∧ g_municipality e' = g_municipality e) ∨
  (G !! c = None ∧ feature_polygons_for ft c ≠ [] ∧
   g_props e' = ft_properties ft ∧ g_municipality e' = canonical_municipality (ft_properties ft)).
Proof.
  unfold group_feature, feature_polygons_for, feature_contribution.
  set (area_code := py_strip (props_get (ft_properties ft) "N03_007")).
  set (municipality := canonical_municipality (ft_properties ft)).
  destruct (String.eqb area_code "" || String.eqb municipality "") eqn:H1; simpl.
  { intros [= <-] He. left. by exists e'. }
  destruct (String.eqb municipality UNASSIGNED) eqn:H2; simpl.
  { intros [= <-] He. left. by exists e'. }
  destruct (normalize_polygons (geometry_or_empty (ft_geometry ft))) as [err|[|p ps]];
    simpl; [discriminate| |].
  { intros [= <-] He. left. by exists e'. }
  intros [= <-]. destruct (String.eqb_spec area_code c) as [<-|Hne].
  - rewrite lookup_insert_eq. intros [= <-].
    destruct (G !! area_code) as [e|] eqn:HG; [left; by exists e|right].
    split; [done|]. split; [|done]. try rewrite String.eqb_refl. discriminate.
  - rewrite lookup_insert_ne by done. intros He. left. by exists e'.
Qed.

Lemma first_contributor_cons (ft : in_feature) (l : list in_feature) (c : string) :
  first_contributor (ft :: l) c
  = if bool_decide (feature_polygons_for ft c ≠ []) then Some ft else first_contributor l c.
Proof.
  unfold first_contributor, feature_polygons_for. simpl.
  destruct (feature_contribution ft) as [[c' ps]|] eqn:Hc.
  2:{ rewrite bool_decide_false by (intros H; by apply H). reflexivity. }
  pose proof (feature_contribution_nonempty ft c' ps Hc) as Hps.
  destruct (String.eqb c' c).
  - rewrite bool_decide_true by done. reflexivity.
  - rewrite bool_decide_false by (intros H; by apply H). reflexivity.
Qed.

Lemma group_fold_entry (l : list in_feature) (G0 G : gmap string group_entry) (c : string)
    (e' : group_entry) :
  res_fold group_feature l G0 = Ok G -> G !! c = Some e' ->
  (exists e, G0 !! c = Some e ∧ g_props e' = g_props e ∧ g_municipality e' = g_municipality e) ∨
  (G0 !! c = None ∧ exists ft, first_contributor l c = Some ft ∧
     g_props e' = ft_properties ft ∧ g_municipality e' = canonical_municipality (ft_properties ft)).
Proof.
  revert G0. induction l as [|ft l IH]; intros G0; cbn [res_fold].
  { intros [= <-] He. left. by exists e'. }
  destruct (group_feature G0 ft) as [|G1] eqn:Hg; cbn [rbind]; [discriminate|].
  intros Hf He. rewrite first_contributor_cons.
  destruct (IH G1 Hf He) as [(e1 & He1 & Hp1 & Hm1)|(HG1 & ft' & Hft' & Hp1 & Hm1)].
  - destruct (group_feature_entry G0 G1 ft c e1 Hg He1)
      as [(e0 & He0 & Hp0 & Hm0)|(HG0 & Hne & Hp0 & Hm0)].
    + left. exists e0. split; [exact He0|]. rewrite Hp1, Hm1. split; assumption.
    + right. split; [exact HG0|]. exists ft. rewrite bool_decide_true by exact Hne.
      split; [reflexivity|]. rewrite Hp1, Hm1. split; assumption.
  - destruct (group_feature_step G0 G1 ft c Hg) as [_ Hs].
    rewrite HG1 in Hs.
    assert (HG0 : G0 !! c = None).
    { destruct (G0 !! c) eqn:H0; [|reflexivity]. exfalso.
      destruct (proj2 Hs (or_introl (ex_intro _ _ eq_refl))) as [? [=]]. }
    assert (Hno : feature_polygons_for ft c = []).
    { destruct (feature_polygons_for ft c) as [|p ps] eqn:Hp; [reflexivity|]. exfalso.
      assert (Hne : p :: ps ≠ []) by discriminate.
      destruct (proj2 Hs (or_intror Hne)) as [? [=]]. }
    right. split; [exact HG0|]. exists ft'. rewrite Hno, bool_decide_false by (intros H; by apply H).
    split; [exact Hft'|]. split; assumption.
Qed.

(** Every feature of the Municipality Grouper is built from the properties
    and the municipality name of the first feature that contributes
    polygons to its code, with the polygons of all contributing features:
    later features of the same code change nothing but the polygons. *)
Theorem grouped_feature_first_contributor (features : list in_feature)
    (out : list out_feature) :
  build_grouped_features features = Ok out ->
  Forall (fun f => exists ft, first_contributor features (out_code f) = Some ft ∧
    f = grouped_feature (out_code f)
          {| g_props := ft_properties ft;
             g_municipality := canonical_municipality (ft_properties ft);
             g_polygons := contributed_polygons features (out_code f) |}) out.
Proof.
  unfold build_grouped_features.
  destruct (res_fold group_feature features ∅) as [|G] eqn:HG; cbn [rbind]; [discriminate|].
  intros [= <-]. apply Forall_forall. intros f Hf.
  apply list_elem_of_In, in_map_iff in Hf as (c & <- & Hc). apply list_elem_of_In in Hc.
  rewrite (sort_strings_perm _) in Hc. apply keys_elem in Hc as [e He].
  rewrite He. change (out_code (grouped_feature c e)) with c.
  destruct (group_fold features ∅ G c HG) as [H1 _].
  unfold group_polygons in H1. rewrite He, lookup_empty in H1. simpl in H1.
  destruct (group_fold_entry features ∅ G c e HG He) as [(? & Habs & _)|(_ & ft & Hft & Hp & Hm)].
  { by rewrite lookup_empty in Habs. }
  exists ft. split; [done|]. destruct e as [gp gm gps]. cbn in H1, Hp, Hm. subst.
  reflexivity.
Qed.

Lemma grouped_feature_first_contributor_witness :
  exists out, build_grouped_features sample_features = Ok out ∧
  Forall (fun f => exists ft, first_contributor sample_features (out_code f) = Some ft ∧
    f = grouped_feature (out_code f)
          {| g_props := ft_properties ft;
             g_municipality := canonical_municipality (ft_properties ft);
             g_polygons := contributed_polygons sample_features (out_code f) |}) out.
Proof.
  eexists. split; [vm_compute; reflexivity|].
  apply grouped_feature_first_contributor. vm_compute. reflexivity.
Defined.

(* ------------------------------------------------------------------ *)
(** ** Prefecture names of the derived boundaries *)

Lemma index_feature_pref (T X : gset string) st st' (ft : in_feature) m :
  index_feature T X st ft = Ok st' ->
  st'.2 !! m = last_indexed_pref T X [ft] m (st.2 !! m).
Proof.
  unfold last_indexed_pref. cbn [fold_left].
  destruct (boundary_selected T X ft) eqn:Hsel; simpl.
  2:{ rewrite index_feature_unselected by done. by intros [= <-]. }
  unfold boundary_selected, boundary_municipality in Hsel.
  destruct st as [counts municipality_pref]. unfold index_feature, boundary_municipality.
  cbv zeta.
  apply andb_prop in Hsel as [Hsel HX]. apply andb_prop in Hsel as [HT Hm].
  apply negb_true_iff in Hm, HX. apply orb_prop in HT.
  assert (HT' : negb (bool_decide (T = ∅))
                && negb (bool_decide (canonical_pref_name (ft_properties ft) ∈ T)) = false).
  { destruct HT as [H|H]; rewrite H; simpl; [reflexivity|apply andb_false_r]. }
  rewrite HT', Hm, HX. simpl.
  destruct (normalize_polygons _) as [|ps]; cbn [rbind]; [discriminate|].
  destruct ps as [|p ps].
  - intros [= <-]. simpl. by destruct (String.eqb _ m).
  - destruct (iter_edges (p :: ps)) as [|edges]; cbn [rbind]; [discriminate|].
    intros [= <-]. simpl.
    destruct (String.eqb_spec (canonical_municipality_str
       (or_str (props_get (ft_properties ft) "municipality")
          (or_str (props_get (ft_properties ft) "area_name")
             (props_get (ft_properties ft) "N03_004")))) m) as [<-|Hne].
    + by rewrite lookup_insert_eq.
    + by rewrite lookup_insert_ne.
Qed.

Lemma index_fold_pref (T X : gset string) (features : list in_feature) st st' m :
  res_fold (index_feature T X) features st = Ok st' ->
  st'.2 !! m = last_indexed_pref T X features m (st.2 !! m).
Proof.
  revert st. induction features as [|ft features IH]; intros st; cbn [res_fold].
  { by intros [= <-]. }
  destruct (index_feature T X st ft) as [|st1] eqn:H1; cbn [rbind]; [discriminate|].
  intros Hf. rewrite (IH st1 Hf), (index_feature_pref T X st st1 ft m H1). reflexivity.
Qed.

Lemma boundary_outputs_features (mp : gmap string string) (me : gmap string (gset Edge))
    (pairs : list (nat * string)) (out : list out_feature) :
  res_flat_map (boundary_output mp me) pairs = Ok out ->
  forall f, f ∈ out -> exists i lines, f = boundary_feature mp i (feature_municipality f) lines.
Proof.
  revert out. induction pairs as [|[i m] pairs IH]; intros out; cbn [res_flat_map].
  { intros [= <-] f Hf. by apply elem_of_nil in Hf. }
  unfold boundary_output at 1.
  destruct (merge_edges_to_lines (default ∅ (me !! m))) as [|lines];
    cbn [rbind]; [discriminate|].
  destruct (res_flat_map (boundary_output mp me) pairs) as [|o] eqn:Ho;
    [destruct lines; discriminate|].
  destruct lines as [|l ls]; cbn [rbind]; intros [= <-] f Hf.
  - by apply (IH o).
  - apply elem_of_cons in Hf as [->|Hf]; [|by apply (IH o)].
    exists i, (l :: ls). reflexivity.
Qed.

(** A derived boundary feature carries, as [pref_name] and [N03_001], the
    prefecture name of the last selected feature of its municipality that
    has polygons: a municipality whose fine features disagree on the
    prefecture gets the name of the last one. *)
Theorem boundary_pref_name_last (features : list in_feature) (T X : gset string)
    (out : list out_feature) :
  build_extra_pref_boundary_features features T X = Ok out ->
  forall f, f ∈ out ->
    props_get (of_properties f) "pref_name"
      = default "" (last_indexed_pref T X features (feature_municipality f) None) ∧
    props_get (of_properties f) "N03_001"
      = default "" (last_indexed_pref T X features (feature_municipality f) None).
Proof.
  unfold build_extra_pref_boundary_features.
  destruct (res_fold (index_feature T X) features (∅, ∅)) as [|st] eqn:Hst;
    cbn [rbind]; [discriminate|].
  intros Hout f Hf.
  destruct (boundary_outputs_features _ _ _ out Hout f Hf) as (i & lines & Hfeq).
  pose proof (index_fold_pref T X features (∅, ∅) st (feature_municipality f) Hst) as Hp.
  cbn [snd] in Hp. rewrite lookup_empty in Hp. rewrite <- Hp, Hfeq. split; reflexivity.
Qed.

Lemma boundary_pref_name_last_witness :
  exists out,
    build_extra_pref_boundary_features
      [sample_feature "11102" "さいたま市" "北区"
         (PDict [("type", PStr "Polygon"); ("coordinates", PList [square_ring 1 0])]);
       {| ft_properties := [("N03_001", "千葉県"); ("N03_004", "さいたま市")];
          ft_geometry := PDict [("type", PStr "Polygon");
                                ("coordinates", PList [square_ring 0 0])] |}] ∅ ∅ = Ok out ∧
    map (fun f => props_get (of_properties f) "pref_name") out = ["千葉県"] ∧
    forall f, f ∈ out ->
      props_get (of_properties f) "pref_name"
        = default "" (last_indexed_pref ∅ ∅
            [sample_feature "11102" "さいたま市" "北区"
               (PDict [("type", PStr "Polygon"); ("coordinates", PList [square_ring 1 0])]);
             {| ft_properties := [("N03_001", "千葉県"); ("N03_004", "さいたま市")];
                ft_geometry := PDict [("type", PStr "Polygon");
                                      ("coordinates", PList [square_ring 0 0])] |}]
            (feature_municipality f) None) ∧
      props_get (of_properties f) "N03_001"
        = default "" (last_indexed_pref ∅ ∅
            [sample_feature "11102" "さいたま市" "北区"
               (PDict [("type", PStr "Polygon"); ("coordinates", PList [square_ring 1 0])]);
             {| ft_properties := [("N03_001", "千葉県"); ("N03_004", "さいたま市")];
                ft_geometry := PDict [("type", PStr "Polygon");
                                      ("coordinates", PList [square_ring 0 0])] |}]
            (feature_municipality f) None).
Proof.
  eexists. split; [vm_compute; reflexivity|]. split; [vm_compute; reflexivity|].
  apply boundary_pref_name_last. vm_compute. reflexivity.
Defined.
